(** * mathutil: 2D affine geometry on JavaScript numbers

    A shallow embedding of [src/app/scripts/common/mathutil.ts].

    A TypeScript [number] is an IEEE 754 binary64 value, so the program is
    read over Rocq's primitive [float] (the same format, with the kernel's
    correctly rounded [+], [-], [*], [/], [sqrt]).  The functions themselves
    are written once, over an interface [Number] of the arithmetic they use,
    and are then run at two instances:

    - [binary64]: the program as JavaScript runs it;
    - [exact]: the same text over the real numbers, that is, the program
      as it would behave were no operation ever rounded.

    The second instance is what the algebraic laws of the specification
    (identity, inverse, reverse composition) are laws of; the first one is
    what the code does. *)

From Stdlib Require Import Floats ZArith Bool List Lia.
From Stdlib Require Reals Lra.
Import ListNotations.

Set Warnings "-inexact-float".

(** ** Arrays

    [Array.prototype.reduce] (with an initial value) and
    [Array.prototype.every], as ECMAScript gives them: a loop over the
    indices [k = 0 .. len - 1], reading the element at [k]. *)

Fixpoint reduce_loop {A B : Type} (callback : B -> A -> B) (O : list A)
    (k : nat) (steps : nat) (accumulator : B) : B :=
  match steps with
  | 0%nat => accumulator
  | S steps' =>
      match nth_error O k with
      | Some kValue =>
          reduce_loop callback O (S k) steps' (callback accumulator kValue)
      | None => reduce_loop callback O (S k) steps' accumulator
      end
  end.

Definition Array_reduce {A B : Type} (callback : B -> A -> B) (O : list A)
    (initialValue : B) : B :=
  reduce_loop callback O 0 (length O) initialValue.

Fixpoint every_loop {A : Type} (callback : A -> bool) (O : list A)
    (k : nat) (steps : nat) : bool :=
  match steps with
  | 0%nat => true
  | S steps' =>
      match nth_error O k with
      | Some kValue =>
          if callback kValue then every_loop callback O (S k) steps' else false
      | None => every_loop callback O (S k) steps'
      end
  end.

Definition Array_every {A : Type} (callback : A -> bool) (O : list A) : bool :=
  every_loop callback O 0 (length O).

(** ** The arithmetic the module uses *)

(** The operators and [Math] functions whose result ECMAScript fixes
    exactly, and the four literals of the source. *)
Class Number (num : Type) := {
  add : num -> num -> num;
  sub : num -> num -> num;
  mul : num -> num -> num;
  div : num -> num -> num;
  rem : num -> num -> num;            (* the [%] operator *)
  lt : num -> num -> bool;            (* the [<] operator *)
  Math_abs : num -> num;
  Math_sqrt : num -> num;
  Math_max : num -> num -> num;
  lit_0 : num;
  lit_1 : num;
  lit_2 : num;
  lit_1e_8 : num                      (* the literal [1e-8] *)
}.

(** [Math.pow] and [Math.hypot]: ECMAScript fixes their special cases and
    leaves the rest "implementation-approximated", so they are a parameter
    of the program. *)
Class MathApprox (num : Type) := {
  Math_pow : num -> num -> num;
  Math_hypot : num -> num -> num
}.

Declare Scope num_scope.
Delimit Scope num_scope with num.
Infix "+" := add : num_scope.
Infix "-" := sub : num_scope.
Infix "*" := mul : num_scope.
Infix "/" := div : num_scope.
Infix "%%" := rem (at level 40, left associativity) : num_scope.
Infix "<" := lt : num_scope.
Notation "x > y" := (lt y x) : num_scope.

(** ** The module *)

Section MathUtil.

Context {num : Type} {N : Number num} {M : MathApprox num}.
Local Open Scope num_scope.

(** [interface IPoint { x: number; y: number; }] *)
Class IPoint (T : Type) := {
  IPoint_x : T -> num;
  IPoint_y : T -> num
}.

(** [class Point], with its default arguments in [Point_default]. *)
Record Point := new_Point { x : num; y : num }.

Definition Point_default : Point := new_Point lit_0 lit_0.

#[export] Instance Point_IPoint : IPoint Point :=
  {| IPoint_x := x; IPoint_y := y |}.

(** An object literal [{ x: ..., y: ... }] that is not a [Point]. *)
Record XY := obj { obj_x : num; obj_y : num }.

#[export] Instance XY_IPoint : IPoint XY :=
  {| IPoint_x := obj_x; IPoint_y := obj_y |}.

Definition Point_equals (this p : Point) : bool :=
  let diffX := Math_abs (x this - x p) in
  let diffY := Math_abs (y this - y p) in
  (diffX < lit_1e_8) && (diffY < lit_1e_8).

(** The callback of [areCollinear], for the line through [(a, b)] and
    [(m, n)]. *)
Definition collinear_with (a b m n : num) (p : Point) : bool :=
  a * (n - y p) + m * (y p - b) + x p * (b - n) < lit_1e_8.

Definition areCollinear (points : list Point) : bool :=
  if (length points <? 3)%nat then true
  else
    match points with
    | p0 :: p1 :: _ =>
        let a := x p0 in
        let b := y p0 in
        let m := x p1 in
        let n := y p1 in
        Array_every (collinear_with a b m n) points
    | _ => true
    end.

(** [class Matrix], with its default arguments in [Matrix_default]. *)
Record Matrix := new_Matrix {
  a : num; b : num; c : num; d : num; e : num; f : num
}.

Definition Matrix_default : Matrix :=
  new_Matrix lit_1 lit_0 lit_0 lit_1 lit_0 lit_0.

(** The callback of [transform]. *)
Definition transform_step (p : Point) (m : Matrix) : Point :=
  new_Point
    (a m * x p + c m * y p + e m * lit_1)
    (b m * x p + d m * y p + f m * lit_1).

Definition transform {T : Type} {I : IPoint T} (point : T)
    (matrices : list Matrix) : Point :=
  Array_reduce transform_step matrices
    (new_Point (IPoint_x point) (IPoint_y point)).

Definition distance {T1 T2 : Type} {I1 : IPoint T1} {I2 : IPoint T2}
    (p1 : T1) (p2 : T2) : num :=
  Math_sqrt (Math_pow (IPoint_x p2 - IPoint_x p1) lit_2
             + Math_pow (IPoint_y p2 - IPoint_y p1) lit_2).

Definition floorMod (n maxNum : num) : num :=
  ((n %% maxNum) + maxNum) %% maxNum.

Definition Matrix_dot (this m : Matrix) : Matrix :=
  new_Matrix
    (a this * a m + c this * b m)
    (b this * a m + d this * b m)
    (a this * c m + c this * d m)
    (b this * c m + d this * d m)
    (a this * e m + c this * f m + e this)
    (b this * e m + d this * f m + f this).

Definition flattenTransforms (matricies : list Matrix) : Matrix :=
  Array_reduce (fun prev curr => Matrix_dot curr prev) matricies Matrix_default.

Definition Matrix_invert (this : Matrix) : Matrix :=
  let m := this in
  new_Matrix
    (d m / (a m * d m - b m * c m))
    (b m / (b m * c m - a m * d m))
    (c m / (b m * c m - a m * d m))
    (a m / (a m * d m - b m * c m))
    ((d m * e m - c m * f m) / (b m * c m - a m * d m))
    ((b m * e m - a m * f m) / (a m * d m - b m * c m)).

Definition Matrix_getScale (this : Matrix) : num :=
  let matrix := new_Matrix (a this) (b this) (c this) (d this) lit_0 lit_0 in
  let vecA := transform (obj lit_0 lit_1) [matrix] in
  let vecB := transform (obj lit_1 lit_0) [matrix] in
  let scaleX := Math_hypot (x vecA) (y vecA) in
  let scaleY := Math_hypot (x vecB) (y vecB) in
  let crossProduct := y vecA * x vecB - x vecA * y vecB in
  let maxScale := Math_max scaleX scaleY in
  if maxScale > lit_0 then Math_abs crossProduct / maxScale else lit_0.

Definition lerp (a b t : num) : num := a + (b - a) * t.

End MathUtil.

Arguments Point num : clear implicits.
Arguments XY num : clear implicits.
Arguments Matrix num : clear implicits.
Arguments IPoint num T : clear implicits.

(** ** JavaScript numbers: IEEE 754 binary64 *)

Module JS.

(** [Number::remainder(n, d)], the [%] operator: the sign of the dividend,
    the quotient truncated, and no rounding (the result is always
    representable).  Written on the unpacked form of a float. *)
Definition SFrem (n d : spec_float) : spec_float :=
  match n, d with
  | S754_nan, _ | _, S754_nan => S754_nan
  | S754_infinity _, _ => S754_nan
  | _, S754_infinity _ => n
  | _, S754_zero _ => S754_nan
  | S754_zero _, _ => n
  | S754_finite sn mn en, S754_finite sd md ed =>
      let ez := Z.min en ed in
      let zn := Zpos (fst (shl_align mn en ez)) in
      let zd := Zpos (fst (shl_align md ed ez)) in
      binary_normalize prec emax (cond_Zopp sn (Z.rem zn zd)) ez sn
  end.

Definition rem (n d : float) : float :=
  SF2Prim (SFrem (Prim2SF n) (Prim2SF d)).

(** [Math.max] of two numbers: NaN if either is, and [+0] above [-0]. *)
Definition max (v1 v2 : float) : float :=
  if is_nan v1 || is_nan v2 then nan
  else if (v1 <? v2)%float then v2
  else if (v2 <? v1)%float then v1
  else if is_zero v1 && get_sign v1 then v2
  else v1.

End JS.

#[export] Instance binary64 : Number float := {|
  add := PrimFloat.add;
  sub := PrimFloat.sub;
  mul := PrimFloat.mul;
  div := PrimFloat.div;
  rem := JS.rem;
  lt := PrimFloat.ltb;
  Math_abs := PrimFloat.abs;
  Math_sqrt := PrimFloat.sqrt;
  Math_max := JS.max;
  lit_0 := 0%float;
  lit_1 := 1%float;
  lit_2 := 2%float;
  lit_1e_8 := 1e-8%float        (* the double 0x1.5798ee2308c3ap-27 *)
|}.

(** A sample implementation of the approximated functions: the square by
    one multiplication where the exponent is [2], and the hypotenuse by the
    scaled sum of squares. *)
Module Sample.

Definition pow (base exponent : float) : float :=
  if is_nan exponent then nan
  else if (exponent =? 0)%float then 1%float
  else if (exponent =? 1)%float then base
  else if (exponent =? 2)%float then (base * base)%float
  else nan.

Definition hypot (v1 v2 : float) : float :=
  let a1 := abs v1 in
  let a2 := abs v2 in
  if (a1 =? infinity)%float || (a2 =? infinity)%float then infinity
  else if is_nan v1 || is_nan v2 then nan
  else
    let max := if (a1 <? a2)%float then a2 else a1 in
    if (max =? 0)%float then 0%float
    else
      let n1 := (a1 / max)%float in
      let n2 := (a2 / max)%float in
      (PrimFloat.sqrt (n1 * n1 + n2 * n2) * max)%float.

End Sample.

Definition sample_math : MathApprox float :=
  {| Math_pow := Sample.pow; Math_hypot := Sample.hypot |}.


(** ** Exact arithmetic: the same operations over the real numbers *)

Module Exact.

Import Stdlib.Reals.Reals.
Local Open Scope R_scope.

Definition ltb (u v : R) : bool := if Rlt_dec u v then true else false.

(** The quotient truncated toward zero. *)
Definition truncate (u : R) : Z :=
  if Rle_dec 0 u then Int_part u else (- Int_part (- u))%Z.

Definition rem (n d : R) : R := n - d * IZR (truncate (n / d)).

Definition pow (base exponent : R) : R :=
  if Req_dec_T exponent (IZR (Int_part exponent))
  then powerRZ base (Int_part exponent)
  else Rpower base exponent.

Definition hypot (v1 v2 : R) : R := sqrt (v1 * v1 + v2 * v2).

End Exact.

#[export] Instance exact : Number Rdefinitions.R := {|
  add := Rdefinitions.Rplus;
  sub := Rdefinitions.Rminus;
  mul := Rdefinitions.Rmult;
  div := Rdefinitions.Rdiv;
  rem := Exact.rem;
  lt := Exact.ltb;
  Math_abs := Rbasic_fun.Rabs;
  Math_sqrt := R_sqrt.sqrt;
  Math_max := Rbasic_fun.Rmax;
  lit_0 := Rdefinitions.IZR 0;
  lit_1 := Rdefinitions.IZR 1;
  lit_2 := Rdefinitions.IZR 2;
  lit_1e_8 := Rdefinitions.Rdiv (Rdefinitions.IZR 1) (Rdefinitions.IZR 100000000)
|}.

#[export] Instance exact_math : MathApprox Rdefinitions.R :=
  {| Math_pow := Exact.pow; Math_hypot := Exact.hypot |}.

(** ** Vocabulary of the statements *)

(** On the unpacked form: neither NaN nor an infinity. *)
Definition SF_is_finite (s : spec_float) : bool :=
  match s with
  | S754_zero _ | S754_finite _ _ _ => true
  | _ => false
  end.

(** The affine map as the specification writes it:
    [x' = a·x + c·y + e], [y' = b·x + d·y + f]. *)
Definition affine {num : Type} {N : Number num} (p : Point num) (m : Matrix num)
    : Point num :=
  new_Point
    (a m * x p + c m * y p + e m)%num
    (b m * x p + d m * y p + f m)%num.

(** Twice the signed area of the triangle [p0 p1 p], as the specification
    writes it. *)
Definition signed_double_area {num : Type} {N : Number num}
    (p0 p1 p : Point num) : num :=
  (x p0 * (y p1 - y p) + x p1 * (y p - y p0) + x p * (y p0 - y p1))%num.

(** Two numbers that are equal, or are both zeros (of either sign): what
    JavaScript calls SameValueZero.  On the unpacked form and on floats. *)
Definition SF_same (s t : spec_float) : Prop :=
  s = t \/ exists b b', s = S754_zero b /\ t = S754_zero b'.

Definition same_number (u v : float) : Prop :=
  u = v \/ (is_zero u = true /\ is_zero v = true).

Definition same_matrix (A B : Matrix float) : Prop :=
  same_number (a A) (a B) /\ same_number (b A) (b B) /\
  same_number (c A) (c B) /\ same_number (d A) (d B) /\
  same_number (e A) (e B) /\ same_number (f A) (f B).

(** All six coefficients, or the four of the linear part, are finite. *)
Definition Matrix_is_finite (A : Matrix float) : Prop :=
  is_finite (a A) = true /\ is_finite (b A) = true /\
  is_finite (c A) = true /\ is_finite (d A) = true /\
  is_finite (e A) = true /\ is_finite (f A) = true.

Definition Matrix_linear_is_finite (A : Matrix float) : Prop :=
  is_finite (a A) = true /\ is_finite (b A) = true /\
  is_finite (c A) = true /\ is_finite (d A) = true.

(** The round trip of the specification's test: [transform(p, M, M.invert())]
    is [p] within [1e-6] in each coordinate. *)
Definition round_trip_within_1e_6 (M : Matrix float) (p : Point float) : bool :=
  let q := transform p [M; Matrix_invert M] in
  (abs (x q - x p) <? 1e-6)%float && (abs (y q - y p) <? 1e-6)%float.

(** The determinant of the linear part, as [invert] computes it. *)
Definition determinant {num : Type} {N : Number num} (M : Matrix num) : num :=
  (a M * d M - b M * c M)%num.

(** A grid of samples: the matrices and points with coordinates among
    [-2, -1, 0, 1, 2]. *)
Definition grid_values : list float := [-2; -1; 0; 1; 2]%float.

Definition grid_points : list (Point float) :=
  flat_map (fun u => map (fun v => new_Point u v) grid_values) grid_values.

Definition grid_matrices : list (Matrix float) :=
  flat_map (fun a0 => flat_map (fun b0 => flat_map (fun c0 =>
  flat_map (fun d0 => flat_map (fun e0 => map (fun f0 =>
    new_Matrix a0 b0 c0 d0 e0 f0)
  grid_values) grid_values) grid_values) grid_values) grid_values) grid_values.

Definition round_trip_on_grid : bool :=
  forallb (fun M =>
    (determinant M =? 0)%float
    || forallb (round_trip_within_1e_6 M) grid_points) grid_matrices.

(** The intermediate values of [getScale], named as in the source. *)
Section GetScaleParts.

Context {num : Type} {N : Number num} {M : MathApprox num}.

Definition getScale_vecA (this : Matrix num) : Point num :=
  transform (obj lit_0 lit_1)
    [new_Matrix (a this) (b this) (c this) (d this) lit_0 lit_0].

Definition getScale_vecB (this : Matrix num) : Point num :=
  transform (obj lit_1 lit_0)
    [new_Matrix (a this) (b this) (c this) (d this) lit_0 lit_0].

Definition getScale_crossProduct (this : Matrix num) : num :=
  (y (getScale_vecA this) * x (getScale_vecB this)
   - x (getScale_vecA this) * y (getScale_vecB this))%num.

Definition getScale_maxScale (this : Matrix num) : num :=
  Math_max
    (Math_hypot (x (getScale_vecA this)) (y (getScale_vecA this)))
    (Math_hypot (x (getScale_vecB this)) (y (getScale_vecB this))).

End GetScaleParts.

(** ** Integers as JavaScript numbers *)

(** The double nearest to an integer; for a safe integer
    ([|z| < 2^53]) it is the integer itself. *)
Definition of_Z (z : Z) : float :=
  SF2Prim (binary_normalize prec emax z 0 false).

(** The unpacked form of a safe integer: the 53-bit mantissa
    [p * 2^(53 - digits p)] and the exponent [digits p - 53]. *)
Definition canon_mantissa (p : positive) : positive :=
  Pos.shiftl_nat p (Z.to_nat (prec - Zpos (digits2_pos p))).

Definition canon_exponent (p : positive) : Z :=
  (Zpos (digits2_pos p) - prec)%Z.

Definition SF_of_Z (z : Z) : spec_float :=
  match z with
  | Z0 => S754_zero false
  | Zpos p => S754_finite false (canon_mantissa p) (canon_exponent p)
  | Zneg p => S754_finite true (canon_mantissa p) (canon_exponent p)
  end.

Definition safe_integer (z : Z) : Prop := (Z.abs z < 2 ^ 53)%Z.

(** The same, but with a given sign when the integer is zero. *)
Definition SF_signed_zero_or (sz : bool) (z : Z) : spec_float :=
  match z with Z0 => S754_zero sz | _ => SF_of_Z z end.

(** ** The value of a finite float, in units of the smallest subnormal

    Every finite binary64 number is an integer multiple of [2^emin]
    ([emin = -1074]); [SF_value] is that integer, so that values are compared
    and combined as integers. *)
Definition SF_value (s : spec_float) : Z :=
  match s with
  | S754_finite sg m e => cond_Zopp sg (Zpos m * 2 ^ (e - emin))%Z
  | _ => 0%Z
  end.

(** A zero or a finite number in canonical form. *)
Definition SF_finite_valid (s : spec_float) : Prop :=
  SF_is_finite s = true /\ valid_binary s = true.

(** An integer matrix of determinant [1] or [-1], with a point, all of
    whose entries are at most [2^16] in magnitude. *)
Definition small_integer (z : Z) : Prop := (Z.abs z <= 2 ^ 16)%Z.

Definition unimodular (a0 b0 c0 d0 : Z) : Prop :=
  (a0 * d0 - b0 * c0 = 1 \/ a0 * d0 - b0 * c0 = -1)%Z.

(** A number that is the integer [z], of magnitude at most [K] (a safe
    integer itself), up to the sign of zero. *)
Definition represents (u : float) (z K : Z) : Prop :=
  same_number u (of_Z z) /\ (Z.abs z <= K < 2 ^ 53)%Z.


(** ** Points with integer coordinates *)

(** The [Point] with the integer coordinates [q], and twice the signed area
    of a triangle of such points, as an integer. *)
Definition integer_Point (q : Z * Z) : Point float :=
  new_Point (of_Z (fst q)) (of_Z (snd q)).

Definition small_point (q : Z * Z) : Prop :=
  small_integer (fst q) /\ small_integer (snd q).

Definition signed_double_area_Z (q0 q1 q : Z * Z) : Z :=
  (fst q0 * (snd q1 - snd q) + fst q1 * (snd q - snd q0)
   + fst q * (snd q0 - snd q1))%Z.


(** * Proofs *)

(** ** Arrays: the index loops are the list folds *)

Section Arrays.

Context {A B : Type}.

Lemma skipn_nth_error (O : list A) : forall k kValue,
  nth_error O k = Some kValue -> skipn k O = kValue :: skipn (S k) O.
Proof.
  induction O as [|v O IH]; intros [|k] kValue H; simpl in H; try discriminate.
  - now inversion H.
  - now apply IH.
Qed.

Lemma reduce_loop_fold_left (callback : B -> A -> B) (O : list A) :
  forall steps k accumulator,
    (k + steps = length O)%nat ->
    reduce_loop callback O k steps accumulator
    = fold_left callback (skipn k O) accumulator.
Proof.
  induction steps as [|steps IH]; intros k accumulator Hlen; simpl.
  - rewrite skipn_all2 by lia. reflexivity.
  - destruct (nth_error O k) as [kValue|] eqn:Hk.
    + rewrite (skipn_nth_error _ _ _ Hk). simpl. apply IH. lia.
    + apply nth_error_None in Hk. lia.
Qed.

Lemma Array_reduce_fold_left (callback : B -> A -> B) (O : list A) (initialValue : B) :
  Array_reduce callback O initialValue = fold_left callback O initialValue.
Proof.
  unfold Array_reduce. now rewrite reduce_loop_fold_left.
Qed.

Lemma every_loop_forallb (callback : A -> bool) (O : list A) :
  forall steps k,
    (k + steps = length O)%nat ->
    every_loop callback O k steps = forallb callback (skipn k O).
Proof.
  induction steps as [|steps IH]; intros k Hlen; simpl.
  - rewrite skipn_all2 by lia. reflexivity.
  - destruct (nth_error O k) as [kValue|] eqn:Hk.
    + rewrite (skipn_nth_error _ _ _ Hk). simpl.
      destruct (callback kValue); [apply IH; lia | reflexivity].
    + apply nth_error_None in Hk. lia.
Qed.

Lemma Array_every_forallb (callback : A -> bool) (O : list A) :
  Array_every callback O = forallb callback O.
Proof.
  unfold Array_every. now rewrite every_loop_forallb.
Qed.

Lemma fold_left_pointwise (g h : B -> A -> B) (O : list A) :
  (forall acc v, g acc v = h acc v) ->
  forall acc, fold_left g O acc = fold_left h O acc.
Proof.
  intro Hgh. induction O as [|v O IH]; intro acc; simpl.
  - reflexivity.
  - now rewrite Hgh, IH.
Qed.

End Arrays.

(** ** Binary64: rounding a value that needs none *)

Lemma iter_pos_nat {A} (f : A -> A) (p : positive) (x : A) :
  SpecFloat.iter_pos f p x = Nat.iter (Pos.to_nat p) f x.
Proof.
  revert x; induction p as [p IH | p IH |]; intro x; cbn [SpecFloat.iter_pos].
  - rewrite !IH, Pos2Nat.inj_xI.
    replace (S (2 * Pos.to_nat p)) with (Pos.to_nat p + S (Pos.to_nat p))%nat by lia.
    rewrite Nat.iter_add, Nat.iter_succ_r. reflexivity.
  - rewrite !IH, Pos2Nat.inj_xO.
    replace (2 * Pos.to_nat p)%nat with (Pos.to_nat p + Pos.to_nat p)%nat by lia.
    now rewrite Nat.iter_add.
  - reflexivity.
Qed.

Lemma digits2_shiftl_nat m k :
  Zpos (digits2_pos (Pos.shiftl_nat m k)) = (Zpos (digits2_pos m) + Z.of_nat k)%Z.
Proof.
  induction k as [|k IH]; simpl Pos.shiftl_nat.
  - simpl. lia.
  - cbn [digits2_pos]. rewrite Pos2Z.inj_succ, IH. lia.
Qed.

Lemma shr_shiftl_nat m k :
  Nat.iter k shr_1 (Build_shr_record (Zpos (Pos.shiftl_nat m k)) false false)
  = Build_shr_record (Zpos m) false false.
Proof.
  induction k as [|k IH]; [reflexivity|].
  rewrite Nat.iter_succ_r. simpl Pos.shiftl_nat. cbn [shr_1 orb]. exact IH.
Qed.

Lemma shr_exact m e k :
  shr (Build_shr_record (Zpos (Pos.shiftl_nat m k)) false false) e (Z.of_nat k)
  = (Build_shr_record (Zpos m) false false, (e + Z.of_nat k)%Z).
Proof.
  destruct k as [|k].
  - simpl. f_equal. lia.
  - change (Z.of_nat (S k)) with (Zpos (Pos.of_succ_nat k)). unfold shr.
    rewrite iter_pos_nat, SuccNat2Pos.id_succ.
    now rewrite shr_shiftl_nat.
Qed.

Lemma bounded_canonical m e :
  bounded prec emax m e = true ->
  fexp prec emax (Zpos (digits2_pos m) + e) = e /\ (e <= emax - prec)%Z.
Proof.
  unfold bounded, canonical_mantissa. intro H.
  apply andb_prop in H. destruct H as [H1 H2].
  apply Z.eqb_eq in H1. apply Z.leb_le in H2. auto.
Qed.

Lemma binary_round_aux_exact s m e k :
  bounded prec emax m e = true ->
  binary_round_aux prec emax s (Zpos (Pos.shiftl_nat m k)) (e - Z.of_nat k) loc_Exact
  = S754_finite s m e.
Proof.
  intro Hb. destruct (bounded_canonical m e Hb) as [Hc He].
  unfold binary_round_aux, shr_fexp.
  cbn [Zdigits2 shr_record_of_loc].
  rewrite digits2_shiftl_nat.
  replace (Zpos (digits2_pos m) + Z.of_nat k + (e - Z.of_nat k))%Z
    with (Zpos (digits2_pos m) + e)%Z by lia.
  rewrite Hc.
  replace (e - (e - Z.of_nat k))%Z with (Z.of_nat k) by lia.
  rewrite shr_exact.
  cbn [shr_m loc_of_shr_record round_nearest_even Zdigits2 shr_record_of_loc].
  replace (e - Z.of_nat k + Z.of_nat k)%Z with e by lia.
  rewrite Hc, Z.sub_diag. cbn [shr shr_m].
  apply Z.leb_le in He. now rewrite He.
Qed.

(** ** Binary64: constants, classification, and the laws that hold exactly *)

Lemma Prim2SF_0 : Prim2SF 0 = S754_zero false.
Proof. reflexivity. Qed.
Lemma Prim2SF_1 : Prim2SF 1 = S754_finite false 4503599627370496 (-52).
Proof. reflexivity. Qed.
Lemma Prim2SF_nan : Prim2SF nan = S754_nan.
Proof. reflexivity. Qed.
Lemma Prim2SF_infinity : Prim2SF infinity = S754_infinity false.
Proof. reflexivity. Qed.

Lemma mul_1_r (x : float) : (x * 1)%float = x.
Proof.
  apply Prim2SF_inj. rewrite mul_spec, Prim2SF_1.
  pose proof (Prim2SF_valid x) as V.
  destruct (Prim2SF x) as [s | s | | s m e]; cbn [SF64mul SFmul];
    rewrite ?xorb_false_r; try reflexivity.
  rewrite Pos.mul_comm.
  change (4503599627370496 * m)%positive with (Pos.shiftl_nat m 52).
  change (e + -52)%Z with (e - Z.of_nat 52)%Z.
  now apply binary_round_aux_exact.
Qed.

Lemma mul_1_l (x : float) : (1 * x)%float = x.
Proof.
  apply Prim2SF_inj. rewrite mul_spec, Prim2SF_1.
  pose proof (Prim2SF_valid x) as V.
  destruct (Prim2SF x) as [s | s | | s m e]; cbn [SF64mul SFmul xorb];
    try reflexivity.
  change (4503599627370496 * m)%positive with (Pos.shiftl_nat m 52).
  replace (-52 + e)%Z with (e - Z.of_nat 52)%Z by (change (Z.of_nat 52) with 52%Z; lia).
  now apply binary_round_aux_exact.
Qed.

Lemma SFcompare_refl s : s <> S754_nan -> SFcompare s s = Some Eq.
Proof.
  destruct s as [b | b | | b m e]; cbn; intro H;
    try reflexivity; try (now destruct b); try congruence.
  rewrite Z.compare_refl, Pos.compare_cont_refl. now destruct b.
Qed.

Lemma is_nan_spec x : is_nan x = match Prim2SF x with S754_nan => true | _ => false end.
Proof.
  unfold is_nan. rewrite FloatAxioms.eqb_spec. unfold SFeqb.
  destruct (Prim2SF x) as [b | b | | b m e] eqn:E; try reflexivity;
    (rewrite SFcompare_refl; [reflexivity | discriminate]).
Qed.

Lemma is_infinity_spec x : is_infinity x = match Prim2SF x with S754_infinity _ => true | _ => false end.
Proof.
  unfold is_infinity. rewrite FloatAxioms.eqb_spec, abs_spec, Prim2SF_infinity. unfold SFeqb.
  destruct (Prim2SF x) as [b | b | | b m e]; reflexivity.
Qed.

Lemma is_finite_spec x : is_finite x = SF_is_finite (Prim2SF x).
Proof.
  unfold is_finite. rewrite is_nan_spec, is_infinity_spec.
  destruct (Prim2SF x); reflexivity.
Qed.

Lemma sub_diag_finite x : is_finite x = true -> (x - x)%float = 0%float.
Proof.
  rewrite is_finite_spec. intro H.
  apply Prim2SF_inj. rewrite sub_spec, Prim2SF_0.
  destruct (Prim2SF x) as [s | s | | s m e]; try discriminate.
  - now destruct s.
  - unfold SF64sub, SFsub. now rewrite Z.sub_diag.
Qed.

Lemma sub_diag_not_finite x : is_finite x = false -> (x - x)%float = nan.
Proof.
  rewrite is_finite_spec. intro H.
  apply Prim2SF_inj. rewrite sub_spec, Prim2SF_nan.
  destruct (Prim2SF x) as [s | s | | s m e]; try discriminate.
  - now destruct s.
  - reflexivity.
Qed.

Lemma SFabs_binary_round s p e :
  SFabs (binary_round prec emax s p e) = SFabs (binary_round prec emax false p e).
Proof.
  unfold binary_round.
  destruct (shl_align p e _) as [mz ez].
  unfold binary_round_aux.
  destruct (shr_fexp prec emax (Zpos mz) ez loc_Exact) as [mrs' e'].
  destruct (shr_fexp prec emax _ e' loc_Exact) as [mrs'' e''].
  destruct (shr_m mrs''); try reflexivity.
  now destruct (e'' <=? emax - prec)%Z.
Qed.

Lemma SFabs_binary_normalize_opp z e :
  SFabs (binary_normalize prec emax (- z) e false)
  = SFabs (binary_normalize prec emax z e false).
Proof.
  destruct z as [ | p | p]; cbn [Z.opp binary_normalize]; try reflexivity.
  - apply SFabs_binary_round.
  - symmetry. apply SFabs_binary_round.
Qed.

Lemma SFabs_SFsub_comm u v :
  SFabs (SFsub prec emax u v) = SFabs (SFsub prec emax v u).
Proof.
  destruct u as [su | su | | su mu eu], v as [sv | sv | | sv mv ev];
    try reflexivity;
    try (now destruct su, sv); try (now destruct su); try (now destruct sv).
  unfold SFsub. rewrite (Z.min_comm ev eu).
  rewrite <- SFabs_binary_normalize_opp. f_equal. f_equal. lia.
Qed.

Lemma abs_sub_comm u v : abs (u - v) = abs (v - u).
Proof.
  apply Prim2SF_inj. rewrite !abs_spec, !sub_spec. apply SFabs_SFsub_comm.
Qed.

(** ** Binary64: signs and comparisons *)

Lemma binary_round_aux_cases s m e l :
  let r := binary_round_aux prec emax s m e l in
  r = S754_nan \/ r = S754_zero s \/ r = S754_infinity s
  \/ exists m' e', r = S754_finite s m' e'.
Proof.
  cbv zeta. unfold binary_round_aux.
  destruct (shr_fexp prec emax m e l) as [mrs' e'].
  destruct (shr_fexp prec emax _ e' loc_Exact) as [mrs'' e''].
  destruct (shr_m mrs'') as [ | p | p]; auto.
  destruct (e'' <=? emax - prec)%Z; eauto 6.
Qed.

Lemma sqrt_nan_or_nonneg (u : float) :
  is_nan (PrimFloat.sqrt u) = true \/ (0 <=? PrimFloat.sqrt u)%float = true.
Proof.
  rewrite is_nan_spec, leb_spec, sqrt_spec, Prim2SF_0.
  destruct (Prim2SF u) as [s | [|] | | [|] m e]; cbn; auto.
  unfold SF64sqrt, SFsqrt.
  destruct (SFsqrt_core_binary prec emax (Zpos m) e) as [[mz ez] lz].
  destruct (binary_round_aux_cases false mz ez lz)
    as [H | [H | [H | (m' & e' & H)]]]; rewrite H; cbn; auto.
Qed.

Lemma ltb_0_false (u : float) :
  (0 <? u)%float = false <-> is_nan u = true \/ (u <=? 0)%float = true.
Proof.
  rewrite ltb_spec, is_nan_spec, leb_spec, Prim2SF_0.
  destruct (Prim2SF u) as [s | [|] | | [|] m e]; cbn; intuition discriminate.
Qed.

Lemma ltb_0_true_cases (k : float) :
  (0 <? k)%float = true ->
  Prim2SF k = S754_infinity false \/ exists m e, Prim2SF k = S754_finite false m e.
Proof.
  rewrite ltb_spec, Prim2SF_0.
  destruct (Prim2SF k) as [s | [|] | | [|] m e]; cbn; try discriminate; eauto.
Qed.

Lemma positive_finite_cases (k : float) :
  is_finite k = true -> (0 <? k)%float = true ->
  exists m e, Prim2SF k = S754_finite false m e.
Proof.
  rewrite is_finite_spec. intros Hf Hk.
  destruct (ltb_0_true_cases k Hk) as [H | H]; [| exact H].
  rewrite H in Hf. discriminate.
Qed.

(** ** Binary64: equality up to the sign of zero *)

Lemma is_zero_spec u :
  is_zero u = match Prim2SF u with S754_zero _ => true | _ => false end.
Proof.
  unfold is_zero, zero. rewrite FloatAxioms.eqb_spec, Prim2SF_0. unfold SFeqb.
  destruct (Prim2SF u) as [s | s | | s m e]; try reflexivity.
  - now destruct s.
  - now destruct s.
Qed.

Lemma same_number_spec u v :
  same_number u v <-> SF_same (Prim2SF u) (Prim2SF v).
Proof.
  unfold same_number, SF_same. rewrite !is_zero_spec. split.
  - intros [-> | [Hu Hv]]; [now left | right].
    destruct (Prim2SF u) as [bu | | |]; try discriminate.
    destruct (Prim2SF v) as [bv | | |]; try discriminate.
    now exists bu, bv.
  - intros [H | (bu & bv & Hu & Hv)].
    + left. now apply Prim2SF_inj.
    + right. now rewrite Hu, Hv.
Qed.

Lemma SF_same_refl s : SF_same s s.
Proof. now left. Qed.

Lemma SF_same_zero b b' : SF_same (S754_zero b) (S754_zero b').
Proof. right. now exists b, b'. Qed.

Create HintDb sf_same.
#[export] Hint Resolve SF_same_refl SF_same_zero : sf_same.

Ltac sf_same_cases H :=
  let b := fresh "b" in
  let b' := fresh "b" in
  destruct H as [H | (b & b' & H & ?)]; subst.

Lemma SF_same_trans s t r : SF_same s t -> SF_same t r -> SF_same s r.
Proof.
  intros H1 H2. sf_same_cases H1; sf_same_cases H2;
    solve [auto with sf_same | right; eauto].
Qed.

Ltac destruct_bools :=
  repeat match goal with x : bool |- _ => destruct x end.

Ltac destruct_floats :=
  repeat match goal with x : spec_float |- _ => destruct x end.

Ltac sf_same_by_cases :=
  auto with sf_same;
  destruct_floats; cbn; auto with sf_same;
  destruct_bools; auto with sf_same.

Lemma SFmul_same u u' v v' :
  SF_same u u' -> SF_same v v' ->
  SF_same (SF64mul u v) (SF64mul u' v').
Proof.
  intros Hu Hv. sf_same_cases Hu; sf_same_cases Hv; sf_same_by_cases.
Qed.

Lemma SFadd_same u u' v v' :
  SF_same u u' -> SF_same v v' ->
  SF_same (SF64add u v) (SF64add u' v').
Proof.
  intros Hu Hv. sf_same_cases Hu; sf_same_cases Hv; sf_same_by_cases.
Qed.

Lemma SFsub_same u u' v v' :
  SF_same u u' -> SF_same v v' ->
  SF_same (SF64sub u v) (SF64sub u' v').
Proof.
  intros Hu Hv. sf_same_cases Hu; sf_same_cases Hv; sf_same_by_cases.
Qed.

Lemma SFdiv_same_l u u' v :
  SF_same u u' -> SF_same (SF64div u v) (SF64div u' v).
Proof.
  intros Hu. sf_same_cases Hu; sf_same_by_cases.
Qed.

Lemma mul_same u u' v v' :
  same_number u u' -> same_number v v' -> same_number (u * v) (u' * v').
Proof.
  rewrite !same_number_spec, !mul_spec. apply SFmul_same.
Qed.

Lemma add_same u u' v v' :
  same_number u u' -> same_number v v' -> same_number (u + v) (u' + v').
Proof.
  rewrite !same_number_spec, !add_spec. apply SFadd_same.
Qed.

Lemma sub_same u u' v v' :
  same_number u u' -> same_number v v' -> same_number (u - v) (u' - v').
Proof. rewrite !same_number_spec, !sub_spec. apply SFsub_same. Qed.

Lemma div_same_l u u' v :
  same_number u u' -> same_number (u / v) (u' / v).
Proof. rewrite !same_number_spec, !div_spec. apply SFdiv_same_l. Qed.

Lemma same_number_refl u : same_number u u.
Proof. now left. Qed.

Lemma same_number_trans u v w :
  same_number u v -> same_number v w -> same_number u w.
Proof. rewrite !same_number_spec. apply SF_same_trans. Qed.

(** Adding a zero changes at most the sign of a zero. *)
Lemma add_zero_r_same u z : is_zero z = true -> same_number (u + z) u.
Proof.
  rewrite same_number_spec, add_spec, is_zero_spec.
  destruct (Prim2SF z) as [bz | | |]; try discriminate. intros _.
  destruct (Prim2SF u) as [s | s | | s m e]; cbn; auto with sf_same.
  destruct s, bz; auto with sf_same.
Qed.

Lemma add_zero_l_same u z : is_zero z = true -> same_number (z + u) u.
Proof.
  rewrite same_number_spec, add_spec, is_zero_spec.
  destruct (Prim2SF z) as [bz | | |]; try discriminate. intros _.
  destruct (Prim2SF u) as [s | s | | s m e]; cbn; auto with sf_same.
  destruct s, bz; auto with sf_same.
Qed.

Lemma add_zero_zero z1 z2 :
  is_zero z1 = true -> is_zero z2 = true -> is_zero (z1 + z2) = true.
Proof.
  rewrite !is_zero_spec, add_spec.
  destruct (Prim2SF z1) as [b1 | | |]; try discriminate.
  destruct (Prim2SF z2) as [b2 | | |]; try discriminate.
  now destruct b1, b2.
Qed.

(** A finite number times a zero is a zero. *)
Lemma mul_zero_r u z :
  is_finite u = true -> is_zero z = true -> is_zero (u * z) = true.
Proof.
  rewrite is_finite_spec, !is_zero_spec, mul_spec.
  destruct (Prim2SF z) as [bz | | |]; try discriminate.
  now destruct (Prim2SF u).
Qed.

Lemma mul_zero_l u z :
  is_finite u = true -> is_zero z = true -> is_zero (z * u) = true.
Proof.
  rewrite is_finite_spec, !is_zero_spec, mul_spec.
  destruct (Prim2SF z) as [bz | | |]; try discriminate.
  now destruct (Prim2SF u).
Qed.

(** ** Binary64: positive numbers *)

Section Binary64Positive.

Local Open Scope float_scope.

Lemma sub_0_r (u : float) : u - 0 = u.
Proof.
  apply Prim2SF_inj. rewrite sub_spec, Prim2SF_0.
  now destruct (Prim2SF u) as [[|] | s | | s m e].
Qed.

Lemma add_0_l_positive (k : float) : (0 <? k) = true -> 0 + k = k.
Proof.
  intro Hk. apply Prim2SF_inj. rewrite add_spec, Prim2SF_0.
  destruct (ltb_0_true_cases k Hk) as [H | (m & e & H)]; now rewrite H.
Qed.

Lemma add_0_r_positive (k : float) : (0 <? k) = true -> k + 0 = k.
Proof.
  intro Hk. apply Prim2SF_inj. rewrite add_spec, Prim2SF_0.
  destruct (ltb_0_true_cases k Hk) as [H | (m & e & H)]; now rewrite H.
Qed.

Lemma mul_0_r_positive_finite (k : float) :
  is_finite k = true -> (0 <? k) = true -> k * 0 = 0.
Proof.
  intros Hf Hk. apply Prim2SF_inj. rewrite mul_spec, Prim2SF_0.
  destruct (positive_finite_cases k Hf Hk) as (m & e & H). now rewrite H.
Qed.

Lemma abs_square_positive (k : float) :
  (0 <? k) = true -> abs (k * k) = k * k.
Proof.
  intro Hk. apply Prim2SF_inj. rewrite abs_spec, mul_spec.
  destruct (ltb_0_true_cases k Hk) as [H | (m & e & H)]; rewrite H.
  - reflexivity.
  - unfold SF64mul, SFmul. cbn [xorb].
    destruct (binary_round_aux_cases false (Zpos (m * m)) (e + e) loc_Exact)
      as [E | [E | [E | (m' & e' & E)]]]; now rewrite E.
Qed.

Lemma max_diag_positive (k : float) : (0 <? k) = true -> JS.max k k = k.
Proof.
  intro Hk. unfold JS.max.
  rewrite is_nan_spec, is_zero_spec, ltb_spec.
  destruct (ltb_0_true_cases k Hk) as [H | (m & e & H)]; rewrite H.
  - reflexivity.
  - unfold SFltb. rewrite !SFcompare_refl by discriminate. reflexivity.
Qed.

End Binary64Positive.

(** ** Binary64: safe integers are represented exactly *)

Section SafeIntegers.

Local Open Scope Z_scope.

Lemma digits2_pos_size p : digits2_pos p = Pos.size p.
Proof. induction p; simpl; congruence. Qed.

Lemma digits2_pos_log2 p : Zpos (digits2_pos p) = Z.log2 (Zpos p) + 1.
Proof.
  rewrite digits2_pos_size. destruct p; simpl; lia.
Qed.

Lemma digits2_pos_bound p n :
  Zpos p < 2 ^ n -> 0 <= n -> Zpos (digits2_pos p) <= n.
Proof.
  intros Hp Hn. rewrite digits2_pos_log2.
  assert (Z.log2 (Zpos p) < n) by (apply Z.log2_lt_pow2; lia).
  lia.
Qed.

Lemma digits2_pos_mono p q :
  (p <= q)%positive -> Zpos (digits2_pos p) <= Zpos (digits2_pos q).
Proof.
  intro H. rewrite !digits2_pos_log2.
  pose proof (Z.log2_le_mono (Zpos p) (Zpos q) ltac:(lia)). lia.
Qed.

Lemma shiftl_nat_Z p k :
  Zpos (Pos.shiftl_nat p k) = Zpos p * 2 ^ Z.of_nat k.
Proof.
  induction k as [|k IH].
  - simpl. lia.
  - rewrite Nat2Z.inj_succ, Z.pow_succ_r by lia.
    change (Pos.shiftl_nat p (S k)) with ((Pos.shiftl_nat p k)~0)%positive.
    rewrite Pos2Z.inj_xO, IH. ring.
Qed.

Lemma shiftl_nat_add p j k :
  Pos.shiftl_nat (Pos.shiftl_nat p j) k = Pos.shiftl_nat p (j + k).
Proof.
  apply Pos2Z.inj. rewrite !shiftl_nat_Z, Nat2Z.inj_add, Z.pow_add_r by lia. ring.
Qed.

Lemma iter_xO_shiftl_nat p d :
  Pos.iter xO p d = Pos.shiftl_nat p (Pos.to_nat d).
Proof. unfold Pos.shiftl_nat. apply Pos2Nat.inj_iter. Qed.

Lemma canon_bounded p :
  Zpos p < 2 ^ 53 ->
  bounded prec emax (canon_mantissa p) (canon_exponent p) = true.
Proof.
  intro Hp. pose proof (digits2_pos_bound p 53 Hp ltac:(lia)) as Hd.
  unfold bounded, canonical_mantissa, canon_mantissa, canon_exponent.
  rewrite digits2_shiftl_nat, Z2Nat.id by (unfold prec; lia).
  unfold fexp, SpecFloat.emin, prec, emax in *.
  apply andb_true_intro. split; [apply Z.eqb_eq | apply Z.leb_le]; lia.
Qed.

(** Rounding [p * 2^j] at exponent [-j] gives the integer [p]. *)
Lemma binary_round_integer s p j :
  Zpos p < 2 ^ 53 ->
  binary_round prec emax s (Pos.shiftl_nat p j) (- Z.of_nat j)
  = S754_finite s (canon_mantissa p) (canon_exponent p).
Proof.
  intro Hp. pose proof (digits2_pos_bound p 53 Hp ltac:(lia)) as Hd.
  pose proof (canon_bounded p Hp) as Hb.
  unfold binary_round. rewrite digits2_shiftl_nat.
  replace (fexp prec emax (Zpos (digits2_pos p) + Z.of_nat j + - Z.of_nat j))
    with (canon_exponent p)
    by (unfold canon_exponent, fexp, SpecFloat.emin, prec, emax in *; lia).
  unfold shl_align.
  destruct (canon_exponent p - - Z.of_nat j) as [ | d | d] eqn:Hsub.
  - replace (- Z.of_nat j) with (canon_exponent p - Z.of_nat 0) by (simpl; lia).
    replace (Pos.shiftl_nat p j) with (Pos.shiftl_nat (canon_mantissa p) 0).
    + now apply binary_round_aux_exact.
    + change (Pos.shiftl_nat (canon_mantissa p) 0) with (canon_mantissa p).
      unfold canon_mantissa. f_equal.
      unfold canon_exponent, prec in *. lia.
  - replace (- Z.of_nat j)
      with (canon_exponent p - Z.of_nat (Pos.to_nat d))
      by (rewrite positive_nat_Z; lia).
    replace (Pos.shiftl_nat p j)
      with (Pos.shiftl_nat (canon_mantissa p) (Pos.to_nat d)).
    + now apply binary_round_aux_exact.
    + unfold canon_mantissa. rewrite shiftl_nat_add. f_equal.
      unfold canon_exponent, prec in *. lia.
  - rewrite iter_xO_shiftl_nat, shiftl_nat_add.
    replace (j + Pos.to_nat d)%nat
      with (Z.to_nat (prec - Zpos (digits2_pos p)))
      by (unfold canon_exponent, prec in *; lia).
    fold (canon_mantissa p).
    replace (canon_exponent p) with (canon_exponent p - Z.of_nat 0) at 1
      by (simpl; lia).
    change (canon_mantissa p) with (Pos.shiftl_nat (canon_mantissa p) 0) at 1.
    now apply binary_round_aux_exact.
Qed.

(** Normalizing [z * 2^j] at exponent [-j] gives the integer [z]. *)
Lemma binary_normalize_integer z j sz :
  safe_integer z ->
  binary_normalize prec emax (z * 2 ^ Z.of_nat j) (- Z.of_nat j) sz
  = SF_signed_zero_or sz z.
Proof.
  unfold safe_integer. intro Hz.
  destruct z as [ | p | p]; cbn [SF_signed_zero_or SF_of_Z].
  - reflexivity.
  - rewrite <- shiftl_nat_Z. cbn [binary_normalize].
    apply binary_round_integer. lia.
  - change (Zneg p) with (- Zpos p). rewrite Z.mul_opp_l, <- shiftl_nat_Z.
    cbn [Z.opp binary_normalize]. apply binary_round_integer.
    cbn [Z.abs] in Hz. lia.
Qed.

Lemma SF_of_Z_valid z : safe_integer z -> valid_binary (SF_of_Z z) = true.
Proof.
  unfold safe_integer. intro Hz.
  destruct z as [ | p | p]; cbn; [reflexivity | |];
    apply canon_bounded; lia.
Qed.

Lemma Prim2SF_of_Z z : safe_integer z -> Prim2SF (of_Z z) = SF_of_Z z.
Proof.
  intro Hz. unfold of_Z.
  pose proof (binary_normalize_integer z 0 false Hz) as H.
  simpl Z.of_nat in H. rewrite Z.mul_1_r in H. simpl Z.opp in H.
  rewrite H. replace (SF_signed_zero_or false z) with (SF_of_Z z)
    by now destruct z.
  apply Prim2SF_SF2Prim, SF_of_Z_valid, Hz.
Qed.

End SafeIntegers.

(** ** Binary64: sums, differences and remainders of safe integers *)

Section SafeIntegerArithmetic.

Local Open Scope Z_scope.

Lemma SF_of_Z_signed s p :
  SF_of_Z (cond_Zopp s (Zpos p))
  = S754_finite s (canon_mantissa p) (canon_exponent p).
Proof. now destruct s. Qed.

Lemma canon_exponent_nonpos p : Zpos p < 2 ^ 53 -> canon_exponent p <= 0.
Proof.
  intro Hp. pose proof (digits2_pos_bound p 53 Hp ltac:(lia)).
  unfold canon_exponent, prec. lia.
Qed.

(** The mantissa of a safe integer aligned to a lower exponent. *)
Lemma shl_align_canon p ez :
  canon_exponent p <= 0 -> ez <= canon_exponent p ->
  fst (shl_align (canon_mantissa p) (canon_exponent p) ez)
  = Pos.shiftl_nat p (Z.to_nat (- ez)).
Proof.
  intros Hce Hez. unfold shl_align.
  pose proof (Pos2Z.is_pos (digits2_pos p)) as Hd.
  destruct (ez - canon_exponent p) as [ | q | q] eqn:Hsub; try lia; cbn [fst].
  - unfold canon_mantissa. f_equal. unfold canon_exponent in *. lia.
  - rewrite iter_xO_shiftl_nat. unfold canon_mantissa.
    rewrite shiftl_nat_add. f_equal. unfold canon_exponent, prec in *. lia.
Qed.

Lemma cond_Zopp_shiftl s p j :
  cond_Zopp s (Zpos (Pos.shiftl_nat p j))
  = cond_Zopp s (Zpos p) * 2 ^ Z.of_nat j.
Proof.
  rewrite shiftl_nat_Z. destruct s; cbn [cond_Zopp]; ring.
Qed.

Lemma SFadd_canon sa pa sb pb :
  Zpos pa < 2 ^ 53 -> Zpos pb < 2 ^ 53 ->
  safe_integer (cond_Zopp sa (Zpos pa) + cond_Zopp sb (Zpos pb)) ->
  SF64add (S754_finite sa (canon_mantissa pa) (canon_exponent pa))
          (S754_finite sb (canon_mantissa pb) (canon_exponent pb))
  = SF_of_Z (cond_Zopp sa (Zpos pa) + cond_Zopp sb (Zpos pb)).
Proof.
  intros Ha Hb Hsum. unfold SF64add, SFadd.
  set (ez := Z.min (canon_exponent pa) (canon_exponent pb)).
  pose proof (canon_exponent_nonpos pa Ha) as Hea.
  pose proof (canon_exponent_nonpos pb Hb) as Heb.
  rewrite !shl_align_canon by (unfold ez; lia).
  set (J := Z.to_nat (- ez)).
  rewrite !cond_Zopp_shiftl, <- Z.mul_add_distr_r.
  replace ez with (- Z.of_nat J) by (unfold J, ez; lia).
  rewrite binary_normalize_integer by exact Hsum.
  now destruct (cond_Zopp sa (Zpos pa) + cond_Zopp sb (Zpos pb)).
Qed.

Lemma SFsub_canon sa pa sb pb :
  Zpos pa < 2 ^ 53 -> Zpos pb < 2 ^ 53 ->
  safe_integer (cond_Zopp sa (Zpos pa) - cond_Zopp sb (Zpos pb)) ->
  SF64sub (S754_finite sa (canon_mantissa pa) (canon_exponent pa))
          (S754_finite sb (canon_mantissa pb) (canon_exponent pb))
  = SF_of_Z (cond_Zopp sa (Zpos pa) - cond_Zopp sb (Zpos pb)).
Proof.
  intros Ha Hb Hsum. unfold SF64sub, SFsub.
  set (ez := Z.min (canon_exponent pa) (canon_exponent pb)).
  pose proof (canon_exponent_nonpos pa Ha) as Hea.
  pose proof (canon_exponent_nonpos pb Hb) as Heb.
  rewrite !shl_align_canon by (unfold ez; lia).
  set (J := Z.to_nat (- ez)).
  rewrite !cond_Zopp_shiftl, <- Z.mul_sub_distr_r.
  replace ez with (- Z.of_nat J) by (unfold J, ez; lia).
  rewrite binary_normalize_integer by exact Hsum.
  now destruct (cond_Zopp sa (Zpos pa) - cond_Zopp sb (Zpos pb)).
Qed.

Lemma safe_integer_signed s p :
  safe_integer (cond_Zopp s (Zpos p)) <-> Zpos p < 2 ^ 53.
Proof. unfold safe_integer. destruct s; cbn [cond_Zopp]; lia. Qed.

Lemma Z_signed z : z <> 0 -> exists s p, z = cond_Zopp s (Zpos p).
Proof.
  destruct z as [ | p | p]; intro H; [contradiction | |].
  - now exists false, p.
  - now exists true, p.
Qed.

Lemma SFadd_of_Z a b :
  safe_integer a -> safe_integer b -> safe_integer (a + b) ->
  SF64add (SF_of_Z a) (SF_of_Z b) = SF_of_Z (a + b).
Proof.
  intros Ha Hb Hab.
  destruct (Z.eq_dec a 0) as [-> | Na].
  { destruct b; reflexivity. }
  destruct (Z.eq_dec b 0) as [-> | Nb].
  { rewrite Z.add_0_r. destruct a; reflexivity. }
  destruct (Z_signed a Na) as (sa & pa & ->).
  destruct (Z_signed b Nb) as (sb & pb & ->).
  rewrite !SF_of_Z_signed.
  apply SFadd_canon; try assumption; now apply safe_integer_signed in Ha, Hb.
Qed.

Lemma SFsub_of_Z a b :
  safe_integer a -> safe_integer b -> safe_integer (a - b) ->
  SF64sub (SF_of_Z a) (SF_of_Z b) = SF_of_Z (a - b).
Proof.
  intros Ha Hb Hab.
  destruct (Z.eq_dec a 0) as [-> | Na].
  { destruct b; reflexivity. }
  destruct (Z.eq_dec b 0) as [-> | Nb].
  { rewrite Z.sub_0_r. destruct a; reflexivity. }
  destruct (Z_signed a Na) as (sa & pa & ->).
  destruct (Z_signed b Nb) as (sb & pb & ->).
  rewrite !SF_of_Z_signed.
  apply SFsub_canon; try assumption; now apply safe_integer_signed in Ha, Hb.
Qed.

Lemma add_of_Z a b :
  safe_integer a -> safe_integer b -> safe_integer (a + b) ->
  (of_Z a + of_Z b)%float = of_Z (a + b).
Proof.
  intros Ha Hb Hab. apply Prim2SF_inj.
  rewrite add_spec, !Prim2SF_of_Z by assumption. now apply SFadd_of_Z.
Qed.

Lemma sub_of_Z a b :
  safe_integer a -> safe_integer b -> safe_integer (a - b) ->
  (of_Z a - of_Z b)%float = of_Z (a - b).
Proof.
  intros Ha Hb Hab. apply Prim2SF_inj.
  rewrite sub_spec, !Prim2SF_of_Z by assumption. now apply SFsub_of_Z.
Qed.

End SafeIntegerArithmetic.

Section SafeIntegerRemainder.

Local Open Scope Z_scope.

Lemma cond_Zopp_mul s z w : cond_Zopp s (z * w) = cond_Zopp s z * w.
Proof. destruct s; cbn [cond_Zopp]; ring. Qed.

Lemma rem_signed sn pn sd pd :
  Z.rem (cond_Zopp sn (Zpos pn)) (cond_Zopp sd (Zpos pd))
  = cond_Zopp sn (Z.rem (Zpos pn) (Zpos pd)).
Proof.
  destruct sn, sd; cbn [cond_Zopp];
    rewrite ?Z.rem_opp_l', ?Z.rem_opp_r'; reflexivity.
Qed.

Lemma SF_signed_zero_or_valid sz z :
  safe_integer z -> valid_binary (SF_signed_zero_or sz z) = true.
Proof.
  intro Hz. destruct z; [reflexivity | |]; now apply (SF_of_Z_valid _ Hz).
Qed.

Lemma SFrem_canon sn pn sd pd :
  Zpos pn < 2 ^ 53 -> Zpos pd < 2 ^ 53 ->
  JS.SFrem (S754_finite sn (canon_mantissa pn) (canon_exponent pn))
           (S754_finite sd (canon_mantissa pd) (canon_exponent pd))
  = SF_signed_zero_or sn
      (Z.rem (cond_Zopp sn (Zpos pn)) (cond_Zopp sd (Zpos pd))).
Proof.
  intros Hn Hd. unfold JS.SFrem.
  set (ez := Z.min (canon_exponent pn) (canon_exponent pd)).
  pose proof (canon_exponent_nonpos pn Hn) as Hen.
  pose proof (canon_exponent_nonpos pd Hd) as Hed.
  rewrite !shl_align_canon by (unfold ez; lia).
  set (J := Z.to_nat (- ez)).
  rewrite !shiftl_nat_Z.
  rewrite Z.mul_rem_distr_r by (try apply Z.pow_nonzero; lia).
  rewrite cond_Zopp_mul.
  replace ez with (- Z.of_nat J) by (unfold J, ez; lia).
  rewrite rem_signed.
  apply binary_normalize_integer.
  pose proof (Z.rem_bound_pos (Zpos pn) (Zpos pd) ltac:(lia) ltac:(lia)).
  unfold safe_integer. destruct sn; cbn [cond_Zopp]; lia.
Qed.

Lemma safe_integer_rem n d : safe_integer n -> safe_integer (Z.rem n d).
Proof.
  unfold safe_integer. intro Hn.
  destruct (Z.eq_dec d 0) as [-> | Nd].
  - now rewrite Z.rem_0_r_ext.
  - rewrite <- Z.rem_abs by exact Nd.
    pose proof (Z.rem_le (Z.abs n) (Z.abs d) ltac:(lia) ltac:(lia)). lia.
Qed.

(** The [%] of two safe integers is their truncated remainder, with the
    sign of the dividend when it is zero. *)
Lemma SFrem_of_Z n d :
  safe_integer n -> safe_integer d -> d <> 0 ->
  JS.SFrem (SF_of_Z n) (SF_of_Z d)
  = SF_signed_zero_or (n <? 0) (Z.rem n d).
Proof.
  intros Hn Hd Nd.
  destruct (Z.eq_dec n 0) as [-> | Nn].
  { destruct d; [contradiction | reflexivity | reflexivity]. }
  destruct (Z_signed n Nn) as (sn & pn & ->).
  destruct (Z_signed d Nd) as (sd & pd & ->).
  rewrite !SF_of_Z_signed.
  rewrite SFrem_canon by now apply safe_integer_signed in Hn, Hd.
  now destruct sn.
Qed.

Lemma Prim2SF_rem_of_Z n d :
  safe_integer n -> safe_integer d -> d <> 0 ->
  Prim2SF (JS.rem (of_Z n) (of_Z d))
  = SF_signed_zero_or (n <? 0) (Z.rem n d).
Proof.
  intros Hn Hd Nd. unfold JS.rem.
  rewrite !Prim2SF_of_Z, SFrem_of_Z by assumption.
  apply Prim2SF_SF2Prim, SF_signed_zero_or_valid, safe_integer_rem, Hn.
Qed.

Lemma rem_of_Z_nonneg n d :
  safe_integer n -> safe_integer d -> d <> 0 -> 0 <= n ->
  JS.rem (of_Z n) (of_Z d) = of_Z (Z.rem n d).
Proof.
  intros Hn Hd Nd Hpos. apply Prim2SF_inj.
  rewrite Prim2SF_rem_of_Z by assumption.
  rewrite Prim2SF_of_Z by now apply safe_integer_rem.
  replace (n <? 0) with false by (symmetry; apply Z.ltb_ge; lia).
  now destruct (Z.rem n d).
Qed.

End SafeIntegerRemainder.

(** ** Binary64: products and exact quotients of safe integers *)

Section SafeIntegerProducts.

Local Open Scope Z_scope.

Ltac prec_lia :=
  unfold canon_exponent, fexp, SpecFloat.emin, prec, emax in *; lia.

Lemma canon_shift p :
  Zpos p < 2 ^ 53 ->
  Zpos (digits2_pos p) + Z.of_nat (Z.to_nat (prec - Zpos (digits2_pos p))) = 53.
Proof.
  intro Hp. pose proof (digits2_pos_bound p 53 Hp ltac:(lia)).
  unfold prec. lia.
Qed.

Lemma canon_mantissa_Z p :
  Zpos (canon_mantissa p)
  = Zpos p * 2 ^ Z.of_nat (Z.to_nat (prec - Zpos (digits2_pos p))).
Proof. apply shiftl_nat_Z. Qed.

Lemma canon_mantissa_digits p :
  Zpos p < 2 ^ 53 -> Zpos (digits2_pos (canon_mantissa p)) = 53.
Proof.
  intro Hp. unfold canon_mantissa. rewrite digits2_shiftl_nat.
  now apply canon_shift.
Qed.

Lemma digits2_pos_mul_below pa pb :
  Zpos (digits2_pos pa) + Zpos (digits2_pos pb)
  <= Zpos (digits2_pos (pa * pb)) + 1.
Proof.
  rewrite !digits2_pos_log2, Pos2Z.inj_mul.
  pose proof (Z.log2_mul_below (Zpos pa) (Zpos pb) ltac:(lia) ltac:(lia)).
  lia.
Qed.

Lemma digits2_pos_mul_above pa pb :
  Zpos (digits2_pos (pa * pb))
  <= Zpos (digits2_pos pa) + Zpos (digits2_pos pb).
Proof.
  rewrite !digits2_pos_log2, Pos2Z.inj_mul.
  pose proof (Z.log2_mul_above (Zpos pa) (Zpos pb) ltac:(lia) ltac:(lia)).
  lia.
Qed.

Lemma factor_bound_l pa pb : Zpos (pa * pb) < 2 ^ 53 -> Zpos pa < 2 ^ 53.
Proof. rewrite Pos2Z.inj_mul. nia. Qed.

Lemma factor_bound_r pa pb : Zpos (pa * pb) < 2 ^ 53 -> Zpos pb < 2 ^ 53.
Proof. rewrite Pos2Z.inj_mul. nia. Qed.

(** Rounding [p * 2^j] at exponent [-j], directly (without the
    normalization): exact as soon as [j] is large enough. *)
Lemma binary_round_aux_integer s p (j : nat) :
  Zpos p < 2 ^ 53 ->
  - Z.of_nat j <= canon_exponent p ->
  binary_round_aux prec emax s (Zpos (Pos.shiftl_nat p j)) (- Z.of_nat j)
    loc_Exact
  = S754_finite s (canon_mantissa p) (canon_exponent p).
Proof.
  intros Hp Hj. pose proof (canon_shift p Hp) as Hs. unfold prec in Hs.
  set (k := Z.to_nat (Z.of_nat j + canon_exponent p)).
  replace (Pos.shiftl_nat p j) with (Pos.shiftl_nat (canon_mantissa p) k).
  - replace (- Z.of_nat j) with (canon_exponent p - Z.of_nat k)
      by (unfold k; lia).
    apply binary_round_aux_exact, canon_bounded, Hp.
  - unfold canon_mantissa. rewrite shiftl_nat_add. f_equal.
    unfold k, canon_exponent, prec in *. lia.
Qed.

Lemma SFmul_canon sa pa sb pb :
  Zpos (pa * pb) < 2 ^ 53 ->
  SF64mul (S754_finite sa (canon_mantissa pa) (canon_exponent pa))
          (S754_finite sb (canon_mantissa pb) (canon_exponent pb))
  = S754_finite (xorb sa sb) (canon_mantissa (pa * pb))
      (canon_exponent (pa * pb)).
Proof.
  intro Hab.
  pose proof (factor_bound_l _ _ Hab) as Ha.
  pose proof (factor_bound_r _ _ Hab) as Hb.
  pose proof (canon_shift pa Ha) as Hsa.
  pose proof (canon_shift pb Hb) as Hsb.
  pose proof (digits2_pos_mul_below pa pb) as Hd.
  unfold SF64mul, SFmul.
  set (ka := Z.to_nat (prec - Zpos (digits2_pos pa))) in *.
  set (kb := Z.to_nat (prec - Zpos (digits2_pos pb))) in *.
  replace (canon_mantissa pa * canon_mantissa pb)%positive
    with (Pos.shiftl_nat (pa * pb) (ka + kb)).
  - replace (canon_exponent pa + canon_exponent pb)
      with (- Z.of_nat (ka + kb)) by prec_lia.
    apply binary_round_aux_integer; [exact Hab |]. prec_lia.
  - apply Pos2Z.inj.
    rewrite shiftl_nat_Z, !Pos2Z.inj_mul, !canon_mantissa_Z.
    fold ka kb. rewrite Nat2Z.inj_add, Z.pow_add_r by lia. ring.
Qed.

Lemma div_eucl_exact q m : 0 < m -> Z.div_eucl (q * m) m = (q, 0).
Proof.
  intro Hm.
  pose proof (Z.div_mul q m ltac:(lia)) as Hq.
  pose proof (Z.mod_mul q m ltac:(lia)) as Hr.
  unfold Z.div, Z.modulo in Hq, Hr.
  destruct (Z.div_eucl (q * m) m) as [q' r']. now subst.
Qed.

Lemma new_location_0 nb : new_location nb 0 = loc_Exact.
Proof.
  unfold new_location, new_location_even, new_location_odd.
  now destruct (Z.even nb).
Qed.

Lemma SFdiv_canon sa sb pq pb :
  Zpos (pq * pb) < 2 ^ 53 ->
  SF64div
    (S754_finite sa (canon_mantissa (pq * pb)) (canon_exponent (pq * pb)))
    (S754_finite sb (canon_mantissa pb) (canon_exponent pb))
  = S754_finite (xorb sa sb) (canon_mantissa pq) (canon_exponent pq).
Proof.
  intro Hab.
  pose proof (factor_bound_l _ _ Hab) as Hq.
  pose proof (factor_bound_r _ _ Hab) as Hb.
  pose proof (canon_shift (pq * pb) Hab) as Hsa.
  pose proof (canon_shift pb Hb) as Hsb.
  pose proof (canon_shift pq Hq) as Hsq.
  pose proof (digits2_pos_mul_above pq pb) as Hd.
  pose proof (Pos2Z.is_pos (digits2_pos pq)) as Hdq.
  pose proof (Pos2Z.is_pos (digits2_pos pb)) as Hdb.
  pose proof (Pos2Z.is_pos (digits2_pos (pq * pb))) as Hda.
  unfold SF64div, SFdiv, SFdiv_core_binary.
  cbn [Zdigits2]. rewrite !canon_mantissa_digits by assumption.
  set (ka := Z.to_nat (prec - Zpos (digits2_pos (pq * pb)))) in *.
  set (kb := Z.to_nat (prec - Zpos (digits2_pos pb))) in *.
  set (kq := Z.to_nat (prec - Zpos (digits2_pos pq))) in *.
  assert (Ea : canon_exponent (pq * pb) = - Z.of_nat ka) by prec_lia.
  assert (Eb : canon_exponent pb = - Z.of_nat kb) by prec_lia.
  rewrite Ea, Eb.
  replace (Z.min (fexp prec emax (53 + - Z.of_nat ka - (53 + - Z.of_nat kb)))
                 (- Z.of_nat ka - - Z.of_nat kb))
    with (- Z.of_nat ka + Z.of_nat kb - 53)
    by prec_lia.
  replace (- Z.of_nat ka - - Z.of_nat kb - (- Z.of_nat ka + Z.of_nat kb - 53))
    with 53 by lia.
  cbv iota.
  set (j := (53 + ka - kb)%nat).
  replace (Z.shiftl (Zpos (canon_mantissa (pq * pb))) 53)
    with (Zpos (Pos.shiftl_nat pq j) * Zpos (canon_mantissa pb)).
  - rewrite div_eucl_exact by lia. rewrite new_location_0.
    replace (- Z.of_nat ka + Z.of_nat kb - 53) with (- Z.of_nat j)
      by (unfold j; prec_lia).
    apply binary_round_aux_integer; [exact Hq |].
    unfold j. prec_lia.
  - rewrite Z.shiftl_mul_pow2 by lia.
    rewrite shiftl_nat_Z, !canon_mantissa_Z, Pos2Z.inj_mul.
    fold ka kb. unfold j.
    replace (Z.of_nat (53 + ka - kb)) with (53 + Z.of_nat ka - Z.of_nat kb)
      by prec_lia.
    assert (Hpow : 2 ^ (53 + Z.of_nat ka - Z.of_nat kb) * 2 ^ Z.of_nat kb
                   = 2 ^ Z.of_nat ka * 2 ^ 53).
    { rewrite <- !Z.pow_add_r by prec_lia. f_equal. lia. }
    rewrite <- (Z.mul_assoc _ (2 ^ Z.of_nat ka)), <- Hpow. ring.
Qed.

End SafeIntegerProducts.

Section SafeIntegerFloats.

Local Open Scope Z_scope.

Lemma safe_integer_factor_l a b :
  b <> 0 -> safe_integer (a * b) -> safe_integer a.
Proof. unfold safe_integer. rewrite Z.abs_mul. nia. Qed.

Lemma safe_integer_factor_r a b :
  a <> 0 -> safe_integer (a * b) -> safe_integer b.
Proof. unfold safe_integer. rewrite Z.abs_mul. nia. Qed.

Lemma mul_signed sa pa sb pb :
  cond_Zopp sa (Zpos pa) * cond_Zopp sb (Zpos pb)
  = cond_Zopp (xorb sa sb) (Zpos (pa * pb)).
Proof. destruct sa, sb; cbn [cond_Zopp xorb]; lia. Qed.

Lemma mul_of_Z a b :
  a <> 0 -> b <> 0 -> safe_integer (a * b) ->
  (of_Z a * of_Z b)%float = of_Z (a * b).
Proof.
  intros Na Nb Hab.
  pose proof (safe_integer_factor_l a b Nb Hab) as Ha.
  pose proof (safe_integer_factor_r a b Na Hab) as Hb.
  apply Prim2SF_inj. rewrite mul_spec, !Prim2SF_of_Z by assumption.
  destruct (Z_signed a Na) as (sa & pa & ->).
  destruct (Z_signed b Nb) as (sb & pb & ->).
  rewrite mul_signed in *. rewrite !SF_of_Z_signed.
  apply SFmul_canon. now apply safe_integer_signed in Hab.
Qed.

(** A quotient that is an integer is computed exactly. *)
Lemma div_of_Z q b :
  q <> 0 -> b <> 0 -> safe_integer (q * b) ->
  (of_Z (q * b) / of_Z b)%float = of_Z q.
Proof.
  intros Nq Nb Hab.
  pose proof (safe_integer_factor_l q b Nb Hab) as Hq.
  pose proof (safe_integer_factor_r q b Nq Hab) as Hb.
  apply Prim2SF_inj. rewrite div_spec, !Prim2SF_of_Z by assumption.
  destruct (Z_signed q Nq) as (sq & pq & ->).
  destruct (Z_signed b Nb) as (sb & pb & ->).
  rewrite mul_signed in *. rewrite !SF_of_Z_signed.
  rewrite SFdiv_canon by now apply safe_integer_signed in Hab.
  now destruct sq, sb.
Qed.

Lemma is_finite_of_Z z : safe_integer z -> is_finite (of_Z z) = true.
Proof.
  intro Hz. rewrite is_finite_spec, Prim2SF_of_Z by exact Hz. now destruct z.
Qed.

Lemma ltb_0_of_Z z : safe_integer z -> (0 <? of_Z z)%float = (0 <? z).
Proof.
  intro Hz. rewrite ltb_spec, Prim2SF_0, Prim2SF_of_Z by exact Hz.
  now destruct z.
Qed.

End SafeIntegerFloats.

(** ** Binary64: integer computations, followed exactly *)

Section Represents.

Local Open Scope Z_scope.

Lemma mul_of_Z_same a b :
  safe_integer a -> safe_integer b -> safe_integer (a * b) ->
  same_number (of_Z a * of_Z b)%float (of_Z (a * b)).
Proof.
  intros Ha Hb Hab.
  destruct (Z.eq_dec a 0) as [-> | Na].
  { right. split; [| reflexivity].
    apply mul_zero_l; [now apply is_finite_of_Z | reflexivity]. }
  destruct (Z.eq_dec b 0) as [-> | Nb].
  { rewrite Z.mul_0_r. right. split; [| reflexivity].
    apply mul_zero_r; [now apply is_finite_of_Z | reflexivity]. }
  left. now apply mul_of_Z.
Qed.

Lemma represents_safe u z K : represents u z K -> safe_integer z.
Proof. intros [_ H]. unfold safe_integer. lia. Qed.

Lemma represents_of_Z z K :
  Z.abs z <= K < 2 ^ 53 -> represents (of_Z z) z K.
Proof. intro H. split; [apply same_number_refl | exact H]. Qed.

Lemma represents_nonzero u z K :
  represents u z K -> z <> 0 -> u = of_Z z.
Proof.
  intros [[H | [_ H]] HK] Nz; [exact H | exfalso].
  rewrite is_zero_spec, Prim2SF_of_Z in H by (unfold safe_integer; lia).
  now destruct z.
Qed.

Lemma represents_mul u a Ka v b Kb :
  represents u a Ka -> represents v b Kb -> Ka * Kb < 2 ^ 53 ->
  represents (u * v)%float (a * b) (Ka * Kb).
Proof.
  intros Ra Rb HK.
  pose proof (represents_safe _ _ _ Ra) as Sa.
  pose proof (represents_safe _ _ _ Rb) as Sb.
  destruct Ra as [Hu Ba], Rb as [Hv Bb].
  assert (Bab : Z.abs (a * b) <= Ka * Kb)
    by (rewrite Z.abs_mul; apply Z.mul_le_mono_nonneg; lia).
  split; [| lia].
  eapply same_number_trans; [apply mul_same; eassumption |].
  apply mul_of_Z_same; try assumption. unfold safe_integer. lia.
Qed.

Lemma represents_add u a Ka v b Kb :
  represents u a Ka -> represents v b Kb -> Ka + Kb < 2 ^ 53 ->
  represents (u + v)%float (a + b) (Ka + Kb).
Proof.
  intros Ra Rb HK.
  pose proof (represents_safe _ _ _ Ra) as Sa.
  pose proof (represents_safe _ _ _ Rb) as Sb.
  destruct Ra as [Hu Ba], Rb as [Hv Bb].
  split; [| lia].
  eapply same_number_trans; [apply add_same; eassumption |].
  left. apply add_of_Z; try assumption. unfold safe_integer. lia.
Qed.

Lemma represents_sub u a Ka v b Kb :
  represents u a Ka -> represents v b Kb -> Ka + Kb < 2 ^ 53 ->
  represents (u - v)%float (a - b) (Ka + Kb).
Proof.
  intros Ra Rb HK.
  pose proof (represents_safe _ _ _ Ra) as Sa.
  pose proof (represents_safe _ _ _ Rb) as Sb.
  destruct Ra as [Hu Ba], Rb as [Hv Bb].
  split; [| lia].
  eapply same_number_trans; [apply sub_same; eassumption |].
  left. apply sub_of_Z; try assumption. unfold safe_integer. lia.
Qed.

(** Dividing by [1] or [-1]. *)
Lemma represents_div_unit u a Ka v delta :
  represents u a Ka -> v = of_Z delta -> delta = 1 \/ delta = -1 ->
  represents (u / v)%float (a * delta) Ka.
Proof.
  intros Ra -> Hd.
  pose proof (represents_safe _ _ _ Ra) as Sa.
  destruct Ra as [Hu Ba].
  split; [| destruct Hd; subst; lia].
  eapply same_number_trans; [apply div_same_l; eassumption |].
  destruct (Z.eq_dec a 0) as [-> | Na].
  - right. split; [| reflexivity].
    rewrite is_zero_spec, div_spec, !Prim2SF_of_Z
      by (unfold safe_integer; destruct Hd; subst; simpl; lia).
    destruct Hd; subst; reflexivity.
  - left. replace a with (a * delta * delta) at 1 by (destruct Hd; subst; ring).
    apply div_of_Z; destruct Hd; subst; unfold safe_integer in *; lia.
Qed.

End Represents.

(** ** Binary64: finite numbers as integer multiples of [2^emin] *)

Section Values.

Local Open Scope Z_scope.

Ltac fexp_lia :=
  unfold fexp, SpecFloat.emin, prec, emax in *; lia.

Lemma digits2_pos_spec p :
  2 ^ (Zpos (digits2_pos p) - 1) <= Zpos p < 2 ^ Zpos (digits2_pos p).
Proof.
  rewrite digits2_pos_log2.
  pose proof (Z.log2_spec (Zpos p) ltac:(lia)) as H.
  replace (Z.log2 (Zpos p) + 1 - 1) with (Z.log2 (Zpos p)) by lia.
  replace (Z.log2 (Zpos p) + 1) with (Z.succ (Z.log2 (Zpos p))) by lia.
  exact H.
Qed.

Lemma bounded_facts m e :
  bounded prec emax m e = true ->
  emin <= e <= emax - prec
  /\ Zpos (digits2_pos m) <= prec
  /\ (emin < e -> Zpos (digits2_pos m) = prec).
Proof.
  intro H. destruct (bounded_canonical m e H) as [Hc He].
  pose proof (Pos2Z.is_pos (digits2_pos m)).
  repeat split; fexp_lia.
Qed.

Lemma shl_align_value m e ez :
  emin <= ez <= e ->
  Zpos (fst (shl_align m e ez)) * 2 ^ (ez - emin) = Zpos m * 2 ^ (e - emin).
Proof.
  intro H. unfold shl_align.
  destruct (ez - e) as [ | d | d] eqn:Hd; try lia; cbn [fst].
  - replace ez with e by lia. reflexivity.
  - rewrite iter_xO_shiftl_nat, shiftl_nat_Z, positive_nat_Z.
    rewrite <- Z.mul_assoc, <- Z.pow_add_r by lia. do 2 f_equal. lia.
Qed.

Lemma shl_align_same m e : fst (shl_align m e e) = m.
Proof. unfold shl_align. now rewrite Z.sub_diag. Qed.

(** Rounding a mantissa of at most 53 bits, at an exponent in range, only
    renormalizes it. *)
Lemma binary_round_small s M E :
  Zpos (digits2_pos M) <= prec -> emin <= E <= emax - prec ->
  exists m e,
    binary_round prec emax s M E = S754_finite s m e
    /\ bounded prec emax m e = true
    /\ Zpos m * 2 ^ (e - emin) = Zpos M * 2 ^ (E - emin).
Proof.
  intros Hd HE. unfold binary_round.
  set (e := fexp prec emax (Zpos (digits2_pos M) + E)).
  assert (He : emin <= e <= E) by (unfold e; fexp_lia).
  pose proof (shl_align_value M E e He) as Hv.
  unfold shl_align in *.
  destruct (e - E) as [ | d | d] eqn:Hsub; try lia; cbn [fst] in Hv.
  - assert (e = E) by lia.
    assert (Hb : bounded prec emax M E = true).
    { unfold bounded, canonical_mantissa. fold e.
      apply andb_true_intro. split; [apply Z.eqb_eq | apply Z.leb_le]; lia. }
    exists M, E. repeat split; auto.
    pose proof (binary_round_aux_exact s M E 0 Hb) as Hr.
    simpl Z.of_nat in Hr. rewrite Z.sub_0_r in Hr. exact Hr.
  - set (m := Pos.iter xO M d) in *.
    assert (Hm : Zpos (digits2_pos m) = Zpos (digits2_pos M) + Zpos d).
    { unfold m. rewrite iter_xO_shiftl_nat, digits2_shiftl_nat, positive_nat_Z.
      reflexivity. }
    assert (Hb : bounded prec emax m e = true).
    { unfold bounded, canonical_mantissa. rewrite Hm.
      replace (Zpos (digits2_pos M) + Zpos d + e)
        with (Zpos (digits2_pos M) + E) by lia.
      fold e. apply andb_true_intro.
      split; [apply Z.eqb_eq | apply Z.leb_le]; lia. }
    exists m, e. repeat split; auto.
    pose proof (binary_round_aux_exact s m e 0 Hb) as Hr.
    simpl Z.of_nat in Hr. rewrite Z.sub_0_r in Hr. exact Hr.
Qed.

Lemma binary_round_cases s M E :
  let r := binary_round prec emax s M E in
  r = S754_nan \/ r = S754_zero s \/ r = S754_infinity s
  \/ exists m' e', r = S754_finite s m' e'.
Proof.
  cbv zeta. unfold binary_round.
  destruct (shl_align M E _) as [mz ez].
  apply binary_round_aux_cases.
Qed.

(** Among canonical mantissas, a smaller exponent is a smaller value. *)
Lemma canonical_exponent_lt m1 e1 m2 e2 :
  bounded prec emax m1 e1 = true -> bounded prec emax m2 e2 = true ->
  e1 < e2 ->
  Zpos m1 * 2 ^ (e1 - emin) < Zpos m2 * 2 ^ (e2 - emin).
Proof.
  intros H1 H2 Hlt.
  destruct (bounded_facts m1 e1 H1) as (He1 & Hd1 & _).
  destruct (bounded_facts m2 e2 H2) as (He2 & _ & Hd2).
  specialize (Hd2 ltac:(lia)).
  pose proof (digits2_pos_spec m1) as [_ Hm1].
  pose proof (digits2_pos_spec m2) as [Hm2 _].
  rewrite Hd2 in Hm2.
  assert (Hp1 : 2 ^ Zpos (digits2_pos m1) <= 2 ^ prec)
    by (apply Z.pow_le_mono_r; lia).
  assert (Hp : 0 < 2 ^ (e1 - emin)) by (apply Z.pow_pos_nonneg; lia).
  apply Z.lt_le_trans with (2 ^ prec * 2 ^ (e1 - emin)).
  - apply Z.mul_lt_mono_pos_r; lia.
  - apply Z.le_trans with (2 ^ (prec - 1) * 2 ^ (e2 - emin)).
    + rewrite <- !Z.pow_add_r by fexp_lia.
      apply Z.pow_le_mono_r; fexp_lia.
    + apply Z.mul_le_mono_nonneg_r; [apply Z.pow_nonneg |]; lia.
Qed.

Lemma canonical_compare m1 e1 m2 e2 :
  bounded prec emax m1 e1 = true -> bounded prec emax m2 e2 = true ->
  match e1 ?= e2 with
  | Lt => Lt
  | Gt => Gt
  | Eq => Pos.compare_cont Eq m1 m2
  end
  = (Zpos m1 * 2 ^ (e1 - emin) ?= Zpos m2 * 2 ^ (e2 - emin)).
Proof.
  intros H1 H2. symmetry.
  destruct (Z.compare_spec e1 e2) as [-> | Hlt | Hgt].
  - change (Pos.compare_cont Eq m1 m2) with (Zpos m1 ?= Zpos m2).
    destruct (bounded_facts m2 e2 H2) as (He2 & _).
    assert (Hp : 0 < 2 ^ (e2 - emin)) by (apply Z.pow_pos_nonneg; lia).
    destruct (Z.compare_spec (Zpos m1) (Zpos m2)) as [E | E | E].
    + rewrite E. apply Z.compare_refl.
    + apply Z.compare_lt_iff. now apply Z.mul_lt_mono_pos_r.
    + apply Z.compare_gt_iff. now apply Z.mul_lt_mono_pos_r.
  - apply Z.compare_lt_iff. now apply canonical_exponent_lt.
  - apply Z.compare_gt_iff. now apply canonical_exponent_lt.
Qed.

Lemma SF_value_finite_pos m e : 0 < Zpos m * 2 ^ (e - emin) \/ e < emin.
Proof.
  destruct (Z_lt_le_dec e emin) as [H | H]; [now right | left].
  apply Z.mul_pos_pos; [lia | apply Z.pow_pos_nonneg; lia].
Qed.

(** Comparing two finite floats is comparing their values. *)
Lemma SFcompare_value u v :
  SF_finite_valid u -> SF_finite_valid v ->
  SFcompare u v = Some (SF_value u ?= SF_value v).
Proof.
  intros [Fu Vu] [Fv Vv].
  destruct u as [su | su | | su mu eu]; try discriminate;
  destruct v as [sv | sv | | sv mv ev]; try discriminate;
    cbn [SFcompare SF_value valid_binary] in *.
  - reflexivity.
  - destruct (bounded_facts mv ev Vv) as (He & _).
    destruct (SF_value_finite_pos mv ev) as [Hp | Hp]; [| lia].
    f_equal. destruct sv; cbn [cond_Zopp]; symmetry;
      [apply Z.compare_gt_iff | apply Z.compare_lt_iff]; lia.
  - destruct (bounded_facts mu eu Vu) as (He & _).
    destruct (SF_value_finite_pos mu eu) as [Hp | Hp]; [| lia].
    f_equal. destruct su; cbn [cond_Zopp]; symmetry;
      [apply Z.compare_lt_iff | apply Z.compare_gt_iff]; lia.
  - destruct (bounded_facts mu eu Vu) as (Heu & _).
    destruct (bounded_facts mv ev Vv) as (Hev & _).
    destruct (SF_value_finite_pos mu eu) as [Hpu | Hpu]; [| lia].
    destruct (SF_value_finite_pos mv ev) as [Hpv | Hpv]; [| lia].
    f_equal. destruct su, sv; cbn [cond_Zopp].
    + replace (match eu ?= ev with
               | Eq => CompOpp (Pos.compare_cont Eq mu mv)
               | Lt => Gt
               | Gt => Lt
               end)
        with (CompOpp (match eu ?= ev with
                       | Lt => Lt
                       | Gt => Gt
                       | Eq => Pos.compare_cont Eq mu mv
                       end))
        by (destruct (eu ?= ev); reflexivity).
      rewrite (canonical_compare mu eu mv ev Vu Vv).
      now rewrite Z.compare_opp, <- Z.compare_antisym.
    + symmetry. apply Z.compare_lt_iff. lia.
    + symmetry. apply Z.compare_gt_iff. lia.
    + apply canonical_compare; assumption.
Qed.

End Values.

(** ** Binary64: the remainder, and [floorMod] on all finite numbers *)

Section Remainder.

Local Open Scope Z_scope.

Lemma rem_cond_Zopp sn sd A B :
  Z.rem (cond_Zopp sn A) (cond_Zopp sd B) = cond_Zopp sn (Z.rem A B).
Proof.
  destruct sn, sd; cbn [cond_Zopp];
    rewrite ?Z.rem_opp_l', ?Z.rem_opp_r'; reflexivity.
Qed.

(** The [%] of two finite nonzero numbers: a finite number, in canonical
    form, whose value is the truncated remainder of the values; it is a zero
    with the sign of the dividend, or has that sign. *)
Lemma SFrem_finite sn mn en sd md ed :
  bounded prec emax mn en = true -> bounded prec emax md ed = true ->
  let r := JS.SFrem (S754_finite sn mn en) (S754_finite sd md ed) in
  SF_finite_valid r
  /\ SF_value r
     = Z.rem (SF_value (S754_finite sn mn en)) (SF_value (S754_finite sd md ed))
  /\ (r = S754_zero sn \/ exists m e, r = S754_finite sn m e).
Proof.
  intros Hn Hd. cbv zeta. unfold JS.SFrem. cbn [SF_value].
  destruct (bounded_facts mn en Hn) as (Hen & Hdn & _).
  destruct (bounded_facts md ed Hd) as (Hed & Hdd & _).
  set (ez := Z.min en ed).
  assert (Hez : emin <= ez <= en /\ ez <= ed) by (unfold ez; lia).
  pose proof (shl_align_value mn en ez ltac:(lia)) as Hvn.
  pose proof (shl_align_value md ed ez ltac:(lia)) as Hvd.
  set (zn := fst (shl_align mn en ez)) in *.
  set (zd := fst (shl_align md ed ez)) in *.
  assert (Hp : 0 < 2 ^ (ez - emin)) by (apply Z.pow_pos_nonneg; lia).
  rewrite rem_cond_Zopp, <- Hvn, <- Hvd, Z.mul_rem_distr_r by lia.
  pose proof (Z.rem_bound_pos (Zpos zn) (Zpos zd) ltac:(lia) ltac:(lia)) as Hb.
  pose proof (Z.rem_le (Zpos zn) (Zpos zd) ltac:(lia) ltac:(lia)) as Hle.
  destruct (Z.rem (Zpos zn) (Zpos zd)) as [ | pr | pr] eqn:Hr; try lia.
  - cbn [cond_Zopp binary_normalize]. replace (cond_Zopp sn 0) with 0
      by now destruct sn.
    cbn [binary_normalize SF_value]. repeat split; auto.
    now destruct sn.
  - assert (Hdr : Zpos (digits2_pos pr) <= prec).
    { destruct (Z.min_spec en ed) as [[_ E] | [_ E]]; fold ez in E.
      - assert (zn = mn) by (unfold zn; rewrite E; apply shl_align_same).
        subst zn. pose proof (digits2_pos_mono pr mn ltac:(lia)). lia.
      - assert (zd = md) by (unfold zd; rewrite E; apply shl_align_same).
        subst zd. pose proof (digits2_pos_mono pr md ltac:(lia)). lia. }
    destruct (binary_round_small sn pr ez Hdr ltac:(lia))
      as (m & e & Hround & Hbnd & Hval).
    assert (Hnorm : binary_normalize prec emax (cond_Zopp sn (Zpos pr)) ez sn
                    = S754_finite sn m e)
      by (destruct sn; exact Hround).
    rewrite Hnorm. cbn [SF_value]. rewrite Hval.
    repeat split; eauto.
Qed.

(** A sum of two finite numbers whose values add up to more than zero is
    not negative. *)
Lemma SFadd_positive u v :
  SF_finite_valid u -> SF_finite_valid v ->
  0 < SF_value u + SF_value v ->
  let r := SF64add u v in
  r = S754_nan \/ r = S754_zero false \/ r = S754_infinity false
  \/ exists m e, r = S754_finite false m e.
Proof.
  intros [Fu Vu] [Fv Vv] Hpos. cbv zeta.
  destruct u as [su | su | | su mu eu]; try discriminate;
  destruct v as [sv | sv | | sv mv ev]; try discriminate;
    cbn [SF_value valid_binary] in *; try lia.
  - destruct (bounded_facts mv ev Vv) as (He & _).
    destruct sv; cbn [cond_Zopp] in Hpos.
    + assert (0 <= Zpos mv * 2 ^ (ev - emin))
        by (apply Z.mul_nonneg_nonneg; [lia | apply Z.pow_nonneg; lia]). lia.
    + cbn. eauto 6.
  - destruct (bounded_facts mu eu Vu) as (He & _).
    destruct su; cbn [cond_Zopp] in Hpos.
    + assert (0 <= Zpos mu * 2 ^ (eu - emin))
        by (apply Z.mul_nonneg_nonneg; [lia | apply Z.pow_nonneg; lia]). lia.
    + cbn. eauto 6.
  - destruct (bounded_facts mu eu Vu) as (Heu & _).
    destruct (bounded_facts mv ev Vv) as (Hev & _).
    unfold SF64add, SFadd.
    set (ez := Z.min eu ev).
    assert (Hez : emin <= ez <= eu /\ ez <= ev) by (unfold ez; lia).
    pose proof (shl_align_value mu eu ez ltac:(lia)) as Hvu.
    pose proof (shl_align_value mv ev ez ltac:(lia)) as Hvv.
    set (zu := fst (shl_align mu eu ez)) in *.
    set (zv := fst (shl_align mv ev ez)) in *.
    assert (Hp : 0 < 2 ^ (ez - emin)) by (apply Z.pow_pos_nonneg; lia).
    assert (Hsum : 0 < cond_Zopp su (Zpos zu) + cond_Zopp sv (Zpos zv)).
    { rewrite <- Hvu, <- Hvv, !cond_Zopp_mul, <- Z.mul_add_distr_r in Hpos.
      nia. }
    destruct (cond_Zopp su (Zpos zu) + cond_Zopp sv (Zpos zv))
      as [ | sigma | sigma]; try lia.
    cbn [binary_normalize]. apply binary_round_cases.
Qed.

Lemma SFadd_infinity_r u :
  SF_is_finite (SF64add u (S754_infinity false)) = false.
Proof. now destruct u as [s | [|] | | s m e]. Qed.

Lemma SFrem_infinity_l s d : JS.SFrem (S754_infinity s) d = S754_nan.
Proof. now destruct d. Qed.

End Remainder.

Section FloorModRange.

Local Open Scope Z_scope.

Lemma SF_finite_valid_Prim2SF u :
  is_finite u = true -> SF_finite_valid (Prim2SF u).
Proof.
  intro H. split; [now rewrite <- is_finite_spec | apply Prim2SF_valid].
Qed.

Lemma rem_not_finite n m : is_finite n = false -> JS.rem n m = nan.
Proof.
  rewrite is_finite_spec. intro H. unfold JS.rem.
  destruct (Prim2SF n) as [s | s | | s mn en]; try discriminate.
  - now rewrite SFrem_infinity_l.
  - reflexivity.
Qed.

Lemma rem_finite n m sd md ed :
  Prim2SF m = S754_finite sd md ed -> is_finite n = true ->
  SF_finite_valid (Prim2SF (JS.rem n m))
  /\ SF_value (Prim2SF (JS.rem n m))
     = Z.rem (SF_value (Prim2SF n)) (SF_value (Prim2SF m)).
Proof.
  intros Em Hn. pose proof (Prim2SF_valid m) as Vm.
  pose proof (Prim2SF_valid n) as Vn.
  rewrite is_finite_spec in Hn. unfold JS.rem. rewrite Em in *.
  cbn [valid_binary] in Vm.
  destruct (Prim2SF n) as [sn | sn | | sn mn en]; try discriminate.
  - cbn [JS.SFrem]. rewrite Prim2SF_SF2Prim by reflexivity.
    cbn [SF_value]. now repeat split.
  - cbn [valid_binary] in Vn.
    destruct (SFrem_finite sn mn en sd md ed Vn Vm) as ([F V] & Hval & _).
    rewrite Prim2SF_SF2Prim by exact V. now repeat split.
Qed.

Lemma SF_value_positive m md ed :
  Prim2SF m = S754_finite false md ed -> 0 < SF_value (Prim2SF m).
Proof.
  intro Em. pose proof (Prim2SF_valid m) as Vm. rewrite Em in *.
  cbn [valid_binary SF_value cond_Zopp] in *.
  destruct (bounded_facts md ed Vm) as (He & _).
  apply Z.mul_pos_pos; [lia | apply Z.pow_pos_nonneg; lia].
Qed.

End FloorModRange.

(** ** The sample [Math.hypot] is exact along the axes *)

Section SampleHypot.

Local Open Scope float_scope.

Lemma div_diag_positive_finite (k : float) :
  is_finite k = true -> (0 <? k) = true -> k / k = 1.
Proof.
  intros Hf Hk. apply Prim2SF_inj. rewrite div_spec, Prim2SF_1.
  destruct (positive_finite_cases k Hf Hk) as (m & e & E).
  pose proof (Prim2SF_valid k) as V. rewrite E in *. cbn [valid_binary] in V.
  unfold SF64div, SFdiv, SFdiv_core_binary. cbn [Zdigits2 xorb].
  replace (Zpos (digits2_pos m) + e - (Zpos (digits2_pos m) + e))%Z
    with 0%Z by lia.
  rewrite Z.sub_diag. cbn [fexp Z.min]. 
  change (Z.min (fexp prec emax 0) 0) with (-53)%Z.
  change (0 - -53)%Z with 53%Z. cbv iota.
  rewrite Z.shiftl_mul_pow2 by lia.
  rewrite (Z.mul_comm (Zpos m)), div_eucl_exact by lia.
  rewrite new_location_0.
  change (2 ^ 53)%Z with (Zpos (Pos.shiftl_nat 4503599627370496 1)).
  change (-53)%Z with (-52 - Z.of_nat 1)%Z.
  now apply binary_round_aux_exact.
Qed.

Lemma abs_positive (k : float) : (0 <? k) = true -> abs k = k.
Proof.
  intro Hk. apply Prim2SF_inj. rewrite abs_spec.
  destruct (ltb_0_true_cases k Hk) as [E | (m & e & E)]; now rewrite E.
Qed.

Lemma positive_finite_tests (k : float) :
  is_finite k = true -> (0 <? k) = true ->
  (k =? infinity) = false /\ is_nan k = false /\ (k =? 0) = false
  /\ (k <? 0) = false.
Proof.
  intros Hf Hk. rewrite is_nan_spec, !FloatAxioms.eqb_spec, ltb_spec.
  rewrite Prim2SF_0, Prim2SF_infinity.
  destruct (positive_finite_cases k Hf Hk) as (m & e & E). rewrite E.
  repeat split.
Qed.

Lemma div_0_l_positive_finite (k : float) :
  is_finite k = true -> (0 <? k) = true -> 0 / k = 0.
Proof.
  intros Hf Hk. apply Prim2SF_inj. rewrite div_spec, Prim2SF_0.
  destruct (positive_finite_cases k Hf Hk) as (m & e & E). now rewrite E.
Qed.

Lemma Sample_hypot_0_l (k : float) :
  is_finite k = true -> (0 <? k) = true -> Sample.hypot 0 k = k.
Proof.
  intros Hf Hk. unfold Sample.hypot.
  destruct (positive_finite_tests k Hf Hk) as (H1 & H2 & H3 & H4).
  change (abs 0) with 0. rewrite (abs_positive k Hk).
  change (0 =? infinity) with false. change (is_nan 0) with false.
  rewrite H1, H2, Hk, H3. cbn [orb].
  rewrite (div_0_l_positive_finite k Hf Hk), (div_diag_positive_finite k Hf Hk).
  change (PrimFloat.sqrt (0 * 0 + 1 * 1)) with 1. apply mul_1_l.
Qed.

Lemma Sample_hypot_0_r (k : float) :
  is_finite k = true -> (0 <? k) = true -> Sample.hypot k 0 = k.
Proof.
  intros Hf Hk. unfold Sample.hypot.
  destruct (positive_finite_tests k Hf Hk) as (H1 & H2 & H3 & H4).
  change (abs 0) with 0. rewrite (abs_positive k Hk).
  change (0 =? infinity) with false. change (is_nan 0) with false.
  rewrite H1, H2, H4, H3. cbn [orb].
  rewrite (div_0_l_positive_finite k Hf Hk), (div_diag_positive_finite k Hf Hk).
  change (PrimFloat.sqrt (1 * 1 + 0 * 0)) with 1. apply mul_1_l.
Qed.

End SampleHypot.

(** ** Exact arithmetic: the algebraic laws *)

Module ExactLaws.

Import Stdlib.Reals.Reals Stdlib.micromega.Lra.
Local Open Scope R_scope.

Abbreviation pointR := (Point R).
Abbreviation matrixR := (Matrix R).

Lemma exact_dot_default_r (A : matrixR) : Matrix_dot A Matrix_default = A.
Proof.
  destruct A as [a0 b0 c0 d0 e0 f0]. unfold Matrix_dot, Matrix_default.
  cbn. f_equal; ring.
Qed.

Lemma exact_dot_default_l (A : matrixR) : Matrix_dot Matrix_default A = A.
Proof.
  destruct A as [a0 b0 c0 d0 e0 f0]. unfold Matrix_dot, Matrix_default.
  cbn. f_equal; ring.
Qed.

Lemma exact_flattenTransforms_pair (A B : matrixR) :
  flattenTransforms [A; B] = Matrix_dot B A.
Proof.
  unfold flattenTransforms. rewrite Array_reduce_fold_left. simpl.
  now rewrite exact_dot_default_r.
Qed.

(** The closed form of [invert] is the inverse of the affine map. *)
Lemma exact_transform_invert (M : matrixR) (p : pointR) :
  a M * d M - b M * c M <> 0 ->
  transform p [M; Matrix_invert M] = p.
Proof.
  intro Hdet. destruct M as [a0 b0 c0 d0 e0 f0], p as [x0 y0].
  cbn [a b c d] in Hdet.
  unfold transform. rewrite Array_reduce_fold_left.
  unfold Matrix_invert, transform_step. cbn.
  assert (Hdet' : b0 * c0 - a0 * d0 <> 0) by lra.
  f_equal; field; auto.
Qed.

Lemma exact_pow_2 (u : R) : Exact.pow u 2 = u * u.
Proof.
  unfold Exact.pow.
  assert (H2 : Int_part 2 = 2%Z).
  { symmetry. apply Int_part_spec. lra. }
  rewrite H2. destruct (Req_dec_T 2 2) as [_ | H]; [| now elim H].
  simpl. ring.
Qed.

Lemma exact_distance_eq (p1 p2 : pointR) :
  distance p1 p2
  = sqrt ((x p2 - x p1) * (x p2 - x p1) + (y p2 - y p1) * (y p2 - y p1)).
Proof.
  unfold distance. cbn. now rewrite !exact_pow_2.
Qed.

Lemma exact_distance_nonneg (p1 p2 : pointR) : 0 <= distance p1 p2.
Proof. rewrite exact_distance_eq. apply sqrt_pos. Qed.

Lemma exact_distance_zero_iff (p1 p2 : pointR) :
  distance p1 p2 = 0 <-> x p1 = x p2 /\ y p1 = y p2.
Proof.
  rewrite exact_distance_eq.
  set (dx := x p2 - x p1). set (dy := y p2 - y p1).
  assert (Hsq : 0 <= dx * dx + dy * dy) by nra.
  split.
  - intro H. apply sqrt_eq_0 in H; [| exact Hsq].
    assert (dx = 0 /\ dy = 0) as [Hx Hy] by (split; nra).
    unfold dx, dy in *. split; lra.
  - intros [Hx Hy].
    replace (dx * dx + dy * dy) with 0 by (unfold dx, dy; rewrite Hx, Hy; ring).
    apply sqrt_0.
Qed.

Lemma exact_ltb_true u v : Exact.ltb u v = true <-> u < v.
Proof.
  unfold Exact.ltb. destruct (Rlt_dec u v); split; intro; auto; discriminate.
Qed.

Lemma exact_getScale_uniform (k : R) :
  0 < k -> Matrix_getScale (new_Matrix k 0 0 k 0 0) = k.
Proof.
  intro Hk. unfold Matrix_getScale, transform.
  rewrite !Array_reduce_fold_left. cbn.
  unfold Exact.hypot.
  replace ((k * 0 + 0 * 1 + 0 * 1) * (k * 0 + 0 * 1 + 0 * 1)
           + (0 * 0 + k * 1 + 0 * 1) * (0 * 0 + k * 1 + 0 * 1)) with (k * k) by ring.
  replace ((k * 1 + 0 * 0 + 0 * 1) * (k * 1 + 0 * 0 + 0 * 1)
           + (0 * 1 + k * 0 + 0 * 1) * (0 * 1 + k * 0 + 0 * 1)) with (k * k) by ring.
  rewrite sqrt_square by lra. rewrite Rmax_left by lra.
  destruct (Exact.ltb 0 k) eqn:E.
  - replace ((0 * 0 + k * 1 + 0 * 1) * (k * 1 + 0 * 0 + 0 * 1)
             - (k * 0 + 0 * 1 + 0 * 1) * (0 * 1 + k * 0 + 0 * 1)) with (k * k) by ring.
    rewrite Rabs_right by nra. field. lra.
  - apply exact_ltb_true in Hk. congruence.
Qed.

End ExactLaws.


(** * The claims *)

(** ** [Point.equals] *)

Section PointEquals.

Local Open Scope float_scope.

Lemma Point_equals_sym (p q : Point float) : Point_equals p q = Point_equals q p.
Proof.
  unfold Point_equals. cbn [Math_abs sub binary64 lt].
  now rewrite (abs_sub_comm (x p) (x q)), (abs_sub_comm (y p) (y q)).
Qed.

Lemma Point_equals_refl (p : Point float) :
  Point_equals p p = is_finite (x p) && is_finite (y p).
Proof.
  unfold Point_equals. cbn [Math_abs sub binary64 lt lit_1e_8].
  destruct (is_finite (x p)) eqn:Hx;
    [rewrite (sub_diag_finite _ Hx) | rewrite (sub_diag_not_finite _ Hx)];
  (destruct (is_finite (y p)) eqn:Hy;
    [rewrite (sub_diag_finite _ Hy) | rewrite (sub_diag_not_finite _ Hy)]);
  reflexivity.
Qed.

(** C4. [p.equals(q)] is true exactly when both coordinate differences,
    computed and compared as the code does, are strictly below [1e-8];
    a difference of exactly [1e-8] in either coordinate makes the points
    unequal; and the three sample points around the threshold. *)
Theorem Point_equals_strict_tolerance :
  (forall p q : Point float,
     Point_equals p q = true <->
     (abs (x p - x q) <? 1e-8) = true /\ (abs (y p - y q) <? 1e-8) = true)
  /\ (forall p q : Point float,
        abs (x p - x q) = 1e-8 \/ abs (y p - y q) = 1e-8 ->
        Point_equals p q = false)
  /\ Point_equals (new_Point 0 0) (new_Point 0 0.99e-8) = true
  /\ Point_equals (new_Point 0 0) (new_Point 0 1.01e-8) = false
  /\ Point_equals (new_Point 0 0) (new_Point 0 1e-8) = false.
Proof.
  repeat split; try reflexivity.
  - unfold Point_equals in H. now apply andb_prop in H.
  - unfold Point_equals in H. now apply andb_prop in H.
  - intros [Hx Hy]. unfold Point_equals. apply andb_true_intro. now split.
  - intros p q [H | H]; unfold Point_equals;
      cbn [Math_abs sub binary64 lt lit_1e_8]; rewrite H.
    + reflexivity.
    + apply andb_false_r.
Qed.

(** The points [(0, 0)] and [(1e-8, 0)] are exactly [1e-8] apart. *)
Lemma Point_equals_strict_tolerance_witness :
  abs (x (new_Point 0 0) - x (new_Point 1e-8 0)) = 1e-8
  /\ Point_equals (new_Point 0 0) (new_Point 1e-8 0) = false.
Proof.
  assert (H : abs (x (new_Point 0 0) - x (new_Point 1e-8 0)) = 1e-8)
    by reflexivity.
  split; [exact H |].
  exact (proj1 (proj2 Point_equals_strict_tolerance)
           (new_Point 0 0) (new_Point 1e-8 0) (or_introl H)).
Defined.

(** C10, the input that refutes it: a point with an infinite coordinate has
    no NaN coordinate and still is not equal to itself. *)
Lemma Point_equals_not_reflexive_at_infinity :
  let p := new_Point infinity 0 in
  is_nan (x p) = false /\ is_nan (y p) = false /\ Point_equals p p = false.
Proof. repeat split. Qed.

(** C10, amended. [Point.equals] is symmetric for all points, and
    [p.equals(p)] is true exactly when both coordinates are finite: it is
    false as soon as one of them is NaN or an infinity. *)
Theorem Point_equals_symmetric_and_reflexive_on_finite :
  (forall p q : Point float, Point_equals p q = Point_equals q p)
  /\ (forall p : Point float,
        Point_equals p p = is_finite (x p) && is_finite (y p)).
Proof.
  split; [exact Point_equals_sym | exact Point_equals_refl].
Qed.

End PointEquals.

(** ** [areCollinear] *)

Section Collinear.

Context {num : Type} {N : Number num}.

Lemma collinear_with_area (p0 p1 p : Point num) :
  collinear_with (x p0) (y p0) (x p1) (y p1) p
  = lt (signed_double_area p0 p1 p) lit_1e_8.
Proof. reflexivity. Qed.

Lemma areCollinear_few (points : list (Point num)) :
  (length points < 3)%nat -> areCollinear points = true.
Proof.
  intro H. unfold areCollinear.
  apply Nat.ltb_lt in H. now rewrite H.
Qed.

Lemma areCollinear_many (p0 p1 p2 : Point num) (rest : list (Point num)) :
  areCollinear (p0 :: p1 :: p2 :: rest) = true <->
  forall p, In p (p0 :: p1 :: p2 :: rest) ->
            lt (signed_double_area p0 p1 p) lit_1e_8 = true.
Proof.
  unfold areCollinear.
  change (length (p0 :: p1 :: p2 :: rest) <? 3)%nat with false.
  cbv iota zeta. rewrite Array_every_forallb, forallb_forall.
  split; intros H p Hp; specialize (H p Hp);
    now rewrite collinear_with_area in *.
Qed.

End Collinear.

(** C5. With fewer than three points [areCollinear] is true; with three or
    more it is true exactly when every point of the list (the first two
    included) makes the signed double area with the first two points
    strictly less than [1e-8].  The comparison is signed: the two samples of
    the specification, and a triangle of area [-1] that passes. *)
Theorem areCollinear_signed_area :
  (forall (num : Type) (N : Number num) (points : list (Point num)),
     (length points < 3)%nat -> areCollinear points = true)
  /\ (forall (num : Type) (N : Number num) (p0 p1 p2 : Point num) rest,
        areCollinear (p0 :: p1 :: p2 :: rest) = true <->
        forall p, In p (p0 :: p1 :: p2 :: rest) ->
                  lt (signed_double_area p0 p1 p) lit_1e_8 = true)
  /\ areCollinear [new_Point 0 0; new_Point 1 1; new_Point 2 2]%float = true
  /\ areCollinear [new_Point 0 0; new_Point 1 1; new_Point 2 3]%float = false
  /\ areCollinear [new_Point 0 0; new_Point 1 1; new_Point 3 2]%float = true.
Proof.
  split; [| split; [| repeat split]].
  - intros num N points. apply areCollinear_few.
  - intros num N p0 p1 p2 rest. apply areCollinear_many.
Qed.

(** Two points are always collinear. *)
Lemma areCollinear_signed_area_witness :
  (length [new_Point 0 0; new_Point 5 7]%float < 3)%nat
  /\ areCollinear [new_Point 0 0; new_Point 5 7]%float = true.
Proof.
  assert (H : (length [new_Point 0 0; new_Point 5 7]%float < 3)%nat)
    by (simpl; lia).
  split; [exact H |].
  exact (proj1 areCollinear_signed_area _ _ _ H).
Defined.

(** ** [transform] *)

Section Transform.

Local Open Scope float_scope.

Lemma transform_step_affine (p : Point float) (m : Matrix float) :
  transform_step p m = affine p m.
Proof.
  unfold transform_step, affine. cbn [mul add lit_1 binary64].
  now rewrite !mul_1_r.
Qed.

(** C2. [transform(p, m1, ..., mn)] is the left fold of the affine map
    [x' = a·x + c·y + e], [y' = b·x + d·y + f] over the matrices in the
    order given, from the point with [p]'s coordinates: nothing is applied
    when there is no matrix, and one more matrix at the end is applied to
    the result of the others.  The argument is any [IPoint]; the result is a
    [Point]. *)
Theorem transform_folds_left_to_right :
  forall (T : Type) (I : IPoint float T) (point : T)
         (matrices : list (Matrix float)),
    (transform point matrices : Point float)
    = fold_left affine matrices (new_Point (IPoint_x point) (IPoint_y point))
    /\ transform point [] = new_Point (IPoint_x point) (IPoint_y point)
    /\ forall m : Matrix float,
         transform point (matrices ++ [m]) = affine (transform point matrices) m.
Proof.
  intros T I point matrices.
  assert (Hfold : forall ms : list (Matrix float),
             transform point ms
             = fold_left affine ms (new_Point (IPoint_x point) (IPoint_y point))).
  { intro ms. unfold transform. rewrite Array_reduce_fold_left.
    apply fold_left_pointwise. exact transform_step_affine. }
  repeat split.
  - apply Hfold.
  - intro m. rewrite !Hfold, fold_left_app. reflexivity.
Qed.

End Transform.

(** ** [distance] *)

Section Distance.

Local Open Scope float_scope.

Context {M : MathApprox float}.

Lemma distance_unfold (p1 p2 : Point float) :
  distance p1 p2
  = PrimFloat.sqrt (Math_pow (x p2 - x p1) 2 + Math_pow (y p2 - y p1) 2).
Proof. reflexivity. Qed.

Lemma distance_nan_or_nonneg (p1 p2 : Point float) :
  is_nan (distance p1 p2) = true \/ (0 <=? distance p1 p2) = true.
Proof. rewrite distance_unfold. apply sqrt_nan_or_nonneg. Qed.

Lemma distance_same_point (p1 p2 : Point float) :
  Math_pow 0 2 = 0 ->
  is_finite (x p1) = true -> is_finite (y p1) = true ->
  x p1 = x p2 -> y p1 = y p2 ->
  distance p1 p2 = 0.
Proof.
  intros Hpow Hx Hy Ex Ey. rewrite distance_unfold, <- Ex, <- Ey.
  rewrite (sub_diag_finite _ Hx), (sub_diag_finite _ Hy), Hpow.
  reflexivity.
Qed.

End Distance.

(** C9, the inputs that refute it: two points that coincide at an infinite
    coordinate are at distance NaN, which is neither [0] nor [>= 0]; and two
    points [1e-200] apart are at distance [0], the square having underflowed
    (with the square computed by one multiplication). *)
Lemma distance_zero_iff_fails :
  let far := new_Point infinity 0%float in
  let origin := new_Point 0%float 0%float in
  let near := new_Point 1e-200%float 0%float in
  @distance _ _ sample_math _ _ _ _ far far = nan
  /\ (0 <=? @distance _ _ sample_math _ _ _ _ far far)%float = false
  /\ @distance _ _ sample_math _ _ _ _ origin near = 0%float
  /\ (x origin =? x near)%float = false.
Proof. cbv zeta. repeat split. Qed.

(** C9, amended. [distance(p1, p2)] is
    [Math.sqrt(Math.pow(p2.x - p1.x, 2) + Math.pow(p2.y - p1.y, 2))]; it is
    never negative (it is NaN or [>= 0]); and it is [0] when the two points
    have the same finite coordinates (given that [Math.pow(0, 2)] is [0], as
    ECMAScript requires).  In exact arithmetic it is [>= 0] always and [0]
    exactly when the coordinates coincide. *)
Theorem distance_euclidean :
  (forall (M : MathApprox float) (p1 p2 : Point float),
     distance p1 p2
     = PrimFloat.sqrt (Math_pow (x p2 - x p1) 2 + Math_pow (y p2 - y p1) 2)%float
     /\ (is_nan (distance p1 p2) = true \/ (0 <=? distance p1 p2)%float = true)
     /\ (Math_pow 0%float 2%float = 0%float ->
         is_finite (x p1) = true -> is_finite (y p1) = true ->
         x p1 = x p2 -> y p1 = y p2 ->
         distance p1 p2 = 0%float))
  /\ (forall p1 p2 : Point Rdefinitions.R,
        Rdefinitions.Rle (Rdefinitions.IZR 0) (distance p1 p2)
        /\ (distance p1 p2 = Rdefinitions.IZR 0 <-> x p1 = x p2 /\ y p1 = y p2)).
Proof.
  split.
  - intros M p1 p2. split; [| split].
    + reflexivity.
    + apply distance_nan_or_nonneg.
    + apply distance_same_point.
  - intros p1 p2. split.
    + apply ExactLaws.exact_distance_nonneg.
    + apply ExactLaws.exact_distance_zero_iff.
Qed.

(** A point at distance [0] from itself, with the sample [Math.pow]. *)
Lemma distance_euclidean_witness :
  let p := new_Point 3%float 4%float in
  Sample.pow 0 2 = 0%float
  /\ is_finite (x p) = true /\ is_finite (y p) = true
  /\ @distance _ _ sample_math _ _ _ _ p p = 0%float.
Proof.
  cbv zeta.
  assert (H0 : @Math_pow _ sample_math 0%float 2%float = 0%float)
    by reflexivity.
  assert (Hx : is_finite 3%float = true) by reflexivity.
  assert (Hy : is_finite 4%float = true) by reflexivity.
  split; [exact H0 |]. split; [exact Hx |]. split; [exact Hy |].
  exact (proj2 (proj2 (proj1 distance_euclidean sample_math
                         (new_Point 3%float 4%float)
                         (new_Point 3%float 4%float)))
           H0 Hx Hy eq_refl eq_refl).
Defined.

(** ** [floorMod] *)

Section FloorMod.

Local Open Scope Z_scope.

Lemma rem_plus_modulus n d :
  0 < d -> Z.rem (Z.rem n d + d) d = n mod d.
Proof.
  intro Hd.
  pose proof (Z.rem_bound_abs n d ltac:(lia)) as Hb.
  assert (Hr : 0 <= Z.rem n d + d) by lia.
  rewrite Z.rem_mod_nonneg by lia.
  rewrite Z.add_mod, Z.mod_same, Z.add_0_r, Z.mod_mod by lia.
  pose proof (Z.quot_rem n d ltac:(lia)) as Hq.
  rewrite Hq at 2. rewrite Z.add_comm, Z.mul_comm, Z.mod_add by lia.
  reflexivity.
Qed.

(** [floorMod] on safe integers is the floor modulus. *)
Lemma floorMod_of_Z n d :
  safe_integer n -> 0 < d <= 2 ^ 52 ->
  floorMod (of_Z n) (of_Z d) = of_Z (n mod d).
Proof.
  intros Hn Hd.
  assert (Sd : safe_integer d) by (unfold safe_integer; lia).
  pose proof (Z.rem_bound_abs n d ltac:(lia)) as Hb.
  assert (Ssum : safe_integer (Z.rem n d + d)) by (unfold safe_integer; lia).
  unfold floorMod. cbn [rem add binary64].
  assert (Hsum : (JS.rem (of_Z n) (of_Z d) + of_Z d)%float
                 = of_Z (Z.rem n d + d)).
  { apply Prim2SF_inj.
    rewrite add_spec, Prim2SF_rem_of_Z, !Prim2SF_of_Z by (assumption || lia).
    pose proof (safe_integer_rem n d Hn) as Sr.
    revert Sr Ssum. clear Hb.
    destruct (Z.rem n d) as [ | r | r]; intros Sr Ssum;
      cbn [SF_signed_zero_or].
    - destruct d; try lia. now destruct (n <? 0).
    - now apply SFadd_of_Z.
    - now apply SFadd_of_Z. }
  rewrite Hsum, rem_of_Z_nonneg by (assumption || lia).
  now rewrite rem_plus_modulus by lia.
Qed.

(** Whenever the modulus is positive and the sum [(n % maxNum) + maxNum]
    has not overflowed, [floorMod] is in [[0, maxNum)]. *)
Lemma floorMod_range (n maxNum : float) :
  (0 <? maxNum)%float = true ->
  is_finite (JS.rem n maxNum + maxNum)%float = true ->
  (0 <=? floorMod n maxNum)%float = true
  /\ (floorMod n maxNum <? maxNum)%float = true.
Proof.
  intros Hm Hfin. unfold floorMod. cbn [rem add binary64].
  destruct (ltb_0_true_cases maxNum Hm) as [Em | (md & ed & Em)].
  { exfalso. rewrite is_finite_spec, add_spec, Em, SFadd_infinity_r in Hfin.
    discriminate. }
  pose proof (SF_value_positive maxNum md ed Em) as Hpos.
  assert (Fm : SF_finite_valid (Prim2SF maxNum)).
  { apply SF_finite_valid_Prim2SF. rewrite is_finite_spec, Em. reflexivity. }
  destruct (is_finite n) eqn:Hn.
  2:{ exfalso. rewrite (rem_not_finite n maxNum Hn) in Hfin.
      rewrite is_finite_spec, add_spec in Hfin. discriminate. }
  destruct (rem_finite n maxNum false md ed Em Hn) as (F1 & V1).
  set (r1 := JS.rem n maxNum) in *.
  pose proof (Z.rem_bound_abs (SF_value (Prim2SF n)) (SF_value (Prim2SF maxNum))
                ltac:(lia)) as Hb1.
  rewrite <- V1 in Hb1.
  assert (Hsum : 0 <= SF_value (Prim2SF (r1 + maxNum)%float)).
  { pose proof (SFadd_positive (Prim2SF r1) (Prim2SF maxNum) F1 Fm
                  ltac:(lia)) as Hc.
    cbv zeta in Hc. rewrite <- add_spec in Hc.
    rewrite is_finite_spec in Hfin.
    destruct Hc as [E | [E | [E | (ms & es & E)]]]; rewrite E in *;
      try discriminate; cbn [SF_value cond_Zopp]; lia. }
  destruct (rem_finite (r1 + maxNum)%float maxNum false md ed Em Hfin)
    as (F2 & V2).
  pose proof (Z.rem_bound_pos (SF_value (Prim2SF (r1 + maxNum)%float))
                (SF_value (Prim2SF maxNum)) Hsum Hpos) as Hb2.
  rewrite <- V2 in Hb2.
  rewrite leb_spec, ltb_spec, Prim2SF_0. unfold SFleb, SFltb.
  rewrite !SFcompare_value; try assumption; [| now split].
  cbn [SF_value]. split.
  - destruct (Z.compare_spec 0 (SF_value (Prim2SF (JS.rem (r1 + maxNum)%float maxNum))));
      try reflexivity; lia.
  - destruct (Z.compare_spec (SF_value (Prim2SF (JS.rem (r1 + maxNum)%float maxNum)))
                (SF_value (Prim2SF maxNum))); try reflexivity; lia.
Qed.

(** Otherwise it is NaN. *)
Lemma floorMod_overflowed (n maxNum : float) :
  is_finite (JS.rem n maxNum + maxNum)%float = false ->
  floorMod n maxNum = nan.
Proof. intro H. unfold floorMod. now apply rem_not_finite. Qed.

End FloorMod.

(** C7, the input that refutes it: both arguments finite, [maxNum]
    positive, and the sum [(num % maxNum) + maxNum] overflows, so the result
    is NaN. *)
Lemma floorMod_overflow :
  let n := 1e308%float in
  let maxNum := 1.7e308%float in
  is_finite n = true /\ is_finite maxNum = true
  /\ (0 <? maxNum)%float = true
  /\ floorMod n maxNum = nan
  /\ (0 <=? floorMod n maxNum)%float = false.
Proof. cbv zeta. repeat split. Qed.

(** C7, amended. [floorMod(num, maxNum)] is
    [((num % maxNum) + maxNum) % maxNum].  For every positive [maxNum] and
    every [num], negative ones included, the result lies in [[0, maxNum)]
    as soon as the sum [(num % maxNum) + maxNum] is finite (which needs
    [num] finite), and it is NaN when that sum is not (it overflows only
    near the top of the range).  For every integer [num] with
    [|num| < 2^53] and every integer [maxNum] with [0 < maxNum <= 2^52] it
    is exactly the floor modulus [num mod maxNum];
    [floorMod(-1, 5) = 4] and [floorMod(7, 5) = 2]. *)
Theorem floorMod_floor_modulus :
  (forall n maxNum : float,
     floorMod n maxNum = JS.rem (JS.rem n maxNum + maxNum)%float maxNum)
  /\ (forall n maxNum : float,
        (0 <? maxNum)%float = true ->
        is_finite (JS.rem n maxNum + maxNum)%float = true ->
        (0 <=? floorMod n maxNum)%float = true
        /\ (floorMod n maxNum <? maxNum)%float = true)
  /\ (forall n maxNum : float,
        is_finite (JS.rem n maxNum + maxNum)%float = false ->
        floorMod n maxNum = nan)
  /\ (forall n d : Z,
        safe_integer n -> (0 < d <= 2 ^ 52)%Z ->
        floorMod (of_Z n) (of_Z d) = of_Z (n mod d)
        /\ (0 <= n mod d < d)%Z)
  /\ floorMod (-1)%float 5%float = 4%float
  /\ floorMod 7%float 5%float = 2%float.
Proof.
  split; [| split; [| split; [| split; [| split]]]]; try reflexivity.
  - exact floorMod_range.
  - exact floorMod_overflowed.
  - intros n d Hn Hd. split.
    + now apply floorMod_of_Z.
    + apply Z.mod_pos_bound. lia.
Qed.

(** [floorMod(-1, 5)], as a computation on safe integers and as a result in
    range. *)
Lemma floorMod_floor_modulus_witness :
  safe_integer (-1) /\ (0 < 5 <= 2 ^ 52)%Z
  /\ (0 <? 5)%float = true
  /\ is_finite (JS.rem (-1) 5 + 5)%float = true
  /\ floorMod (of_Z (-1)) (of_Z 5) = of_Z (-1 mod 5)
  /\ (0 <=? floorMod (-1) 5)%float = true
  /\ (floorMod (-1) 5 <? 5)%float = true.
Proof.
  assert (H1 : safe_integer (-1)) by reflexivity.
  assert (H2 : (0 < 5 <= 2 ^ 52)%Z) by lia.
  assert (H3 : (0 <? 5)%float = true) by reflexivity.
  assert (H4 : is_finite (JS.rem (-1) 5 + 5)%float = true) by reflexivity.
  split; [exact H1 |]. split; [exact H2 |]. split; [exact H3 |].
  split; [exact H4 |]. split.
  - exact (proj1 (proj1 (proj2 (proj2 (proj2 floorMod_floor_modulus)))
                    (-1)%Z 5%Z H1 H2)).
  - exact (proj1 (proj2 floorMod_floor_modulus) (-1)%float 5%float H3 H4).
Defined.

(** ** [Matrix.dot] and [flattenTransforms] *)

Section FlattenGeneric.

Context {num : Type} {N : Number num}.

Lemma flattenTransforms_fold (matricies : list (Matrix num)) :
  flattenTransforms matricies
  = fold_left (fun prev curr => Matrix_dot curr prev) matricies Matrix_default.
Proof. apply Array_reduce_fold_left. Qed.

Lemma flattenTransforms_two (A B : Matrix num) :
  flattenTransforms [A; B] = Matrix_dot B (Matrix_dot A Matrix_default).
Proof. now rewrite flattenTransforms_fold. Qed.

End FlattenGeneric.

Section DotBinary64.

Local Open Scope float_scope.

Lemma is_zero_0 : is_zero 0 = true.
Proof. reflexivity. Qed.

Lemma dot_default_r_same (A : Matrix float) :
  Matrix_linear_is_finite A -> same_matrix (Matrix_dot A Matrix_default) A.
Proof.
  intros (Ha & Hb & Hc & Hd).
  unfold same_matrix, Matrix_dot, Matrix_default.
  cbn [a b c d e f mul add lit_0 lit_1 binary64].
  rewrite !mul_1_r.
  repeat split;
    first [ apply add_zero_r_same; now apply mul_zero_r
          | apply add_zero_l_same; now apply mul_zero_r
          | apply add_zero_l_same; apply add_zero_zero; now apply mul_zero_r ].
Qed.

Lemma dot_default_l_same (A : Matrix float) :
  Matrix_is_finite A -> same_matrix (Matrix_dot Matrix_default A) A.
Proof.
  intros (Ha & Hb & Hc & Hd & He & Hf).
  unfold same_matrix, Matrix_dot, Matrix_default.
  cbn [a b c d e f mul add lit_0 lit_1 binary64].
  rewrite !mul_1_l.
  repeat split;
    first [ apply add_zero_r_same; now apply mul_zero_l
          | apply add_zero_l_same; now apply mul_zero_l
          | eapply same_number_trans;
            [ apply add_zero_r_same; exact is_zero_0 | ];
            first [ apply add_zero_r_same; now apply mul_zero_l
                  | apply add_zero_l_same; now apply mul_zero_l ] ].
Qed.

Lemma Matrix_dot_same (B A A' : Matrix float) :
  same_matrix A A' -> same_matrix (Matrix_dot B A) (Matrix_dot B A').
Proof.
  intros (Ha & Hb & Hc & Hd & He & Hf).
  unfold same_matrix, Matrix_dot.
  cbn [a b c d e f mul add binary64].
  repeat split;
    repeat first [ apply add_same | apply mul_same | apply same_number_refl
                 | assumption ].
Qed.

Lemma flattenTransforms_two_same (A B : Matrix float) :
  Matrix_linear_is_finite A ->
  same_matrix (flattenTransforms [A; B]) (Matrix_dot B A).
Proof.
  intro HA. rewrite flattenTransforms_two.
  apply Matrix_dot_same, dot_default_r_same, HA.
Qed.

Lemma nan_is_not_zero : ~ same_number nan 0.
Proof.
  intros [H | [H _]].
  - apply (f_equal Prim2SF) in H. discriminate.
  - discriminate.
Qed.

(** C1, the input that refutes it: with an infinite coefficient in [A],
    [flattenTransforms([A, B])] has [c = NaN] where [B.dot(A)] has [c = 0]. *)
Lemma flattenTransforms_two_differs_at_infinity :
  let A := new_Matrix infinity 0 0 1 0 0 in
  let B := Matrix_default in
  c (flattenTransforms [A; B]) = nan
  /\ c (Matrix_dot B A) = 0
  /\ flattenTransforms [A; B] <> Matrix_dot B A
  /\ ~ same_matrix (flattenTransforms [A; B]) (Matrix_dot B A).
Proof.
  cbv zeta. repeat split.
  - intro H. apply (f_equal c) in H. apply (f_equal Prim2SF) in H. discriminate.
  - intros (_ & _ & H & _). exact (nan_is_not_zero H).
Qed.

(** C8, the input that refutes it: with an infinite coefficient both
    products with the identity contain NaN where [M] has [0]. *)
Lemma dot_identity_differs_at_infinity :
  let M := new_Matrix infinity 0 0 1 0 0 in
  c (Matrix_dot M Matrix_default) = nan
  /\ b (Matrix_dot Matrix_default M) = nan
  /\ c M = 0 /\ b M = 0
  /\ Matrix_dot M Matrix_default <> M
  /\ Matrix_dot Matrix_default M <> M.
Proof.
  cbv zeta. repeat split.
  - intro H. apply (f_equal c) in H. apply (f_equal Prim2SF) in H. discriminate.
  - intro H. apply (f_equal b) in H. apply (f_equal Prim2SF) in H. discriminate.
Qed.

(** Even among finite matrices the products need not be bit-identical: a
    coefficient [-0] comes back as [+0]. *)
Lemma dot_identity_loses_negative_zero :
  let M := new_Matrix (-0) 0 0 1 0 0 in
  Matrix_is_finite M
  /\ Prim2SF (a M) = S754_zero true
  /\ Prim2SF (a (Matrix_dot M Matrix_default)) = S754_zero false.
Proof. cbv zeta. unfold Matrix_is_finite. repeat split. Qed.

End DotBinary64.

(** C1, amended. [flattenTransforms(ms)] is the left fold of [ms] with the
    step [(prev, curr) -> curr.dot(prev)] from the identity; on the empty
    list it is the identity, and on [[A, B]] it is [B.dot(A.dot(identity))].
    That is [B.dot(A)], up to the sign of zero coefficients, whenever the
    four coefficients [a, b, c, d] of [A] are finite, and it is [B.dot(A)]
    exactly in exact arithmetic. *)
Theorem flattenTransforms_reverse_composition :
  (forall (num : Type) (N : Number num) (matricies : list (Matrix num)),
     flattenTransforms matricies
     = fold_left (fun prev curr => Matrix_dot curr prev) matricies Matrix_default)
  /\ (forall (num : Type) (N : Number num),
        flattenTransforms (@nil (Matrix num)) = Matrix_default)
  /\ (forall (num : Type) (N : Number num) (A B : Matrix num),
        flattenTransforms [A; B] = Matrix_dot B (Matrix_dot A Matrix_default))
  /\ (forall A B : Matrix float,
        Matrix_linear_is_finite A ->
        same_matrix (flattenTransforms [A; B]) (Matrix_dot B A))
  /\ (forall A B : Matrix Rdefinitions.R,
        flattenTransforms [A; B] = Matrix_dot B A).
Proof.
  split; [| split; [| split; [| split]]].
  - intros. apply flattenTransforms_fold.
  - reflexivity.
  - intros. apply flattenTransforms_two.
  - exact flattenTransforms_two_same.
  - exact ExactLaws.exact_flattenTransforms_pair.
Qed.

(** A scaling with a translation, then a quarter turn. *)
Lemma flattenTransforms_reverse_composition_witness :
  let A := (new_Matrix 2 0 0 3 5 7)%float in
  let B := (new_Matrix 0 1 (-1) 0 0 0)%float in
  Matrix_linear_is_finite A
  /\ same_matrix (flattenTransforms [A; B]) (Matrix_dot B A).
Proof.
  cbv zeta.
  assert (H : Matrix_linear_is_finite (new_Matrix 2 0 0 3 5 7)%float)
    by (repeat split).
  split; [exact H |].
  exact (proj1 (proj2 (proj2 (proj2 flattenTransforms_reverse_composition)))
           _ _ H).
Defined.

(** C8, amended. For every Matrix whose six coefficients are finite, both
    products with the default-constructed Matrix equal it coefficient for
    coefficient up to the sign of a zero; in exact arithmetic they equal it
    exactly. *)
Theorem dot_identity_law :
  (forall M : Matrix float,
     Matrix_is_finite M ->
     same_matrix (Matrix_dot M Matrix_default) M
     /\ same_matrix (Matrix_dot Matrix_default M) M)
  /\ (forall M : Matrix Rdefinitions.R,
        Matrix_dot M Matrix_default = M /\ Matrix_dot Matrix_default M = M).
Proof.
  split.
  - intros M HM. split.
    + apply dot_default_r_same. unfold Matrix_is_finite in HM.
      unfold Matrix_linear_is_finite. tauto.
    + now apply dot_default_l_same.
  - intro M. split; [apply ExactLaws.exact_dot_default_r | apply ExactLaws.exact_dot_default_l].
Qed.

(** The sample matrix of the specification. *)
Lemma dot_identity_law_witness :
  let M := (new_Matrix 2 0 0 3 5 7)%float in
  Matrix_is_finite M
  /\ same_matrix (Matrix_dot M Matrix_default) M
  /\ same_matrix (Matrix_dot Matrix_default M) M.
Proof.
  cbv zeta.
  assert (H : Matrix_is_finite (new_Matrix 2 0 0 3 5 7)%float)
    by (repeat split).
  split; [exact H |].
  exact (proj1 dot_identity_law _ H).
Defined.

(** ** [Matrix.invert] *)

Section RoundTrip.

Local Open Scope float_scope.

(** C3, the input that refutes it: a translation by [1e20] absorbs the
    point, and the way back returns [(0, 1)] for [(1, 1)].  The matrix is
    the identity but for [e], and its determinant is [1]. *)
Lemma round_trip_loses_the_point :
  let M := new_Matrix 1 0 0 1 1e20 0 in
  let p := new_Point 1 1 in
  determinant M = 1
  /\ (determinant M =? 0) = false
  /\ x (transform p [M; Matrix_invert M]) = 0
  /\ y (transform p [M; Matrix_invert M]) = 1
  /\ round_trip_within_1e_6 M p = false.
Proof. cbv zeta. repeat split. Qed.

End RoundTrip.

(** ** [transform] after [invert] on integer matrices of determinant [1] or [-1] *)

Section Unimodular.

Local Open Scope Z_scope.

Ltac represent :=
  lazymatch goal with
  | |- represents (of_Z _) _ _ =>
      apply represents_of_Z; split; [eassumption | reflexivity]
  | |- represents (_ * _)%float _ _ =>
      eapply represents_mul; [represent | represent | reflexivity]
  | |- represents (_ + _)%float _ _ =>
      eapply represents_add; [represent | represent | reflexivity]
  | |- represents (_ - _)%float _ _ =>
      eapply represents_sub; [represent | represent | reflexivity]
  | |- represents (_ / _)%float _ _ =>
      eapply represents_div_unit; [represent | eassumption | eassumption]
  end.

Variables a0 b0 c0 d0 e0 f0 x0 y0 : Z.

Hypothesis Ba : Z.abs a0 <= 2 ^ 16.
Hypothesis Bb : Z.abs b0 <= 2 ^ 16.
Hypothesis Bc : Z.abs c0 <= 2 ^ 16.
Hypothesis Bd : Z.abs d0 <= 2 ^ 16.
Hypothesis Be : Z.abs e0 <= 2 ^ 16.
Hypothesis Bf : Z.abs f0 <= 2 ^ 16.
Hypothesis Bx : Z.abs x0 <= 2 ^ 16.
Hypothesis By : Z.abs y0 <= 2 ^ 16.

Variable delta : Z.
Hypothesis Hdet : a0 * d0 - b0 * c0 = delta.
Hypothesis Hunit : delta = 1 \/ delta = -1.

Let M : Matrix float :=
  new_Matrix (of_Z a0) (of_Z b0) (of_Z c0) (of_Z d0) (of_Z e0) (of_Z f0).
Let p : Point float := new_Point (of_Z x0) (of_Z y0).

Lemma unimodular_determinant :
  (of_Z a0 * of_Z d0 - of_Z b0 * of_Z c0)%float = of_Z delta.
Proof.
  assert (R : represents (of_Z a0 * of_Z d0 - of_Z b0 * of_Z c0)%float
                (a0 * d0 - b0 * c0) (2 ^ 16 * 2 ^ 16 + 2 ^ 16 * 2 ^ 16))
    by represent.
  rewrite Hdet in R. apply (represents_nonzero _ _ _ R).
  destruct Hunit; lia.
Qed.

Lemma unimodular_determinant_opp :
  (of_Z b0 * of_Z c0 - of_Z a0 * of_Z d0)%float = of_Z (- delta).
Proof.
  assert (R : represents (of_Z b0 * of_Z c0 - of_Z a0 * of_Z d0)%float
                (b0 * c0 - a0 * d0) (2 ^ 16 * 2 ^ 16 + 2 ^ 16 * 2 ^ 16))
    by represent.
  replace (b0 * c0 - a0 * d0) with (- delta) in R by lia.
  apply (represents_nonzero _ _ _ R). destruct Hunit; lia.
Qed.

Lemma unimodular_opp_unit : - delta = 1 \/ - delta = -1.
Proof. destruct Hunit; lia. Qed.

Lemma unimodular_round_trip_x :
  same_number (x (transform p [M; Matrix_invert M])) (of_Z x0).
Proof.
  pose proof unimodular_determinant as D1.
  pose proof unimodular_determinant_opp as D2.
  pose proof unimodular_opp_unit as U2.
  unfold transform. rewrite Array_reduce_fold_left. cbn [fold_left].
  rewrite !transform_step_affine. unfold affine, Matrix_invert, M, p.
  cbn [a b c d e f x y IPoint_x IPoint_y Point_IPoint mul add sub div binary64].
  match goal with
  | |- same_number ?u _ => eassert (R : represents u _ _) by represent
  end.
  destruct R as [R _].
  match type of R with
  | same_number _ (of_Z ?z) => replace z with x0 in R; [exact R |]
  end.
  match goal with
  | |- _ = ?z => transitivity ((a0 * d0 - b0 * c0) * delta * x0); [| ring]
  end.
  rewrite Hdet. destruct Hunit as [H1 | H1]; rewrite H1; ring.
Qed.

Lemma unimodular_round_trip_y :
  same_number (y (transform p [M; Matrix_invert M])) (of_Z y0).
Proof.
  pose proof unimodular_determinant as D1.
  pose proof unimodular_determinant_opp as D2.
  pose proof unimodular_opp_unit as U2.
  unfold transform. rewrite Array_reduce_fold_left. cbn [fold_left].
  rewrite !transform_step_affine. unfold affine, Matrix_invert, M, p.
  cbn [a b c d e f x y IPoint_x IPoint_y Point_IPoint mul add sub div binary64].
  match goal with
  | |- same_number ?u _ => eassert (R : represents u _ _) by represent
  end.
  destruct R as [R _].
  match type of R with
  | same_number _ (of_Z ?z) => replace z with y0 in R; [exact R |]
  end.
  match goal with
  | |- _ = ?z => transitivity ((a0 * d0 - b0 * c0) * delta * y0); [| ring]
  end.
  rewrite Hdet. destruct Hunit as [H1 | H1]; rewrite H1; ring.
Qed.

End Unimodular.

Lemma same_number_within_1e_6 (u v : float) :
  same_number u v -> is_finite v = true ->
  (abs (u - v) <? 1e-6)%float = true.
Proof.
  intros [-> | [Hu Hv]] Hf.
  - now rewrite (sub_diag_finite v Hf).
  - rewrite is_zero_spec in Hu, Hv.
    rewrite ltb_spec, abs_spec, sub_spec.
    destruct (Prim2SF u) as [[|] | | |]; try discriminate;
      destruct (Prim2SF v) as [[|] | | |]; try discriminate; reflexivity.
Qed.

Lemma unimodular_round_trip (a0 b0 c0 d0 e0 f0 x0 y0 : Z) :
  small_integer a0 -> small_integer b0 -> small_integer c0 ->
  small_integer d0 -> small_integer e0 -> small_integer f0 ->
  small_integer x0 -> small_integer y0 ->
  unimodular a0 b0 c0 d0 ->
  let M := new_Matrix (of_Z a0) (of_Z b0) (of_Z c0) (of_Z d0) (of_Z e0) (of_Z f0) in
  let p := new_Point (of_Z x0) (of_Z y0) in
  same_number (x (transform p [M; Matrix_invert M])) (x p)
  /\ same_number (y (transform p [M; Matrix_invert M])) (y p)
  /\ round_trip_within_1e_6 M p = true.
Proof.
  unfold small_integer. intros Ba Bb Bc Bd Be Bf Bx By Hu. cbv zeta.
  pose proof (unimodular_round_trip_x a0 b0 c0 d0 e0 f0 x0 y0
                Ba Bb Bc Bd Be Bf Bx By _ eq_refl Hu) as Hx.
  pose proof (unimodular_round_trip_y a0 b0 c0 d0 e0 f0 x0 y0
                Ba Bb Bc Bd Be Bf Bx By _ eq_refl Hu) as Hy.
  cbn [x y]. repeat split; try assumption.
  unfold round_trip_within_1e_6. cbn [x y].
  rewrite !same_number_within_1e_6; try assumption; try reflexivity;
    apply is_finite_of_Z; unfold safe_integer; lia.
Qed.

(** C3, amended. In exact arithmetic, for every matrix with
    [a·d - b·c <> 0] and every point, [transform(p, M, M.invert())] is [p]
    exactly.  In binary64 the round trip returns [p] up to the sign of a
    zero coordinate, hence within [1e-6], for every integer matrix of
    determinant [1] or [-1] and every integer point with entries of
    magnitude at most [2^16]; and it is within [1e-6] for the sample of the
    specification, [M = Matrix(2,0,0,3,5,7)] and [p = Point(1,1)], and for
    every invertible matrix and every point with coordinates among
    [-2, -1, 0, 1, 2].  Elsewhere rounding can make it fail. *)
Theorem invert_round_trip :
  (forall (M : Matrix Rdefinitions.R) (p : Point Rdefinitions.R),
     determinant M <> Rdefinitions.IZR 0 ->
     transform p [M; Matrix_invert M] = p)
  /\ (forall a0 b0 c0 d0 e0 f0 x0 y0 : Z,
        small_integer a0 -> small_integer b0 -> small_integer c0 ->
        small_integer d0 -> small_integer e0 -> small_integer f0 ->
        small_integer x0 -> small_integer y0 ->
        unimodular a0 b0 c0 d0 ->
        let M := new_Matrix (of_Z a0) (of_Z b0) (of_Z c0) (of_Z d0)
                   (of_Z e0) (of_Z f0) in
        let p := new_Point (of_Z x0) (of_Z y0) in
        same_number (x (transform p [M; Matrix_invert M])) (x p)
        /\ same_number (y (transform p [M; Matrix_invert M])) (y p)
        /\ round_trip_within_1e_6 M p = true)
  /\ round_trip_within_1e_6 (new_Matrix 2 0 0 3 5 7)%float
       (new_Point 1 1)%float = true
  /\ round_trip_on_grid = true.
Proof.
  split; [| split; [| split]].
  - intros M p Hdet. now apply ExactLaws.exact_transform_invert.
  - exact unimodular_round_trip.
  - vm_compute. reflexivity.
  - vm_compute. reflexivity.
Qed.

(** The round trip of a quarter turn with a translation, on [(1, 1)]. *)
Lemma invert_round_trip_witness :
  let M := new_Matrix (of_Z 0) (of_Z 1) (of_Z (-1)) (of_Z 0) (of_Z 5) (of_Z 7) in
  let p := new_Point (of_Z 1) (of_Z 1) in
  unimodular 0 1 (-1) 0
  /\ same_number (x (transform p [M; Matrix_invert M])) (x p)
  /\ same_number (y (transform p [M; Matrix_invert M])) (y p)
  /\ round_trip_within_1e_6 M p = true.
Proof.
  cbv zeta.
  assert (Hu : unimodular 0 1 (-1) 0) by (left; reflexivity).
  split; [exact Hu |].
  apply (proj1 (proj2 invert_round_trip) 0 1 (-1) 0 5 7 1 1)%Z;
    try exact Hu; unfold small_integer; simpl; lia.
Defined.

(** ** [Matrix.getScale] *)

Section GetScale.

Local Open Scope float_scope.

Context {M : MathApprox float}.

Lemma getScale_guard (this : Matrix float) :
  Matrix_getScale this
  = if 0 <? getScale_maxScale this
    then abs (getScale_crossProduct this) / getScale_maxScale this
    else 0.
Proof. reflexivity. Qed.

Lemma getScale_vecA_uniform (k : float) :
  is_finite k = true -> (0 <? k) = true ->
  getScale_vecA (new_Matrix k 0 0 k 0 0) = new_Point 0 k.
Proof.
  intros Hf Hk. unfold getScale_vecA, transform.
  rewrite Array_reduce_fold_left. cbn. unfold transform_step. cbn.
  rewrite !mul_1_r, (mul_0_r_positive_finite k Hf Hk).
  change (0 * 0) with 0. change (0 + 0) with 0.
  now rewrite (add_0_l_positive k Hk), (add_0_r_positive k Hk).
Qed.

Lemma getScale_vecB_uniform (k : float) :
  is_finite k = true -> (0 <? k) = true ->
  getScale_vecB (new_Matrix k 0 0 k 0 0) = new_Point k 0.
Proof.
  intros Hf Hk. unfold getScale_vecB, transform.
  rewrite Array_reduce_fold_left. cbn. unfold transform_step. cbn.
  rewrite !mul_1_r, (mul_0_r_positive_finite k Hf Hk).
  change (0 * 0) with 0. change (0 * 1) with 0. change (0 + 0) with 0.
  now rewrite !(add_0_r_positive k Hk).
Qed.

Lemma getScale_uniform (k : float) :
  is_finite k = true -> (0 <? k) = true ->
  Math_hypot 0 k = k -> Math_hypot k 0 = k ->
  Matrix_getScale (new_Matrix k 0 0 k 0 0) = k * k / k.
Proof.
  intros Hf Hk H1 H2. rewrite getScale_guard.
  unfold getScale_maxScale, getScale_crossProduct.
  rewrite (getScale_vecA_uniform k Hf Hk), (getScale_vecB_uniform k Hf Hk).
  cbn [x y Math_max mul sub binary64]. rewrite H1, H2.
  rewrite (max_diag_positive k Hk), Hk.
  change (0 * 0) with 0. now rewrite sub_0_r, (abs_square_positive k Hk).
Qed.

Lemma getScale_zero_matrix :
  Math_hypot 0 0 = 0 -> Matrix_getScale (new_Matrix 0 0 0 0 0 0) = 0.
Proof.
  intro H. rewrite getScale_guard. unfold getScale_maxScale.
  change (getScale_vecA (new_Matrix 0 0 0 0 0 0)) with (new_Point 0 0).
  change (getScale_vecB (new_Matrix 0 0 0 0 0 0)) with (new_Point 0 0).
  cbn [x y Math_max binary64]. rewrite H. reflexivity.
Qed.

Lemma getScale_vectors_same (this : Matrix float) :
  Matrix_linear_is_finite this ->
  same_number (x (getScale_vecA this)) (c this)
  /\ same_number (y (getScale_vecA this)) (d this)
  /\ same_number (x (getScale_vecB this)) (a this)
  /\ same_number (y (getScale_vecB this)) (b this).
Proof.
  intros (Ha & Hb & Hc & Hd).
  unfold getScale_vecA, getScale_vecB, transform.
  rewrite !Array_reduce_fold_left. cbn. unfold transform_step. cbn.
  rewrite !mul_1_r. change (0 * 1) with 0.
  repeat split;
    (eapply same_number_trans; [apply add_zero_r_same; reflexivity |]);
    first [ apply add_zero_l_same; now apply mul_zero_r
          | apply add_zero_r_same; now apply mul_zero_r ].
Qed.

End GetScale.

Section IntegerClaims.

Local Open Scope float_scope.

Lemma square_quotient_of_Z (n : Z) :
  (1 <= n)%Z -> (n * n < 2 ^ 53)%Z ->
  of_Z n * of_Z n / of_Z n = of_Z n.
Proof.
  intros H1 Hsq.
  assert (Hs : safe_integer (n * n)) by (unfold safe_integer; lia).
  rewrite mul_of_Z by (assumption || lia).
  apply div_of_Z; (assumption || lia).
Qed.

Lemma getScale_uniform_integer {M : MathApprox float} (n : Z) :
  (1 <= n)%Z -> (n * n < 2 ^ 53)%Z ->
  Math_hypot 0 (of_Z n) = of_Z n -> Math_hypot (of_Z n) 0 = of_Z n ->
  Matrix_getScale (new_Matrix (of_Z n) 0 0 (of_Z n) 0 0) = of_Z n.
Proof.
  intros H1 Hsq Hh1 Hh2.
  assert (Hs : safe_integer n) by (unfold safe_integer; nia).
  rewrite getScale_uniform; try assumption.
  - now apply square_quotient_of_Z.
  - now apply is_finite_of_Z.
  - rewrite ltb_0_of_Z by exact Hs. apply Z.ltb_lt. lia.
Qed.

Lemma getScale_not_positive {M : MathApprox float} (this : Matrix float) :
  is_nan (getScale_maxScale this) = true
  \/ (getScale_maxScale this <=? 0) = true ->
  Matrix_getScale this = 0.
Proof.
  intro H. apply ltb_0_false in H. rewrite getScale_guard. now rewrite H.
Qed.

Lemma getScale_uniform_integer_sample (n : Z) :
  (1 <= n)%Z -> (n * n < 2 ^ 53)%Z ->
  @Matrix_getScale _ _ sample_math (new_Matrix (of_Z n) 0 0 (of_Z n) 0 0)
  = of_Z n.
Proof.
  intros H1 Hsq.
  assert (Hs : safe_integer n) by (unfold safe_integer; nia).
  assert (Hf : is_finite (of_Z n) = true) by now apply is_finite_of_Z.
  assert (Hp : (0 <? of_Z n) = true)
    by (rewrite ltb_0_of_Z by exact Hs; apply Z.ltb_lt; lia).
  apply (@getScale_uniform_integer sample_math); try assumption.
  - now apply Sample_hypot_0_l.
  - now apply Sample_hypot_0_r.
Qed.

End IntegerClaims.

(** C6, the inputs that refute it (with the sample [Math.hypot], for which
    the two lengths of [Matrix(0.1,0,0,0.1,0,0)] are [0.1] exactly): the
    uniform scale [0.1] comes back as [0.10000000000000002]; and a matrix
    with a NaN coefficient, whose [max(|vecA|, |vecB|)] is NaN and not [0],
    has scale [0] where the quotient is NaN. *)
Lemma getScale_uniform_not_exact :
  let k := 0.1%float in
  let Mnan := new_Matrix nan 0%float 0%float 1%float 0%float 0%float in
  (0 <? k)%float = true
  /\ Sample.hypot 0 k = k /\ Sample.hypot k 0 = k
  /\ @Matrix_getScale _ _ sample_math (new_Matrix k 0 0 k 0 0)%float
     = 0.10000000000000002%float
  /\ (@Matrix_getScale _ _ sample_math (new_Matrix k 0 0 k 0 0)%float =? k)%float
     = false
  /\ is_nan (@getScale_maxScale _ _ sample_math Mnan) = true
  /\ is_nan (abs (@getScale_crossProduct _ _ Mnan)
             / @getScale_maxScale _ _ sample_math Mnan)%float = true
  /\ @Matrix_getScale _ _ sample_math Mnan = 0%float.
Proof. cbv zeta. repeat split. Qed.

(** C6, amended. [getScale()] returns [|cross| / maxScale] when
    [maxScale > 0] and [0] otherwise, that is when [maxScale] is [0] and
    also when it is NaN ([cross] and [maxScale] computed from the images
    [vecA], [vecB] of [(0,1)] and [(1,0)], which are [(c,d)] and [(a,b)] up
    to the sign of zero when [a, b, c, d] are finite).  On the zero matrix
    it returns [0].  On [Matrix(k,0,0,k,0,0)] with [k] finite and positive,
    and [Math.hypot] exact on the two axis vectors, it returns the rounded
    [(k*k)/k]: this is [k] for every integer [k >= 1] with [k*k < 2^53]
    (with the sample [Math.hypot] too, which is exact on those vectors), and
    it is [k] for every [k > 0] in exact arithmetic. *)
Theorem getScale_minimal_scale :
  (forall (M : MathApprox float) (this : Matrix float),
     Matrix_getScale this
     = (if (0 <? getScale_maxScale this)%float
        then (abs (getScale_crossProduct this) / getScale_maxScale this)%float
        else 0%float)
     /\ (is_nan (getScale_maxScale this) = true
         \/ (getScale_maxScale this <=? 0)%float = true ->
         Matrix_getScale this = 0%float)
     /\ (Matrix_linear_is_finite this ->
         same_number (x (getScale_vecA this)) (c this)
         /\ same_number (y (getScale_vecA this)) (d this)
         /\ same_number (x (getScale_vecB this)) (a this)
         /\ same_number (y (getScale_vecB this)) (b this)))
  /\ (forall M : MathApprox float,
        Math_hypot 0%float 0%float = 0%float ->
        Matrix_getScale (new_Matrix 0 0 0 0 0 0)%float = 0%float)
  /\ (forall (M : MathApprox float) (k : float),
        is_finite k = true -> (0 <? k)%float = true ->
        Math_hypot 0%float k = k -> Math_hypot k 0%float = k ->
        Matrix_getScale (new_Matrix k 0 0 k 0 0)%float = (k * k / k)%float)
  /\ (forall (M : MathApprox float) (n : Z),
        (1 <= n)%Z -> (n * n < 2 ^ 53)%Z ->
        Math_hypot 0%float (of_Z n) = of_Z n ->
        Math_hypot (of_Z n) 0%float = of_Z n ->
        Matrix_getScale (new_Matrix (of_Z n) 0 0 (of_Z n) 0 0)%float = of_Z n)
  /\ (forall n : Z,
        (1 <= n)%Z -> (n * n < 2 ^ 53)%Z ->
        @Matrix_getScale _ _ sample_math
          (new_Matrix (of_Z n) 0 0 (of_Z n) 0 0)%float = of_Z n)
  /\ (forall k : Rdefinitions.R,
        Rdefinitions.Rlt (Rdefinitions.IZR 0) k ->
        Matrix_getScale
          (new_Matrix k (Rdefinitions.IZR 0) (Rdefinitions.IZR 0) k
             (Rdefinitions.IZR 0) (Rdefinitions.IZR 0)) = k).
Proof.
  split; [| split; [| split; [| split; [| split]]]].
  - intros M this. split; [| split].
    + apply getScale_guard.
    + apply getScale_not_positive.
    + apply getScale_vectors_same.
  - intro M. apply getScale_zero_matrix.
  - intros M k. apply getScale_uniform.
  - intros M n. apply getScale_uniform_integer.
  - exact getScale_uniform_integer_sample.
  - exact ExactLaws.exact_getScale_uniform.
Qed.

(** The uniform scale [3]. *)
Lemma getScale_minimal_scale_witness :
  (1 <= 3)%Z /\ (3 * 3 < 2 ^ 53)%Z
  /\ @Matrix_getScale _ _ sample_math
       (new_Matrix (of_Z 3) 0 0 (of_Z 3) 0 0)%float = of_Z 3.
Proof.
  assert (H1 : (1 <= 3)%Z) by lia.
  assert (H2 : (3 * 3 < 2 ^ 53)%Z) by reflexivity.
  split; [exact H1 |]. split; [exact H2 |].
  exact (proj1 (proj2 (proj2 (proj2 (proj2 getScale_minimal_scale)))) 3%Z H1 H2).
Defined.

(** * Further properties of the module *)

(** ** Binary64: what a finite result says about the operands *)

Section Binary64Finite.

Local Open Scope float_scope.

Lemma sub_finite_inv (u v : float) :
  is_finite (u - v) = true -> is_finite u = true /\ is_finite v = true.
Proof.
  rewrite !is_finite_spec, sub_spec.
  destruct (Prim2SF u) as [su | su | | su mu eu],
           (Prim2SF v) as [sv | sv | | sv mv ev];
    cbn [SF64sub SFsub SF_is_finite]; try (intro; split; reflexivity);
    try discriminate.
  - destruct su, sv; discriminate.
Qed.

Lemma ltb_abs_finite (w bound : float) :
  (abs w <? bound) = true -> is_finite w = true.
Proof.
  rewrite is_finite_spec, ltb_spec, abs_spec.
  destruct (Prim2SF w) as [sw | sw | | sw mw ew];
    cbn [SFabs SF_is_finite]; try reflexivity;
    unfold SFltb, SFcompare; destruct (Prim2SF bound) as [sb | [] | | sb mb eb];
    discriminate.
Qed.

End Binary64Finite.

(** ** [Point.equals] only ever holds between finite points *)

Section PointEqualsFinite.

Local Open Scope float_scope.

Lemma Point_equals_coordinate (u v : float) :
  (abs (u - v) <? 1e-8) = true -> is_finite u = true /\ is_finite v = true.
Proof. intro H. apply sub_finite_inv. exact (ltb_abs_finite _ _ H). Qed.

(** X1. [p.equals(q)] holds only between points whose four coordinates
    are all finite: a NaN or an infinite coordinate in either point makes
    the result [false]. *)
Theorem Point_equals_only_finite (p q : Point float) :
  Point_equals p q = true ->
  is_finite (x p) = true /\ is_finite (y p) = true
  /\ is_finite (x q) = true /\ is_finite (y q) = true.
Proof.
  unfold Point_equals. cbn [Math_abs sub binary64 lt lit_1e_8].
  intro H. apply andb_prop in H. destruct H as [Hx Hy].
  apply Point_equals_coordinate in Hx. apply Point_equals_coordinate in Hy.
  tauto.
Qed.

(** Two points [0.5e-8] apart. *)
Lemma Point_equals_only_finite_witness :
  let p := new_Point 0 0 in
  let q := new_Point 0 0.5e-8 in
  Point_equals p q = true
  /\ is_finite (x p) = true /\ is_finite (y p) = true
  /\ is_finite (x q) = true /\ is_finite (y q) = true.
Proof.
  cbv zeta.
  assert (H : Point_equals (new_Point 0 0) (new_Point 0 0.5e-8) = true)
    by reflexivity.
  split; [exact H |].
  exact (Point_equals_only_finite (new_Point 0 0) (new_Point 0 0.5e-8) H).
Defined.

End PointEqualsFinite.

(** ** [distance] does not depend on the order of the two points *)

Section DistanceSymmetric.

Local Open Scope float_scope.

Lemma mul_abs_self (z : float) : abs z * abs z = z * z.
Proof.
  apply Prim2SF_inj. rewrite !mul_spec, abs_spec.
  destruct (Prim2SF z) as [[] | [] | | [] m e]; reflexivity.
Qed.

Lemma Sample_pow_2 (z : float) : Sample.pow z 2 = z * z.
Proof. reflexivity. Qed.

Lemma Sample_pow_even (z : float) : Sample.pow z 2 = Sample.pow (abs z) 2.
Proof. now rewrite !Sample_pow_2, mul_abs_self. Qed.

(** X2. [distance(p1, p2)] is [distance(p2, p1)], bit for bit, for every
    pair of points (NaN and infinite coordinates included), as soon as
    [Math.pow(z, 2)] does not depend on the sign of [z]. *)
Theorem distance_symmetric (M : MathApprox float) (T1 T2 : Type)
    (I1 : IPoint float T1) (I2 : IPoint float T2) (p1 : T1) (p2 : T2) :
  (forall z : float, Math_pow z 2 = Math_pow (abs z) 2) ->
  distance p1 p2 = distance p2 p1.
Proof.
  intro Heven. unfold distance. cbn [Math_sqrt add sub lit_2 binary64].
  rewrite (Heven (IPoint_x p2 - IPoint_x p1)),
          (Heven (IPoint_y p2 - IPoint_y p1)),
          (Heven (IPoint_x p1 - IPoint_x p2)),
          (Heven (IPoint_y p1 - IPoint_y p2)).
  now rewrite (abs_sub_comm (IPoint_x p2)), (abs_sub_comm (IPoint_y p2)).
Qed.

(** With the sample [Math.pow], between a [Point] and an object literal. *)
Lemma distance_symmetric_witness :
  (forall z : float, Sample.pow z 2 = Sample.pow (abs z) 2)
  /\ @distance _ _ sample_math _ _ _ _ (new_Point 1 2) (obj 4 6)
     = @distance _ _ sample_math _ _ _ _ (obj 4 6) (new_Point 1 2).
Proof.
  split; [exact Sample_pow_even |].
  exact (distance_symmetric sample_math _ _ _ _ (new_Point 1 2) (obj 4 6)
           Sample_pow_even).
Defined.

End DistanceSymmetric.

(** ** [floorMod]: when the result is NaN *)

Section FloorModNaN.

Local Open Scope float_scope.

Lemma rem_zero_r (n m : float) : is_zero m = true -> JS.rem n m = nan.
Proof.
  rewrite is_zero_spec. unfold JS.rem. intro H.
  destruct (Prim2SF m) as [sm | sm | | sm mm em]; try discriminate.
  destruct (Prim2SF n) as [sn | sn | | sn mn en]; reflexivity.
Qed.

Lemma add_not_finite_l (u v : float) :
  is_finite u = false -> is_finite (u + v) = false.
Proof.
  rewrite !is_finite_spec, add_spec.
  destruct (Prim2SF u) as [su | su | | su mu eu]; try discriminate; intros _;
    destruct (Prim2SF v) as [sv | sv | | sv mv ev]; try reflexivity.
  destruct su, sv; reflexivity.
Qed.

Lemma add_not_finite_r (u v : float) :
  is_finite v = false -> is_finite (u + v) = false.
Proof.
  rewrite !is_finite_spec, add_spec.
  destruct (Prim2SF v) as [sv | sv | | sv mv ev]; try discriminate; intros _;
    destruct (Prim2SF u) as [su | su | | su mu eu]; try reflexivity.
  destruct su, sv; reflexivity.
Qed.

Lemma is_finite_nan : is_finite nan = false.
Proof. reflexivity. Qed.

Lemma floorMod_nan (n maxNum : float) :
  is_finite n = false \/ is_finite maxNum = false \/ is_zero maxNum = true ->
  floorMod n maxNum = nan.
Proof.
  intro H. apply floorMod_overflowed. destruct H as [H | [H | H]].
  - rewrite (rem_not_finite _ _ H). now apply add_not_finite_l.
  - now apply add_not_finite_r.
  - rewrite (rem_zero_r _ _ H). now apply add_not_finite_l.
Qed.

Lemma floorMod_finite (n maxNum : float) :
  is_finite maxNum = true -> is_zero maxNum = false ->
  is_finite (JS.rem n maxNum + maxNum) = true ->
  is_finite (floorMod n maxNum) = true.
Proof.
  intros Hm Hz Hs.
  change (floorMod n maxNum) with (JS.rem (JS.rem n maxNum + maxNum) maxNum).
  rewrite is_finite_spec in Hm. rewrite is_zero_spec in Hz.
  destruct (Prim2SF maxNum) as [sm | sm | | sm mm em] eqn:E; try discriminate.
  destruct (rem_finite _ _ _ _ _ E Hs) as [[Hf _] _].
  now rewrite is_finite_spec.
Qed.


(** X3. [floorMod] returns NaN whenever [num] is NaN or infinite, or
    [maxNum] is zero, NaN or infinite; it returns a finite number whenever
    [maxNum] is finite and not zero and the sum [(num % maxNum) + maxNum]
    has not overflowed; and it never returns an infinity. *)
Theorem floorMod_nan_or_finite (n maxNum : float) :
  (is_finite n = false \/ is_finite maxNum = false \/ is_zero maxNum = true ->
   floorMod n maxNum = nan)
  /\ (is_finite maxNum = true -> is_zero maxNum = false ->
      is_finite (JS.rem n maxNum + maxNum) = true ->
      is_finite (floorMod n maxNum) = true)
  /\ (floorMod n maxNum = nan \/ is_finite (floorMod n maxNum) = true).
Proof.
  split; [apply floorMod_nan | split; [apply floorMod_finite |]].
  destruct (is_finite (JS.rem n maxNum + maxNum)) eqn:Hs.
  - right. destruct (is_finite maxNum) eqn:Hm.
    + destruct (is_zero maxNum) eqn:Hz.
      * rewrite (rem_zero_r _ _ Hz) in Hs.
        now rewrite (add_not_finite_l _ _ is_finite_nan) in Hs.
      * now apply floorMod_finite.
    + now rewrite (add_not_finite_r _ _ Hm) in Hs.
  - left. now apply floorMod_overflowed.
Qed.

(** A modulus of zero. *)
Lemma floorMod_nan_or_finite_witness :
  (is_finite 7 = false \/ is_finite 0 = false \/ is_zero 0 = true)
  /\ floorMod 7 0 = nan.
Proof.
  assert (H : is_finite 7 = false \/ is_finite 0 = false \/ is_zero 0 = true)
    by (right; right; reflexivity).
  split; [exact H |].
  exact (proj1 (floorMod_nan_or_finite 7 0) H).
Defined.

End FloorModNaN.

(** ** [floorMod] on safe integers, for a modulus of either sign *)

Section FloorModIntegers.

Local Open Scope Z_scope.

Lemma rem_plus_modulus_any n d :
  d <> 0 -> Z.rem (Z.rem n d + d) d = n mod d.
Proof.
  intro Hd. destruct (Z.lt_ge_cases 0 d) as [Hpos | Hneg].
  - now apply rem_plus_modulus.
  - assert (Hd' : 0 < - d) by lia.
    pose proof (rem_plus_modulus (- n) (- d) Hd') as H.
    rewrite Z.rem_opp_opp in H by lia.
    replace (- Z.rem n d + - d) with (- (Z.rem n d + d)) in H by lia.
    rewrite Z.rem_opp_opp, Z.mod_opp_opp in H by lia.
    lia.
Qed.

Lemma same_number_sym (u v : float) : same_number u v -> same_number v u.
Proof. intros [H | [H1 H2]]; [left; now symmetry | right; now split]. Qed.

Lemma same_number_signed_zero_or (u : float) (sz : bool) (z : Z) :
  safe_integer z -> Prim2SF u = SF_signed_zero_or sz z ->
  same_number u (of_Z z).
Proof.
  intros Hz Hu. apply same_number_spec. rewrite Hu, (Prim2SF_of_Z z Hz).
  destruct z; [apply SF_same_zero | apply SF_same_refl | apply SF_same_refl].
Qed.

Lemma floorMod_of_Z_same n d :
  safe_integer n -> d <> 0 -> Z.abs d <= 2 ^ 52 ->
  same_number (floorMod (of_Z n) (of_Z d)) (of_Z (n mod d)).
Proof.
  intros Hn Hd0 Hd.
  assert (Sd : safe_integer d) by (unfold safe_integer; lia).
  pose proof (Z.rem_bound_abs n d Hd0) as Hb.
  assert (Ssum : safe_integer (Z.rem n d + d)) by (unfold safe_integer; lia).
  unfold floorMod. cbn [rem add binary64].
  assert (Hsum : (JS.rem (of_Z n) (of_Z d) + of_Z d)%float
                 = of_Z (Z.rem n d + d)).
  { apply Prim2SF_inj.
    rewrite add_spec, Prim2SF_rem_of_Z, !Prim2SF_of_Z by assumption.
    pose proof (safe_integer_rem n d Hn) as Sr.
    revert Sr Ssum. clear Hb.
    destruct (Z.rem n d) as [ | r | r]; intros Sr Ssum;
      cbn [SF_signed_zero_or].
    - destruct d; try lia; now destruct (n <? 0).
    - now apply SFadd_of_Z.
    - now apply SFadd_of_Z. }
  rewrite Hsum, <- (rem_plus_modulus_any n d Hd0).
  apply (same_number_signed_zero_or _ (Z.rem n d + d <? 0)).
  - now apply safe_integer_rem.
  - now apply Prim2SF_rem_of_Z.
Qed.

Lemma rem_same_l (u u' m : float) :
  same_number u u' -> same_number (JS.rem u m) (JS.rem u' m).
Proof.
  intros [-> | [H1 H2]]; [apply same_number_refl |].
  rewrite is_zero_spec in H1, H2. unfold JS.rem.
  destruct (Prim2SF u) as [su | su | | su mu eu]; try discriminate.
  destruct (Prim2SF u') as [su' | su' | | su' mu' eu']; try discriminate.
  destruct (Prim2SF m) as [sm | sm | | sm mm em]; cbn [JS.SFrem];
    try apply same_number_refl;
    right; destruct su, su'; split; reflexivity.
Qed.

Lemma floorMod_same_l (u u' m : float) :
  same_number u u' -> same_number (floorMod u m) (floorMod u' m).
Proof.
  intro H. unfold floorMod. cbn [rem add binary64].
  apply rem_same_l, add_same; [now apply rem_same_l | apply same_number_refl].
Qed.

(** X4. On integers the result of [floorMod] is the floor modulus for a
    modulus of either sign: for a safe integer [n] and an integer [d] with
    [0 < |d| <= 2^52], [floorMod(n, d)] is [n mod d] (which has the sign of
    [d]), up to the sign of a zero result.  So applying [floorMod] twice
    gives the same as once, and adding a multiple of [d] to [n] does not
    change the result. *)
Theorem floorMod_integers (n d : Z) :
  safe_integer n -> d <> 0 -> Z.abs d <= 2 ^ 52 ->
  same_number (floorMod (of_Z n) (of_Z d)) (of_Z (n mod d))
  /\ same_number (floorMod (floorMod (of_Z n) (of_Z d)) (of_Z d))
       (floorMod (of_Z n) (of_Z d))
  /\ forall k : Z,
       safe_integer (n + k * d) ->
       same_number (floorMod (of_Z (n + k * d)) (of_Z d))
         (floorMod (of_Z n) (of_Z d)).
Proof.
  intros Hn Hd0 Hd.
  pose proof (floorMod_of_Z_same n d Hn Hd0 Hd) as H1.
  assert (Sr : safe_integer (n mod d)).
  { unfold safe_integer.
    destruct (Z.lt_ge_cases 0 d) as [Hpos | Hneg].
    - pose proof (Z.mod_pos_bound n d Hpos). lia.
    - pose proof (Z.mod_neg_bound n d ltac:(lia)). lia. }
  split; [exact H1 | split].
  - eapply same_number_trans; [apply floorMod_same_l, H1 |].
    eapply same_number_trans; [apply floorMod_of_Z_same; assumption |].
    rewrite Z.mod_mod by exact Hd0. now apply same_number_sym.
  - intros k Hk.
    eapply same_number_trans; [apply floorMod_of_Z_same; assumption |].
    rewrite Z.mod_add by exact Hd0. now apply same_number_sym.
Qed.

(** [floorMod(7, -5)] is [-3]. *)
Lemma floorMod_integers_witness :
  safe_integer 7 /\ -5 <> 0 /\ Z.abs (-5) <= 2 ^ 52
  /\ same_number (floorMod (of_Z 7) (of_Z (-5))) (of_Z (7 mod -5))
  /\ floorMod 7%float (-5)%float = (-3)%float.
Proof.
  assert (H1 : safe_integer 7) by reflexivity.
  assert (H2 : -5 <> 0) by discriminate.
  assert (H3 : Z.abs (-5) <= 2 ^ 52) by (cbn; lia).
  split; [exact H1 |]. split; [exact H2 |]. split; [exact H3 |].
  split; [| reflexivity].
  exact (proj1 (floorMod_integers 7 (-5) H1 H2 H3)).
Defined.

End FloorModIntegers.

(** ** [floorMod] with a negative modulus, on all finite numbers *)

Section FloorModNegative.

Local Open Scope Z_scope.

Lemma SFadd_negative u v :
  SF_finite_valid u -> SF_finite_valid v ->
  SF_value u + SF_value v < 0 ->
  let r := SF64add u v in
  r = S754_nan \/ r = S754_zero true \/ r = S754_infinity true
  \/ exists m e, r = S754_finite true m e.
Proof.
  intros [Fu Vu] [Fv Vv] Hneg. cbv zeta.
  destruct u as [su | su | | su mu eu]; try discriminate;
  destruct v as [sv | sv | | sv mv ev]; try discriminate;
    cbn [SF_value valid_binary] in *; try lia.
  - destruct (bounded_facts mv ev Vv) as (He & _).
    destruct sv; cbn [cond_Zopp] in Hneg.
    + cbn. eauto 6.
    + assert (0 <= Zpos mv * 2 ^ (ev - emin))
        by (apply Z.mul_nonneg_nonneg; [lia | apply Z.pow_nonneg; lia]). lia.
  - destruct (bounded_facts mu eu Vu) as (He & _).
    destruct su; cbn [cond_Zopp] in Hneg.
    + cbn. eauto 6.
    + assert (0 <= Zpos mu * 2 ^ (eu - emin))
        by (apply Z.mul_nonneg_nonneg; [lia | apply Z.pow_nonneg; lia]). lia.
  - destruct (bounded_facts mu eu Vu) as (Heu & _).
    destruct (bounded_facts mv ev Vv) as (Hev & _).
    unfold SF64add, SFadd.
    set (ez := Z.min eu ev).
    assert (Hez : emin <= ez <= eu /\ ez <= ev) by (unfold ez; lia).
    pose proof (shl_align_value mu eu ez ltac:(lia)) as Hvu.
    pose proof (shl_align_value mv ev ez ltac:(lia)) as Hvv.
    set (zu := fst (shl_align mu eu ez)) in *.
    set (zv := fst (shl_align mv ev ez)) in *.
    assert (Hp : 0 < 2 ^ (ez - emin)) by (apply Z.pow_pos_nonneg; lia).
    assert (Hsum : cond_Zopp su (Zpos zu) + cond_Zopp sv (Zpos zv) < 0).
    { rewrite <- Hvu, <- Hvv, !cond_Zopp_mul, <- Z.mul_add_distr_r in Hneg.
      nia. }
    destruct (cond_Zopp su (Zpos zu) + cond_Zopp sv (Zpos zv))
      as [ | sigma | sigma]; try lia.
    cbn [binary_normalize]. apply binary_round_cases.
Qed.

Lemma ltb_0_r_true_cases (k : float) :
  (k <? 0)%float = true ->
  Prim2SF k = S754_infinity true \/ exists m e, Prim2SF k = S754_finite true m e.
Proof.
  rewrite ltb_spec, Prim2SF_0. unfold SFltb.
  destruct (Prim2SF k) as [s | [|] | | [|] m e]; cbn; try discriminate; eauto.
Qed.

Lemma SF_value_negative m md ed :
  Prim2SF m = S754_finite true md ed -> SF_value (Prim2SF m) < 0.
Proof.
  intro Em. pose proof (Prim2SF_valid m) as Vm. rewrite Em in *.
  cbn [valid_binary SF_value cond_Zopp] in *.
  destruct (bounded_facts md ed Vm) as (He & _).
  assert (0 < Zpos md * 2 ^ (ed - emin))
    by (apply Z.mul_pos_pos; [lia | apply Z.pow_pos_nonneg; lia]).
  lia.
Qed.

Lemma rem_bound_nonpos a b : a <= 0 -> b < 0 -> b < Z.rem a b <= 0.
Proof.
  intros Ha Hb.
  pose proof (Z.rem_bound_pos (- a) (- b) ltac:(lia) ltac:(lia)) as H.
  rewrite Z.rem_opp_opp in H by lia. lia.
Qed.

(** X5. For a negative [maxNum] and any [num], whenever the sum
    [(num % maxNum) + maxNum] has not overflowed, [floorMod(num, maxNum)]
    lies in the half-open interval [(maxNum, 0]]: the result takes the sign
    of the modulus. *)
Theorem floorMod_negative_modulus (n maxNum : float) :
  (maxNum <? 0)%float = true ->
  is_finite (JS.rem n maxNum + maxNum)%float = true ->
  (maxNum <? floorMod n maxNum)%float = true
  /\ (floorMod n maxNum <=? 0)%float = true.
Proof.
  intros Hm Hfin. unfold floorMod. cbn [rem add binary64].
  destruct (ltb_0_r_true_cases maxNum Hm) as [Em | (md & ed & Em)].
  { exfalso. rewrite add_not_finite_r in Hfin; [discriminate |].
    rewrite is_finite_spec, Em. reflexivity. }
  pose proof (SF_value_negative maxNum md ed Em) as Hneg.
  assert (Fm : SF_finite_valid (Prim2SF maxNum)).
  { apply SF_finite_valid_Prim2SF. rewrite is_finite_spec, Em. reflexivity. }
  destruct (is_finite n) eqn:Hn.
  2:{ exfalso. rewrite (rem_not_finite n maxNum Hn) in Hfin.
      rewrite is_finite_spec, add_spec in Hfin. discriminate. }
  destruct (rem_finite n maxNum true md ed Em Hn) as (F1 & V1).
  set (r1 := JS.rem n maxNum) in *.
  pose proof (Z.rem_bound_abs (SF_value (Prim2SF n)) (SF_value (Prim2SF maxNum))
                ltac:(lia)) as Hb1.
  rewrite <- V1 in Hb1.
  assert (Hsum : SF_value (Prim2SF (r1 + maxNum)%float) <= 0).
  { pose proof (SFadd_negative (Prim2SF r1) (Prim2SF maxNum) F1 Fm
                  ltac:(lia)) as Hc.
    cbv zeta in Hc. rewrite <- add_spec in Hc.
    rewrite is_finite_spec in Hfin.
    destruct Hc as [E | [E | [E | (ms & es & E)]]]; rewrite E in *;
      try discriminate; cbn [SF_value cond_Zopp]; lia. }
  destruct (rem_finite (r1 + maxNum)%float maxNum true md ed Em Hfin)
    as (F2 & V2).
  pose proof (rem_bound_nonpos (SF_value (Prim2SF (r1 + maxNum)%float))
                (SF_value (Prim2SF maxNum)) Hsum Hneg) as Hb2.
  rewrite <- V2 in Hb2.
  rewrite leb_spec, ltb_spec, Prim2SF_0. unfold SFleb, SFltb.
  rewrite !SFcompare_value; try assumption; [| now split].
  cbn [SF_value]. split.
  - destruct (Z.compare_spec (SF_value (Prim2SF maxNum))
                (SF_value (Prim2SF (JS.rem (r1 + maxNum)%float maxNum))));
      try reflexivity; lia.
  - destruct (Z.compare_spec (SF_value (Prim2SF (JS.rem (r1 + maxNum)%float maxNum))) 0);
      try reflexivity; lia.
Qed.

End FloorModNegative.

Section FloorModNegativeSample.

Local Open Scope float_scope.

(** [floorMod(7.5, -2)] is [-0.5]. *)
Lemma floorMod_negative_modulus_witness :
  (-2 <? 0) = true /\ is_finite (JS.rem 7.5 (-2) + -2) = true
  /\ (-2 <? floorMod 7.5 (-2)) = true /\ (floorMod 7.5 (-2) <=? 0) = true
  /\ floorMod 7.5 (-2) = -0.5.
Proof.
  assert (H1 : (-2 <? 0) = true) by reflexivity.
  assert (H2 : is_finite (JS.rem 7.5 (-2) + -2) = true) by reflexivity.
  split; [exact H1 |]. split; [exact H2 |].
  pose proof (floorMod_negative_modulus 7.5 (-2) H1 H2) as R.
  split; [exact (proj1 R) |]. split; [exact (proj2 R) | reflexivity].
Defined.

End FloorModNegativeSample.

(** ** [lerp] *)

Module ExactLerp.

Import Stdlib.Reals.Reals Stdlib.micromega.Lra.
Local Open Scope R_scope.

Lemma exact_lerp_1 (a b : R) : a + (b - a) * 1 = b.
Proof. lra. Qed.

End ExactLerp.

Section Lerp.

Local Open Scope float_scope.

Lemma lerp_unfold (a b t : float) : lerp a b t = a + (b - a) * t.
Proof. reflexivity. Qed.


Lemma lerp_at_1 (a b : float) : lerp a b 1 = a + (b - a).
Proof. now rewrite lerp_unfold, mul_1_r. Qed.


Lemma lerp_of_Z (a b t : Z) :
  safe_integer a -> safe_integer b -> safe_integer t ->
  safe_integer (b - a) -> safe_integer ((b - a) * t) ->
  safe_integer (a + (b - a) * t) ->
  same_number (lerp (of_Z a) (of_Z b) (of_Z t)) (of_Z (a + (b - a) * t)).
Proof.
  intros Sa Sb St Sd Sp Ss.
  rewrite lerp_unfold, sub_of_Z by assumption.
  rewrite <- (add_of_Z a ((b - a) * t)) by assumption.
  apply add_same; [apply same_number_refl | now apply mul_of_Z_same].
Qed.

Lemma lerp_of_Z_at_1 (a b : Z) :
  safe_integer a -> safe_integer b -> safe_integer (b - a) ->
  lerp (of_Z a) (of_Z b) 1 = of_Z b.
Proof.
  intros Sa Sb Sd.
  rewrite lerp_at_1, sub_of_Z, add_of_Z by
    (assumption || (replace (a + (b - a))%Z with b by lia; assumption)).
  f_equal. lia.
Qed.



(** X7. [lerp(a, b, 1)] is [a + (b - a)] with its two roundings, which
    need not be [b]: [lerp(0.3, 0.9, 1)] is [0.9000000000000001], above [b].
    On integers [lerp] is exact as long as every intermediate result is a
    safe integer, so that [lerp(a, b, 1)] is [b] for safe integers whose
    difference is safe; and in exact arithmetic [lerp(a, b, 1)] is [b]. *)
Theorem lerp_end :
  (forall a b : float, lerp a b 1 = a + (b - a))
  /\ (lerp 0.3 0.9 1 = 0.9000000000000001
      /\ (0.9 <? lerp 0.3 0.9 1) = true)
  /\ (forall a b t : Z,
        safe_integer a -> safe_integer b -> safe_integer t ->
        safe_integer (b - a) -> safe_integer ((b - a) * t) ->
        safe_integer (a + (b - a) * t) ->
        same_number (lerp (of_Z a) (of_Z b) (of_Z t))
          (of_Z (a + (b - a) * t)))
  /\ (forall a b : Z,
        safe_integer a -> safe_integer b -> safe_integer (b - a) ->
        lerp (of_Z a) (of_Z b) 1 = of_Z b)
  /\ (forall a b : Rdefinitions.R, lerp a b (Rdefinitions.IZR 1) = b).
Proof.
  split; [exact lerp_at_1 |].
  split; [split; reflexivity |].
  split; [exact lerp_of_Z |].
  split; [exact lerp_of_Z_at_1 |].
  intros a b. unfold lerp. cbn [add sub mul exact]. apply ExactLerp.exact_lerp_1.
Qed.

(** From [-7] to [12]. *)
Lemma lerp_end_witness :
  safe_integer (-7) /\ safe_integer 12 /\ safe_integer (12 - -7)
  /\ lerp (of_Z (-7)) (of_Z 12) 1 = of_Z 12.
Proof.
  assert (H1 : safe_integer (-7)) by reflexivity.
  assert (H2 : safe_integer 12) by reflexivity.
  assert (H3 : safe_integer (12 - -7)) by reflexivity.
  split; [exact H1 |]. split; [exact H2 |]. split; [exact H3 |].
  exact (proj1 (proj2 (proj2 (proj2 lerp_end))) (-7)%Z 12%Z H1 H2 H3).
Defined.

End Lerp.

(** ** [Matrix.invert] of a singular matrix *)

Section InvertSingular.

Local Open Scope float_scope.

Lemma is_zero_abs (w : float) : is_zero (abs w) = is_zero w.
Proof.
  rewrite !is_zero_spec, abs_spec.
  now destruct (Prim2SF w) as [sw | sw | | sw mw ew].
Qed.

Lemma is_nan_abs (w : float) : is_nan (abs w) = is_nan w.
Proof.
  rewrite !is_nan_spec, abs_spec.
  now destruct (Prim2SF w) as [sw | sw | | sw mw ew].
Qed.

Lemma is_zero_sub_comm (u v : float) : is_zero (u - v) = is_zero (v - u).
Proof. now rewrite <- is_zero_abs, abs_sub_comm, is_zero_abs. Qed.

Lemma is_nan_sub_comm (u v : float) : is_nan (u - v) = is_nan (v - u).
Proof. now rewrite <- is_nan_abs, abs_sub_comm, is_nan_abs. Qed.

Lemma div_zero_not_finite (u z : float) :
  is_zero z = true -> is_finite (u / z) = false.
Proof.
  rewrite is_zero_spec, is_finite_spec, div_spec.
  destruct (Prim2SF z) as [sz | sz | | sz mz ez]; try discriminate; intros _.
  now destruct (Prim2SF u) as [su | su | | su mu eu].
Qed.

Lemma div_nan_not_finite (u z : float) :
  is_nan z = true -> is_finite (u / z) = false.
Proof.
  rewrite is_nan_spec, is_finite_spec, div_spec.
  destruct (Prim2SF z) as [sz | sz | | sz mz ez]; try discriminate; intros _.
  now destruct (Prim2SF u) as [su | su | | su mu eu].
Qed.

Lemma div_singular_not_finite (u z : float) :
  is_zero z = true \/ is_nan z = true -> is_finite (u / z) = false.
Proof.
  intros [H | H]; [now apply div_zero_not_finite | now apply div_nan_not_finite].
Qed.

(** X8. [invert()] never fails: when the determinant [a*d - b*c], as
    computed, is zero or NaN, all six coefficients of the result are
    infinite or NaN. *)
Theorem invert_singular (M : Matrix float) :
  is_zero (determinant M) = true \/ is_nan (determinant M) = true ->
  is_finite (a (Matrix_invert M)) = false
  /\ is_finite (b (Matrix_invert M)) = false
  /\ is_finite (c (Matrix_invert M)) = false
  /\ is_finite (d (Matrix_invert M)) = false
  /\ is_finite (e (Matrix_invert M)) = false
  /\ is_finite (f (Matrix_invert M)) = false.
Proof.
  unfold determinant, Matrix_invert.
  cbn [a b c d e f mul sub div binary64].
  intro H.
  assert (H' : is_zero (b M * c M - a M * d M) = true
               \/ is_nan (b M * c M - a M * d M) = true)
    by now rewrite is_zero_sub_comm, is_nan_sub_comm.
  repeat split; now apply div_singular_not_finite.
Qed.

(** A matrix of rank one. *)
Lemma invert_singular_witness :
  let M := new_Matrix 1 2 2 4 5 7 in
  (is_zero (determinant M) = true \/ is_nan (determinant M) = true)
  /\ is_finite (a (Matrix_invert M)) = false
  /\ is_finite (e (Matrix_invert M)) = false.
Proof.
  cbv zeta.
  assert (H : is_zero (determinant (new_Matrix 1 2 2 4 5 7)) = true
              \/ is_nan (determinant (new_Matrix 1 2 2 4 5 7)) = true)
    by (left; reflexivity).
  split; [exact H |].
  pose proof (invert_singular (new_Matrix 1 2 2 4 5 7) H) as R.
  split; [exact (proj1 R) |].
  exact (proj1 (proj2 (proj2 (proj2 (proj2 R))))).
Defined.

End InvertSingular.

(** ** Binary64: division by [1] and by [-1] is exact *)

Section DivisionByUnit.

Local Open Scope Z_scope.

Lemma SFdiv_unit s m e sb :
  bounded prec emax m e = true ->
  SF64div (S754_finite s m e) (S754_finite sb 4503599627370496 (-52))
  = S754_finite (xorb s sb) m e.
Proof.
  intro Hb. pose proof (bounded_facts m e Hb) as (He & Hd & Hn).
  pose proof (Pos2Z.is_pos (digits2_pos m)) as Hpos.
  unfold SF64div, SFdiv, SFdiv_core_binary. cbn [Zdigits2].
  change (Zpos (digits2_pos 4503599627370496)) with 53.
  destruct (Z.eq_dec e emin) as [E | E].
  - replace (Z.min (fexp prec emax (Zpos (digits2_pos m) + e - (53 + -52)))
                   (e - -52)) with e
      by (unfold fexp, SpecFloat.emin, emin, prec, emax in *; lia).
    replace (e - -52 - e) with 52 by lia. cbv iota.
    rewrite Z.shiftl_mul_pow2 by lia.
    change (2 ^ 52) with 4503599627370496.
    rewrite div_eucl_exact by lia. rewrite new_location_0.
    change (Zpos m) with (Zpos (Pos.shiftl_nat m 0)).
    replace e with (e - Z.of_nat 0) at 1 by (cbn; lia).
    now apply binary_round_aux_exact.
  - assert (Hd53 : Zpos (digits2_pos m) = 53)
      by (apply Hn; unfold SpecFloat.emin, emin, prec, emax in *; lia).
    rewrite Hd53.
    replace (Z.min (fexp prec emax (53 + e - (53 + -52))) (e - -52))
      with (e - 1)
      by (unfold fexp, SpecFloat.emin, emin, prec, emax in *; lia).
    replace (e - -52 - (e - 1)) with 53 by lia. cbv iota.
    rewrite Z.shiftl_mul_pow2 by lia.
    replace (Zpos m * 2 ^ 53) with (Zpos m * 2 * 4503599627370496) by lia.
    rewrite div_eucl_exact by lia. rewrite new_location_0.
    replace (Zpos m * 2) with (Zpos (Pos.shiftl_nat m 1))
      by (cbn [Pos.shiftl_nat Nat.iter nat_rect]; lia).
    change (e - 1) with (e - Z.of_nat 1).
    now apply binary_round_aux_exact.
Qed.

End DivisionByUnit.

Section DivisionByUnitFloat.

Local Open Scope float_scope.

Lemma Prim2SF_m1 : Prim2SF (-1) = S754_finite true 4503599627370496 (-52).
Proof. reflexivity. Qed.

Lemma div_1_r (u : float) : u / 1 = u.
Proof.
  apply Prim2SF_inj. rewrite div_spec, Prim2SF_1.
  pose proof (Prim2SF_valid u) as V.
  destruct (Prim2SF u) as [s | s | | s m e].
  - cbn [SF64div SFdiv]. now rewrite xorb_false_r.
  - cbn [SF64div SFdiv]. now rewrite xorb_false_r.
  - reflexivity.
  - rewrite SFdiv_unit by exact V. now rewrite xorb_false_r.
Qed.

Lemma div_m1_r (u : float) : u / (-1) = - u.
Proof.
  apply Prim2SF_inj. rewrite div_spec, opp_spec, Prim2SF_m1.
  pose proof (Prim2SF_valid u) as V.
  destruct (Prim2SF u) as [s | s | | s m e].
  - cbn [SF64div SFdiv SFopp]. now rewrite xorb_true_r.
  - cbn [SF64div SFdiv SFopp]. now rewrite xorb_true_r.
  - reflexivity.
  - rewrite SFdiv_unit by exact V. cbn [SFopp]. now rewrite xorb_true_r.
Qed.

End DivisionByUnitFloat.

(** ** Translations: [Matrix(1, 0, 0, 1, e, f)] *)

Section Translations.

Local Open Scope float_scope.

Lemma sub_zero_r_same (u z : float) :
  is_zero z = true -> same_number (u - z) u.
Proof.
  rewrite same_number_spec, sub_spec, is_zero_spec.
  destruct (Prim2SF z) as [bz | | |]; try discriminate. intros _.
  destruct (Prim2SF u) as [s | s | | s m e]; cbn; auto with sf_same.
  destruct s, bz; auto with sf_same.
Qed.

Lemma sub_zero_l_same (u z : float) :
  is_zero z = true -> same_number (z - u) (- u).
Proof.
  rewrite same_number_spec, sub_spec, opp_spec, is_zero_spec.
  destruct (Prim2SF z) as [bz | | |]; try discriminate. intros _.
  destruct (Prim2SF u) as [s | s | | s m e]; cbn; auto with sf_same.
  destruct s, bz; auto with sf_same.
Qed.

(** X9. Transforming a point with finite coordinates by the translation
    [Matrix(1, 0, 0, 1, e, f)] gives [(x + e, y + f)], each sum rounded
    once, up to the sign of a zero coordinate; the point may be any object
    with [x] and [y]. *)
Theorem transform_by_translation (T : Type) (I : IPoint float T) (p : T)
    (e0 f0 : float) :
  is_finite (IPoint_x p) = true -> is_finite (IPoint_y p) = true ->
  same_number (x (transform p [new_Matrix 1 0 0 1 e0 f0])) (IPoint_x p + e0)
  /\ same_number (y (transform p [new_Matrix 1 0 0 1 e0 f0])) (IPoint_y p + f0).
Proof.
  intros Hx Hy. unfold transform. rewrite Array_reduce_fold_left.
  cbn [fold_left]. rewrite transform_step_affine. unfold affine.
  cbn [a b c d e f x y mul add binary64]. rewrite !mul_1_l.
  split; apply add_same; try apply same_number_refl.
  - apply add_zero_r_same, mul_zero_l; [exact Hy | reflexivity].
  - apply add_zero_l_same, mul_zero_l; [exact Hx | reflexivity].
Qed.

(** The point [(0.1, 0.2)] moved by [(0.3, -0.2)]. *)
Lemma transform_by_translation_witness :
  let p := obj 0.1 0.2 in
  is_finite (IPoint_x p) = true /\ is_finite (IPoint_y p) = true
  /\ same_number (x (transform p [new_Matrix 1 0 0 1 0.3 (-0.2)]))
       (IPoint_x p + 0.3)
  /\ same_number (y (transform p [new_Matrix 1 0 0 1 0.3 (-0.2)]))
       (IPoint_y p + (-0.2)).
Proof.
  cbv zeta.
  assert (Hx : is_finite (IPoint_x (obj 0.1 0.2)) = true) by reflexivity.
  assert (Hy : is_finite (IPoint_y (obj 0.1 0.2)) = true) by reflexivity.
  split; [exact Hx |]. split; [exact Hy |].
  exact (transform_by_translation _ _ (obj 0.1 0.2) 0.3 (-0.2) Hx Hy).
Defined.

(** X10. The product of two translations is the translation by the sum:
    [Matrix(1,0,0,1,e1,f1).dot(Matrix(1,0,0,1,e2,f2))] is
    [Matrix(1,0,0,1,e2+e1,f2+f1)], up to the sign of a zero coefficient,
    whenever [e2] and [f2] are finite. *)
Theorem dot_of_translations (e1 f1 e2 f2 : float) :
  is_finite e2 = true -> is_finite f2 = true ->
  same_matrix
    (Matrix_dot (new_Matrix 1 0 0 1 e1 f1) (new_Matrix 1 0 0 1 e2 f2))
    (new_Matrix 1 0 0 1 (e2 + e1) (f2 + f1)).
Proof.
  intros He Hf. unfold same_matrix, Matrix_dot.
  cbn [a b c d e f mul add binary64]. rewrite !mul_1_l.
  repeat split; try (left; reflexivity);
    apply add_same; try apply same_number_refl.
  - apply add_zero_r_same, mul_zero_l; [exact Hf | reflexivity].
  - apply add_zero_l_same, mul_zero_l; [exact He | reflexivity].
Qed.

Lemma dot_of_translations_witness :
  is_finite 0.5 = true /\ is_finite (-3) = true
  /\ same_matrix
       (Matrix_dot (new_Matrix 1 0 0 1 5 7) (new_Matrix 1 0 0 1 0.5 (-3)))
       (new_Matrix 1 0 0 1 (0.5 + 5) (-3 + 7)).
Proof.
  assert (He : is_finite 0.5 = true) by reflexivity.
  assert (Hf : is_finite (-3) = true) by reflexivity.
  split; [exact He |]. split; [exact Hf |].
  exact (dot_of_translations 5 7 0.5 (-3) He Hf).
Defined.

(** X11. The inverse of a translation is the opposite translation:
    [Matrix(1,0,0,1,e,f).invert()] is [Matrix(1,0,0,1,-e,-f)], up to the
    sign of a zero coefficient, for all finite [e] and [f]. *)
Theorem invert_of_translation (e0 f0 : float) :
  is_finite e0 = true -> is_finite f0 = true ->
  same_matrix (Matrix_invert (new_Matrix 1 0 0 1 e0 f0))
    (new_Matrix 1 0 0 1 (- e0) (- f0)).
Proof.
  intros He Hf. unfold same_matrix, Matrix_invert.
  cbn [a b c d e f mul sub div binary64]. rewrite !mul_1_l.
  change (1 - 0 * 0) with 1. change (0 * 0 - 1) with (-1).
  rewrite !div_1_r, <- (div_m1_r e0).
  split; [left; reflexivity |].
  split; [right; split; reflexivity |].
  split; [right; split; reflexivity |].
  split; [left; reflexivity |].
  split.
  - apply div_same_l, sub_zero_r_same, mul_zero_l; [exact Hf | reflexivity].
  - apply sub_zero_l_same, mul_zero_l; [exact He | reflexivity].
Qed.

Lemma invert_of_translation_witness :
  is_finite 1e20 = true /\ is_finite 0.1 = true
  /\ same_matrix (Matrix_invert (new_Matrix 1 0 0 1 1e20 0.1))
       (new_Matrix 1 0 0 1 (- 1e20) (- 0.1)).
Proof.
  assert (He : is_finite 1e20 = true) by reflexivity.
  assert (Hf : is_finite 0.1 = true) by reflexivity.
  split; [exact He |]. split; [exact Hf |].
  exact (invert_of_translation 1e20 0.1 He Hf).
Defined.

End Translations.

(** ** [transform], [Matrix.dot] and [flattenTransforms] together *)

Section ComposeGeneric.

Context {num : Type} {N : Number num}.

Lemma Point_eta (q : Point num) : new_Point (x q) (y q) = q.
Proof. now destruct q. Qed.

Lemma transform_fold {T : Type} {I : IPoint num T} (p : T)
    (ms : list (Matrix num)) :
  transform p ms
  = fold_left transform_step ms (new_Point (IPoint_x p) (IPoint_y p)).
Proof. apply Array_reduce_fold_left. Qed.

Lemma transform_app {T : Type} {I : IPoint num T} (p : T)
    (ms1 ms2 : list (Matrix num)) :
  transform p (ms1 ++ ms2) = transform (transform p ms1) ms2.
Proof.
  rewrite !transform_fold, fold_left_app.
  cbn [IPoint_x IPoint_y Point_IPoint]. now rewrite Point_eta.
Qed.

Lemma flattenTransforms_snoc (ms : list (Matrix num)) (m : Matrix num) :
  flattenTransforms (ms ++ [m]) = Matrix_dot m (flattenTransforms ms).
Proof. now rewrite !flattenTransforms_fold, fold_left_app. Qed.

End ComposeGeneric.

Module ExactComposition.

Import Stdlib.Reals.Reals Stdlib.micromega.Lra.
Local Open Scope R_scope.

Lemma exact_transform_dot (A B : Matrix R) (p : Point R) :
  transform p [Matrix_dot B A] = transform (transform p [A]) [B].
Proof.
  destruct A, B, p. rewrite !transform_fold.
  unfold Matrix_dot, transform_step. cbn. f_equal; ring.
Qed.

Lemma exact_transform_identity (p : Point R) :
  transform p [Matrix_default] = p.
Proof.
  destruct p. rewrite transform_fold.
  unfold Matrix_default, transform_step. cbn. f_equal; ring.
Qed.

Lemma exact_transform_flattenTransforms (ms : list (Matrix R)) (p : Point R) :
  transform p [flattenTransforms ms] = transform p ms.
Proof.
  induction ms as [| m ms IH] using rev_ind.
  - change (flattenTransforms []) with (@Matrix_default R exact).
    rewrite exact_transform_identity, transform_fold. cbn. now destruct p.
  - now rewrite flattenTransforms_snoc, exact_transform_dot, IH, transform_app.
Qed.


Lemma exact_dot_assoc (A B C : Matrix R) :
  Matrix_dot (Matrix_dot A B) C = Matrix_dot A (Matrix_dot B C).
Proof. destruct A, B, C. unfold Matrix_dot. cbn. f_equal; ring. Qed.

Lemma exact_flattenTransforms_app (ms1 ms2 : list (Matrix R)) :
  flattenTransforms (ms1 ++ ms2)
  = Matrix_dot (flattenTransforms ms2) (flattenTransforms ms1).
Proof.
  induction ms2 as [| m ms2 IH] using rev_ind.
  - rewrite app_nil_r.
    change (flattenTransforms []) with (@Matrix_default R exact).
    now rewrite ExactLaws.exact_dot_default_l.
  - now rewrite app_assoc, !flattenTransforms_snoc, IH, exact_dot_assoc.
Qed.

End ExactComposition.

(** Following an integer computation through the float operations; a
    division is by a number known to be [1] or [-1]. *)
Ltac integer_value :=
  lazymatch goal with
  | |- represents (of_Z _) _ _ =>
      apply represents_of_Z; split; [eassumption | reflexivity]
  | |- represents 1%float _ _ =>
      apply (represents_of_Z 1 1); split; [discriminate | reflexivity]
  | |- represents 0%float _ _ =>
      apply (represents_of_Z 0 0); split; [discriminate | reflexivity]
  | |- represents (_ * _)%float _ _ =>
      eapply represents_mul; [integer_value | integer_value | reflexivity]
  | |- represents (_ + _)%float _ _ =>
      eapply represents_add; [integer_value | integer_value | reflexivity]
  | |- represents (_ - _)%float _ _ =>
      eapply represents_sub; [integer_value | integer_value | reflexivity]
  | |- represents (_ / _)%float _ _ =>
      eapply represents_div_unit; [integer_value | eassumption | eassumption]
  end.

(** Two computations that follow the same integer give the same number. *)
Ltac same_integer_value :=
  match goal with
  | |- same_number ?u ?v =>
      let R1 := fresh "R" in
      let R2 := fresh "R" in
      eassert (R1 : represents u _ _) by integer_value;
      eassert (R2 : represents v _ _) by integer_value;
      destruct R1 as [R1 _]; destruct R2 as [R2 _];
      eapply same_number_trans; [exact R1 |];
      apply same_number_sym;
      match type of R2 with
      | same_number _ (of_Z ?z2) =>
          match goal with
          | |- same_number _ (of_Z ?z1) =>
              replace z1 with z2 by ring; exact R2
          end
      end
  end.

Section ComposeIntegers.

Local Open Scope Z_scope.

Variables a1 b1 c1 d1 e1 f1 a2 b2 c2 d2 e2 f2 x0 y0 : Z.

Hypothesis Ba1 : Z.abs a1 <= 2 ^ 16.
Hypothesis Bb1 : Z.abs b1 <= 2 ^ 16.
Hypothesis Bc1 : Z.abs c1 <= 2 ^ 16.
Hypothesis Bd1 : Z.abs d1 <= 2 ^ 16.
Hypothesis Be1 : Z.abs e1 <= 2 ^ 16.
Hypothesis Bf1 : Z.abs f1 <= 2 ^ 16.
Hypothesis Ba2 : Z.abs a2 <= 2 ^ 16.
Hypothesis Bb2 : Z.abs b2 <= 2 ^ 16.
Hypothesis Bc2 : Z.abs c2 <= 2 ^ 16.
Hypothesis Bd2 : Z.abs d2 <= 2 ^ 16.
Hypothesis Be2 : Z.abs e2 <= 2 ^ 16.
Hypothesis Bf2 : Z.abs f2 <= 2 ^ 16.
Hypothesis Bx : Z.abs x0 <= 2 ^ 16.
Hypothesis By : Z.abs y0 <= 2 ^ 16.

Let A : Matrix float :=
  new_Matrix (of_Z a1) (of_Z b1) (of_Z c1) (of_Z d1) (of_Z e1) (of_Z f1).
Let B : Matrix float :=
  new_Matrix (of_Z a2) (of_Z b2) (of_Z c2) (of_Z d2) (of_Z e2) (of_Z f2).
Let p : Point float := new_Point (of_Z x0) (of_Z y0).

Lemma transform_flattened_pair :
  same_number (x (transform p [flattenTransforms [A; B]]))
    (x (transform p [A; B]))
  /\ same_number (y (transform p [flattenTransforms [A; B]]))
       (y (transform p [A; B])).
Proof.
  rewrite flattenTransforms_two, !transform_fold. cbn [fold_left].
  rewrite !transform_step_affine.
  unfold affine, Matrix_dot, Matrix_default, A, B, p.
  cbn [a b c d e f x y IPoint_x IPoint_y Point_IPoint mul add sub
       lit_0 lit_1 binary64].
  split; same_integer_value.
Qed.

End ComposeIntegers.

(** X12. One call of [transform] with a list of matrices is the same as
    two calls, the second on the result of the first, with the list cut
    anywhere; this holds for every point and every matrix, in binary64 as
    in exact arithmetic. *)
Theorem transform_in_two_calls :
  forall (num : Type) (N : Number num) (T : Type) (I : IPoint num T)
         (p : T) (ms1 ms2 : list (Matrix num)),
    transform p (ms1 ++ ms2) = transform (transform p ms1) ms2.
Proof. intros. apply transform_app. Qed.

(** X13. Appending a matrix to the list multiplies the flattened matrix by
    it on the left, [flattenTransforms(ms ++ [m])] being
    [m.dot(flattenTransforms(ms))] for all matrices, in binary64 as in exact
    arithmetic; and in exact arithmetic the flattening of a concatenation
    is the product of the flattenings, the second list's on the left. *)
Theorem flattenTransforms_concatenation :
  (forall (num : Type) (N : Number num) (ms : list (Matrix num))
          (m : Matrix num),
     flattenTransforms (ms ++ [m]) = Matrix_dot m (flattenTransforms ms))
  /\ (forall ms1 ms2 : list (Matrix Rdefinitions.R),
        flattenTransforms (ms1 ++ ms2)
        = Matrix_dot (flattenTransforms ms2) (flattenTransforms ms1)).
Proof.
  split.
  - intros. apply flattenTransforms_snoc.
  - exact ExactComposition.exact_flattenTransforms_app.
Qed.

(** X14. Transforming a point by [flattenTransforms(ms)] is transforming it
    by the matrices of [ms] in their listed order: exactly so in exact
    arithmetic, for every list; and in binary64, up to the sign of a zero
    coordinate, for two matrices and a point whose entries are integers of
    magnitude at most [2^16].  It is not so for all binary64 matrices: with
    the scaling by [0.1] twice, the point [(0.3, 0)] goes to
    [0.0030000000000000005] through the flattened matrix and to [0.003]
    through the two matrices. *)
Theorem transform_by_flattenTransforms :
  (forall (ms : list (Matrix Rdefinitions.R)) (p : Point Rdefinitions.R),
     transform p [flattenTransforms ms] = transform p ms)
  /\ (forall a1 b1 c1 d1 e1 f1 a2 b2 c2 d2 e2 f2 x0 y0 : Z,
        small_integer a1 -> small_integer b1 -> small_integer c1 ->
        small_integer d1 -> small_integer e1 -> small_integer f1 ->
        small_integer a2 -> small_integer b2 -> small_integer c2 ->
        small_integer d2 -> small_integer e2 -> small_integer f2 ->
        small_integer x0 -> small_integer y0 ->
        let A := new_Matrix (of_Z a1) (of_Z b1) (of_Z c1)
                   (of_Z d1) (of_Z e1) (of_Z f1) in
        let B := new_Matrix (of_Z a2) (of_Z b2) (of_Z c2)
                   (of_Z d2) (of_Z e2) (of_Z f2) in
        let p := new_Point (of_Z x0) (of_Z y0) in
        same_number (x (transform p [flattenTransforms [A; B]]))
          (x (transform p [A; B]))
        /\ same_number (y (transform p [flattenTransforms [A; B]]))
             (y (transform p [A; B])))
  /\ (let S1 := new_Matrix 0.1 0 0 0.1 0 0 in
      let p := new_Point 0.3 0 in
      x (transform p [flattenTransforms [S1; S1]]) = 0.0030000000000000005
      /\ x (transform p [S1; S1]) = 0.003)%float.
Proof.
  split; [| split].
  - exact ExactComposition.exact_transform_flattenTransforms.
  - intros. now apply transform_flattened_pair.
  - split; reflexivity.
Qed.

(** A scaling with a translation, then a quarter turn, at the point
    [(1, 1)]. *)
Lemma transform_by_flattenTransforms_witness :
  let A := new_Matrix (of_Z 2) (of_Z 0) (of_Z 0) (of_Z 3) (of_Z 5) (of_Z 7) in
  let B := new_Matrix (of_Z 0) (of_Z 1) (of_Z (-1)) (of_Z 0) (of_Z 0) (of_Z 0) in
  let p := new_Point (of_Z 1) (of_Z 1) in
  same_number (x (transform p [flattenTransforms [A; B]]))
    (x (transform p [A; B]))
  /\ same_number (y (transform p [flattenTransforms [A; B]]))
       (y (transform p [A; B])).
Proof.
  cbv zeta.
  apply (proj1 (proj2 transform_by_flattenTransforms)
           2 0 0 3 5 7 0 1 (-1) 0 0 0 1 1)%Z;
    unfold small_integer; simpl; lia.
Defined.

(** ** [Matrix.dot] is associative on integer matrices *)

Section DotAssociative.

Local Open Scope Z_scope.

Variables a1 b1 c1 d1 e1 f1 a2 b2 c2 d2 e2 f2 a3 b3 c3 d3 e3 f3 : Z.

Hypothesis Ba1 : Z.abs a1 <= 2 ^ 16.
Hypothesis Bb1 : Z.abs b1 <= 2 ^ 16.
Hypothesis Bc1 : Z.abs c1 <= 2 ^ 16.
Hypothesis Bd1 : Z.abs d1 <= 2 ^ 16.
Hypothesis Be1 : Z.abs e1 <= 2 ^ 16.
Hypothesis Bf1 : Z.abs f1 <= 2 ^ 16.
Hypothesis Ba2 : Z.abs a2 <= 2 ^ 16.
Hypothesis Bb2 : Z.abs b2 <= 2 ^ 16.
Hypothesis Bc2 : Z.abs c2 <= 2 ^ 16.
Hypothesis Bd2 : Z.abs d2 <= 2 ^ 16.
Hypothesis Be2 : Z.abs e2 <= 2 ^ 16.
Hypothesis Bf2 : Z.abs f2 <= 2 ^ 16.
Hypothesis Ba3 : Z.abs a3 <= 2 ^ 16.
Hypothesis Bb3 : Z.abs b3 <= 2 ^ 16.
Hypothesis Bc3 : Z.abs c3 <= 2 ^ 16.
Hypothesis Bd3 : Z.abs d3 <= 2 ^ 16.
Hypothesis Be3 : Z.abs e3 <= 2 ^ 16.
Hypothesis Bf3 : Z.abs f3 <= 2 ^ 16.

Let A : Matrix float :=
  new_Matrix (of_Z a1) (of_Z b1) (of_Z c1) (of_Z d1) (of_Z e1) (of_Z f1).
Let B : Matrix float :=
  new_Matrix (of_Z a2) (of_Z b2) (of_Z c2) (of_Z d2) (of_Z e2) (of_Z f2).
Let C : Matrix float :=
  new_Matrix (of_Z a3) (of_Z b3) (of_Z c3) (of_Z d3) (of_Z e3) (of_Z f3).

Lemma dot_assoc_integers :
  same_matrix (Matrix_dot (Matrix_dot A B) C) (Matrix_dot A (Matrix_dot B C)).
Proof.
  unfold same_matrix, Matrix_dot, A, B, C.
  cbn [a b c d e f mul add binary64].
  repeat split; same_integer_value.
Qed.

End DotAssociative.

(** X15. [dot] is associative, [(A.dot(B)).dot(C)] against
    [A.dot(B.dot(C))]: exactly so in exact arithmetic, and in binary64, up
    to the sign of a zero coefficient, for matrices whose coefficients are
    integers of magnitude at most [2^16].  It is not associative on all
    binary64 matrices: the scalings by [0.1], [0.1] and [0.3] give
    [0.0030000000000000005] one way and [0.003] the other. *)
Theorem dot_associative :
  (forall A B C : Matrix Rdefinitions.R,
     Matrix_dot (Matrix_dot A B) C = Matrix_dot A (Matrix_dot B C))
  /\ (forall a1 b1 c1 d1 e1 f1 a2 b2 c2 d2 e2 f2 a3 b3 c3 d3 e3 f3 : Z,
        small_integer a1 -> small_integer b1 -> small_integer c1 ->
        small_integer d1 -> small_integer e1 -> small_integer f1 ->
        small_integer a2 -> small_integer b2 -> small_integer c2 ->
        small_integer d2 -> small_integer e2 -> small_integer f2 ->
        small_integer a3 -> small_integer b3 -> small_integer c3 ->
        small_integer d3 -> small_integer e3 -> small_integer f3 ->
        let A := new_Matrix (of_Z a1) (of_Z b1) (of_Z c1)
                   (of_Z d1) (of_Z e1) (of_Z f1) in
        let B := new_Matrix (of_Z a2) (of_Z b2) (of_Z c2)
                   (of_Z d2) (of_Z e2) (of_Z f2) in
        let C := new_Matrix (of_Z a3) (of_Z b3) (of_Z c3)
                   (of_Z d3) (of_Z e3) (of_Z f3) in
        same_matrix (Matrix_dot (Matrix_dot A B) C)
          (Matrix_dot A (Matrix_dot B C)))
  /\ (let S1 := new_Matrix 0.1 0 0 0.1 0 0 in
      let S3 := new_Matrix 0.3 0 0 0.3 0 0 in
      a (Matrix_dot (Matrix_dot S1 S1) S3) = 0.0030000000000000005
      /\ a (Matrix_dot S1 (Matrix_dot S1 S3)) = 0.003)%float.
Proof.
  split; [| split].
  - exact ExactComposition.exact_dot_assoc.
  - intros. now apply dot_assoc_integers.
  - split; reflexivity.
Qed.

(** A scaling, a quarter turn and a shear. *)
Lemma dot_associative_witness :
  let A := new_Matrix (of_Z 2) (of_Z 0) (of_Z 0) (of_Z 3) (of_Z 5) (of_Z 7) in
  let B := new_Matrix (of_Z 0) (of_Z 1) (of_Z (-1)) (of_Z 0) (of_Z 0) (of_Z 0) in
  let C := new_Matrix (of_Z 1) (of_Z 0) (of_Z 4) (of_Z 1) (of_Z (-6)) (of_Z 9) in
  same_matrix (Matrix_dot (Matrix_dot A B) C) (Matrix_dot A (Matrix_dot B C)).
Proof.
  cbv zeta.
  apply (proj1 (proj2 dot_associative)
           2 0 0 3 5 7 0 1 (-1) 0 0 0 1 0 4 1 (-6) 9)%Z;
    unfold small_integer; simpl; lia.
Defined.

(** ** [Matrix.invert] and [Matrix.dot] *)

Module ExactInverse.

Import Stdlib.Reals.Reals Stdlib.micromega.Lra.
Local Open Scope R_scope.

Lemma exact_dot_invert_r (M : Matrix R) :
  determinant M <> 0 -> Matrix_dot M (Matrix_invert M) = Matrix_default.
Proof.
  destruct M as [a0 b0 c0 d0 e0 f0]. unfold determinant. cbn. intro Hdet.
  assert (Hdet' : b0 * c0 - a0 * d0 <> 0) by lra.
  unfold Matrix_dot, Matrix_invert, Matrix_default. cbn.
  f_equal; field; auto.
Qed.

Lemma exact_dot_invert_l (M : Matrix R) :
  determinant M <> 0 -> Matrix_dot (Matrix_invert M) M = Matrix_default.
Proof.
  destruct M as [a0 b0 c0 d0 e0 f0]. unfold determinant. cbn. intro Hdet.
  assert (Hdet' : b0 * c0 - a0 * d0 <> 0) by lra.
  unfold Matrix_dot, Matrix_invert, Matrix_default. cbn.
  f_equal; field; auto.
Qed.

Lemma exact_invert_involutive (M : Matrix R) :
  determinant M <> 0 -> Matrix_invert (Matrix_invert M) = M.
Proof.
  destruct M as [a0 b0 c0 d0 e0 f0]. unfold determinant. cbn. intro Hdet.
  assert (Hdet' : b0 * c0 - a0 * d0 <> 0) by lra.
  assert (Hcube : (a0 * d0 - b0 * c0) * (a0 * d0 - b0 * c0)
                  * (a0 * d0 - b0 * c0) <> 0)
    by (repeat apply Rmult_integral_contrapositive_currified; assumption).
  unfold Matrix_invert. cbn.
  f_equal; field; repeat split; auto;
    match goal with
    | |- ?z <> 0 =>
        (replace z with ((a0 * d0 - b0 * c0) * (a0 * d0 - b0 * c0)
                         * (a0 * d0 - b0 * c0)) by ring;
         exact Hcube)
        || (replace z with (- ((a0 * d0 - b0 * c0) * (a0 * d0 - b0 * c0)
                               * (a0 * d0 - b0 * c0))) by ring;
            apply Ropp_neq_0_compat; exact Hcube)
    end.
Qed.

Lemma exact_invert_dot (A B : Matrix R) :
  determinant A <> 0 -> determinant B <> 0 ->
  Matrix_invert (Matrix_dot A B)
  = Matrix_dot (Matrix_invert B) (Matrix_invert A).
Proof.
  destruct A as [a1 b1 c1 d1 e1 f1], B as [a2 b2 c2 d2 e2 f2].
  unfold determinant. cbn. intros HA HB.
  assert (HA' : b1 * c1 - a1 * d1 <> 0) by lra.
  assert (HB' : b2 * c2 - a2 * d2 <> 0) by lra.
  assert (HAB : (a1 * d1 - b1 * c1) * (a2 * d2 - b2 * c2) <> 0)
    by (apply Rmult_integral_contrapositive; split; assumption).
  unfold Matrix_invert, Matrix_dot. cbn.
  f_equal; field; repeat split; auto;
    match goal with
    | |- ?z <> 0 =>
        (replace z with ((a1 * d1 - b1 * c1) * (a2 * d2 - b2 * c2)) by ring;
         exact HAB)
        || (replace z with (- ((a1 * d1 - b1 * c1) * (a2 * d2 - b2 * c2))) by ring;
            apply Ropp_neq_0_compat; exact HAB)
    end.
Qed.

End ExactInverse.

(** The integer a computation follows is the one expected. *)
Ltac integer_value_is target :=
  match goal with
  | |- same_number ?u _ =>
      let R := fresh "R" in
      eassert (R : represents u _ _) by integer_value;
      destruct R as [R _];
      match type of R with
      | same_number _ (of_Z ?z) => replace z with target in R; [exact R |]
      end
  end.

Section UnimodularInverse.

Local Open Scope Z_scope.

Variables a0 b0 c0 d0 e0 f0 : Z.

Hypothesis Ba : Z.abs a0 <= 2 ^ 16.
Hypothesis Bb : Z.abs b0 <= 2 ^ 16.
Hypothesis Bc : Z.abs c0 <= 2 ^ 16.
Hypothesis Bd : Z.abs d0 <= 2 ^ 16.
Hypothesis Be : Z.abs e0 <= 2 ^ 16.
Hypothesis Bf : Z.abs f0 <= 2 ^ 16.

Variable delta : Z.
Hypothesis Hdet : a0 * d0 - b0 * c0 = delta.
Hypothesis Hunit : delta = 1 \/ delta = -1.

Let M : Matrix float :=
  new_Matrix (of_Z a0) (of_Z b0) (of_Z c0) (of_Z d0) (of_Z e0) (of_Z f0).

Lemma unit_square : delta * delta = 1.
Proof. destruct Hunit as [H | H]; rewrite H; reflexivity. Qed.

Lemma unit_opp : - delta = 1 \/ - delta = -1.
Proof. destruct Hunit; lia. Qed.

Lemma determinant_unit :
  (of_Z a0 * of_Z d0 - of_Z b0 * of_Z c0)%float = of_Z delta.
Proof.
  eassert (R : represents (of_Z a0 * of_Z d0 - of_Z b0 * of_Z c0)%float _ _)
    by integer_value.
  rewrite Hdet in R. apply (represents_nonzero _ _ _ R).
  destruct Hunit; lia.
Qed.

Lemma determinant_unit_opp :
  (of_Z b0 * of_Z c0 - of_Z a0 * of_Z d0)%float = of_Z (- delta).
Proof.
  eassert (R : represents (of_Z b0 * of_Z c0 - of_Z a0 * of_Z d0)%float _ _)
    by integer_value.
  replace (b0 * c0 - a0 * d0) with (- delta) in R by lia.
  apply (represents_nonzero _ _ _ R). destruct Hunit; lia.
Qed.

Ltac unit_identity :=
  let Hd := fresh "Hd" in
  let He := fresh "He" in
  let Hf := fresh "Hf" in
  pose proof Hdet as Hd;
  pose proof (f_equal (fun t => t * e0) Hdet) as He;
  pose proof (f_equal (fun t => t * f0) Hdet) as Hf;
  cbv beta in He, Hf;
  destruct Hunit as [H | H]; rewrite H in Hd, He, Hf |- *; lia.

Lemma dot_invert_r_unimodular :
  same_matrix (Matrix_dot M (Matrix_invert M)) Matrix_default.
Proof.
  pose proof determinant_unit as D1.
  pose proof determinant_unit_opp as D2.
  pose proof unit_opp as U2.
  pose proof unit_square as Hsq.
  unfold same_matrix, Matrix_dot, Matrix_invert, Matrix_default, M.
  cbn [a b c d e f mul add sub div lit_0 lit_1 binary64].
  repeat split;
    [ integer_value_is 1 | integer_value_is 0 | integer_value_is 0
    | integer_value_is 1 | integer_value_is 0 | integer_value_is 0 ];
    unit_identity.
Qed.

Lemma dot_invert_l_unimodular :
  same_matrix (Matrix_dot (Matrix_invert M) M) Matrix_default.
Proof.
  pose proof determinant_unit as D1.
  pose proof determinant_unit_opp as D2.
  pose proof unit_opp as U2.
  pose proof unit_square as Hsq.
  unfold same_matrix, Matrix_dot, Matrix_invert, Matrix_default, M.
  cbn [a b c d e f mul add sub div lit_0 lit_1 binary64].
  repeat split;
    [ integer_value_is 1 | integer_value_is 0 | integer_value_is 0
    | integer_value_is 1 | integer_value_is 0 | integer_value_is 0 ];
    unit_identity.
Qed.

Lemma invert_determinant_unit :
  (a (Matrix_invert M) * d (Matrix_invert M)
   - b (Matrix_invert M) * c (Matrix_invert M))%float = of_Z delta.
Proof.
  pose proof determinant_unit as D1.
  pose proof determinant_unit_opp as D2.
  pose proof unit_opp as U2.
  unfold Matrix_invert, M.
  cbn [a b c d e f mul add sub div binary64].
  match goal with
  | |- ?u = _ => eassert (R : represents u _ _) by integer_value
  end.
  match type of R with
  | represents _ ?z _ => replace z with delta in R by unit_identity
  end.
  apply (represents_nonzero _ _ _ R). destruct Hunit; lia.
Qed.

Lemma invert_determinant_unit_opp :
  (b (Matrix_invert M) * c (Matrix_invert M)
   - a (Matrix_invert M) * d (Matrix_invert M))%float = of_Z (- delta).
Proof.
  pose proof determinant_unit as D1.
  pose proof determinant_unit_opp as D2.
  pose proof unit_opp as U2.
  unfold Matrix_invert, M.
  cbn [a b c d e f mul add sub div binary64].
  match goal with
  | |- ?u = _ => eassert (R : represents u _ _) by integer_value
  end.
  match type of R with
  | represents _ ?z _ => replace z with (- delta) in R by unit_identity
  end.
  apply (represents_nonzero _ _ _ R). destruct Hunit; lia.
Qed.

Lemma invert_invert_unimodular :
  same_matrix (Matrix_invert (Matrix_invert M)) M.
Proof.
  pose proof determinant_unit as D1.
  pose proof determinant_unit_opp as D2.
  pose proof invert_determinant_unit as D3.
  pose proof invert_determinant_unit_opp as D4.
  pose proof unit_opp as U2.
  unfold same_matrix, Matrix_invert, M in *.
  cbn [a b c d e f mul add sub div binary64] in *.
  repeat split;
    [ integer_value_is a0 | integer_value_is b0 | integer_value_is c0
    | integer_value_is d0 | integer_value_is e0 | integer_value_is f0 ];
    unit_identity.
Qed.

End UnimodularInverse.

(** X16. [M.invert()] is an inverse of [M] for [dot] on both sides: both
    products are the default (identity) Matrix exactly in exact arithmetic
    whenever [a*d - b*c] is not [0], and in binary64, up to the sign of a
    zero coefficient, for every matrix whose coefficients are integers of
    magnitude at most [2^16] with determinant [1] or [-1].  Not so for all
    binary64 matrices: for the scaling by [49] the product has
    [a = 0.9999999999999999]. *)
Theorem invert_is_inverse_for_dot :
  (forall M : Matrix Rdefinitions.R,
     determinant M <> Rdefinitions.IZR 0 ->
     Matrix_dot M (Matrix_invert M) = Matrix_default
     /\ Matrix_dot (Matrix_invert M) M = Matrix_default)
  /\ (forall a0 b0 c0 d0 e0 f0 : Z,
        small_integer a0 -> small_integer b0 -> small_integer c0 ->
        small_integer d0 -> small_integer e0 -> small_integer f0 ->
        unimodular a0 b0 c0 d0 ->
        let M := new_Matrix (of_Z a0) (of_Z b0) (of_Z c0)
                   (of_Z d0) (of_Z e0) (of_Z f0) in
        same_matrix (Matrix_dot M (Matrix_invert M)) Matrix_default
        /\ same_matrix (Matrix_dot (Matrix_invert M) M) Matrix_default)
  /\ (let S := new_Matrix 49 0 0 49 0 0 in
      a (Matrix_dot S (Matrix_invert S)) = 0.9999999999999999)%float.
Proof.
  split; [| split].
  - intros M HM. split.
    + now apply ExactInverse.exact_dot_invert_r.
    + now apply ExactInverse.exact_dot_invert_l.
  - intros a0 b0 c0 d0 e0 f0 Ha Hb Hc Hd He Hf Hu. cbv zeta. split.
    + now apply (dot_invert_r_unimodular a0 b0 c0 d0 e0 f0 Ha Hb Hc Hd He Hf
                   (a0 * d0 - b0 * c0)%Z).
    + now apply (dot_invert_l_unimodular a0 b0 c0 d0 e0 f0 Ha Hb Hc Hd He Hf
                   (a0 * d0 - b0 * c0)%Z).
  - reflexivity.
Qed.

(** A quarter turn with a translation. *)
Lemma invert_is_inverse_for_dot_witness :
  let M := new_Matrix (of_Z 0) (of_Z 1) (of_Z (-1)) (of_Z 0) (of_Z 5) (of_Z 7) in
  unimodular 0 1 (-1) 0
  /\ same_matrix (Matrix_dot M (Matrix_invert M)) Matrix_default
  /\ same_matrix (Matrix_dot (Matrix_invert M) M) Matrix_default.
Proof.
  cbv zeta.
  assert (Hu : unimodular 0 1 (-1) 0) by (left; reflexivity).
  split; [exact Hu |].
  apply (proj1 (proj2 invert_is_inverse_for_dot) 0 1 (-1) 0 5 7)%Z;
    try exact Hu; unfold small_integer; simpl; lia.
Defined.

(** X17. Inverting twice gives the matrix back, and the inverse of a
    product is the product of the inverses in the other order: exactly so
    in exact arithmetic for determinants other than [0]; and in binary64,
    up to the sign of a zero coefficient, [M.invert().invert()] is [M] for
    every matrix whose coefficients are integers of magnitude at most
    [2^16] with determinant [1] or [-1].  Not so for all binary64 matrices:
    the scaling by [5] comes back with [a = 4.999999999999999]. *)
Theorem invert_twice :
  (forall M : Matrix Rdefinitions.R,
     determinant M <> Rdefinitions.IZR 0 ->
     Matrix_invert (Matrix_invert M) = M)
  /\ (forall A B : Matrix Rdefinitions.R,
        determinant A <> Rdefinitions.IZR 0 ->
        determinant B <> Rdefinitions.IZR 0 ->
        Matrix_invert (Matrix_dot A B)
        = Matrix_dot (Matrix_invert B) (Matrix_invert A))
  /\ (forall a0 b0 c0 d0 e0 f0 : Z,
        small_integer a0 -> small_integer b0 -> small_integer c0 ->
        small_integer d0 -> small_integer e0 -> small_integer f0 ->
        unimodular a0 b0 c0 d0 ->
        let M := new_Matrix (of_Z a0) (of_Z b0) (of_Z c0)
                   (of_Z d0) (of_Z e0) (of_Z f0) in
        same_matrix (Matrix_invert (Matrix_invert M)) M)
  /\ (let S := new_Matrix 5 0 0 5 0 0 in
      a (Matrix_invert (Matrix_invert S)) = 4.999999999999999)%float.
Proof.
  split; [| split; [| split]].
  - exact ExactInverse.exact_invert_involutive.
  - exact ExactInverse.exact_invert_dot.
  - intros a0 b0 c0 d0 e0 f0 Ha Hb Hc Hd He Hf Hu. cbv zeta.
    now apply (invert_invert_unimodular a0 b0 c0 d0 e0 f0 Ha Hb Hc Hd He Hf
                 (a0 * d0 - b0 * c0)%Z).
  - reflexivity.
Qed.

(** A shear with a translation. *)
Lemma invert_twice_witness :
  let M := new_Matrix (of_Z 1) (of_Z 0) (of_Z 4) (of_Z 1) (of_Z (-6)) (of_Z 9) in
  unimodular 1 0 4 1
  /\ same_matrix (Matrix_invert (Matrix_invert M)) M.
Proof.
  cbv zeta.
  assert (Hu : unimodular 1 0 4 1) by (left; reflexivity).
  split; [exact Hu |].
  apply (proj1 (proj2 (proj2 invert_twice)) 1 0 4 1 (-6) 9)%Z;
    try exact Hu; unfold small_integer; simpl; lia.
Defined.

(** ** Binary64: comparing safe integers *)

Section SafeIntegerOrder.

Local Open Scope Z_scope.

Lemma SF_of_Z_finite_valid z : safe_integer z -> SF_finite_valid (SF_of_Z z).
Proof.
  intro Hz. split; [now destruct z | now apply SF_of_Z_valid].
Qed.

Lemma SF_value_of_Z z : safe_integer z -> SF_value (SF_of_Z z) = z * 2 ^ 1074.
Proof.
  intro Hz.
  assert (H : forall p, Zpos p < 2 ^ 53 ->
            Zpos (canon_mantissa p) * 2 ^ (canon_exponent p - emin)
            = Zpos p * 2 ^ 1074).
  { intros p Hp. pose proof (canon_shift p Hp) as Hs.
    pose proof (Pos2Z.is_pos (digits2_pos p)) as Hd.
    rewrite canon_mantissa_Z, <- Z.mul_assoc.
    rewrite <- Z.pow_add_r.
    - do 2 f_equal. unfold canon_exponent, emin, emax, prec in *. lia.
    - lia.
    - unfold canon_exponent, emin, emax, prec in *. lia. }
  destruct z as [| p | p]; cbn [SF_of_Z SF_value cond_Zopp].
  - reflexivity.
  - apply H. unfold safe_integer in Hz. lia.
  - rewrite H by (unfold safe_integer in Hz; lia). lia.
Qed.

Lemma SFcompare_of_Z a b :
  safe_integer a -> safe_integer b ->
  SFcompare (SF_of_Z a) (SF_of_Z b) = Some (a ?= b).
Proof.
  intros Ha Hb.
  rewrite SFcompare_value by now apply SF_of_Z_finite_valid.
  rewrite !SF_value_of_Z by assumption.
  assert (Hc : 0 < 2 ^ 1074) by (apply Z.pow_pos_nonneg; lia).
  f_equal. destruct (Z.compare_spec a b) as [E | E | E].
  - subst b. apply Z.compare_refl.
  - apply Z.compare_lt_iff. now apply Z.mul_lt_mono_pos_r.
  - apply Z.compare_gt_iff. now apply Z.mul_lt_mono_pos_r.
Qed.

Lemma ltb_of_Z a b :
  safe_integer a -> safe_integer b -> (of_Z a <? of_Z b)%float = (a <? b).
Proof.
  intros Ha Hb. rewrite ltb_spec, !Prim2SF_of_Z by assumption.
  unfold SFltb, Z.ltb. rewrite SFcompare_of_Z by assumption.
  now destruct (a ?= b).
Qed.

Lemma is_nan_of_Z z : safe_integer z -> is_nan (of_Z z) = false.
Proof.
  intro Hz. rewrite is_nan_spec, Prim2SF_of_Z by exact Hz. now destruct z.
Qed.

Lemma max_of_Z a b :
  safe_integer a -> safe_integer b ->
  JS.max (of_Z a) (of_Z b) = of_Z (Z.max a b).
Proof.
  intros Ha Hb. unfold JS.max.
  rewrite !is_nan_of_Z, !ltb_of_Z by assumption. cbn [orb].
  destruct (Z.ltb_spec a b) as [Hab | Hab].
  - now rewrite Z.max_r by lia.
  - destruct (Z.ltb_spec b a) as [Hba | Hba].
    + now rewrite Z.max_l by lia.
    + assert (E : a = b) by lia. subst b. rewrite Z.max_id.
      now destruct (is_zero (of_Z a) && get_sign (of_Z a)).
Qed.

End SafeIntegerOrder.

(** ** [Matrix.getScale] is never negative *)

Section GetScaleSign.

Local Open Scope float_scope.

Lemma div_positive_nan_or_nonneg (u m : float) :
  (0 <? m) = true ->
  is_nan (abs u / m) = true \/ (0 <=? abs u / m) = true.
Proof.
  intro Hm. rewrite is_nan_spec, leb_spec, div_spec, abs_spec, Prim2SF_0.
  destruct (ltb_0_true_cases m Hm) as [H | (mm & em & H)]; rewrite H;
    destruct (Prim2SF u) as [su | su | | su mu eu];
    cbn [SFabs SF64div SFdiv xorb]; auto.
  destruct (SFdiv_core_binary prec emax (Zpos mu) eu (Zpos mm) em)
    as [[mz ez] lz].
  destruct (binary_round_aux_cases false mz ez lz)
    as [E | [E | [E | (m' & e' & E)]]]; rewrite E; cbn; auto.
Qed.

(** X18. [getScale()] never returns a negative number: for every matrix,
    and whatever [Math.hypot] returns, the result is NaN or [>= 0]; and it
    does not depend on the translation [e], [f] of the matrix. *)
Theorem getScale_never_negative :
  forall (M : MathApprox float) (this : Matrix float),
    (is_nan (Matrix_getScale this) = true
     \/ (0 <=? Matrix_getScale this) = true)
    /\ forall e0 f0 : float,
         Matrix_getScale
           (new_Matrix (a this) (b this) (c this) (d this) e0 f0)
         = Matrix_getScale this.
Proof.
  intros M this. split; [| reflexivity].
  rewrite getScale_guard.
  destruct (0 <? getScale_maxScale this) eqn:Hm.
  - now apply div_positive_nan_or_nonneg.
  - right. reflexivity.
Qed.

End GetScaleSign.

(** ** [Matrix.getScale] of a scaling along the axes *)

Module ExactScale.

Import Stdlib.Reals.Reals Stdlib.micromega.Lra.
Local Open Scope R_scope.

Lemma exact_hypot_0_l (u : R) : 0 < u -> Exact.hypot 0 u = u.
Proof.
  intro H. unfold Exact.hypot.
  replace (0 * 0 + u * u) with (u * u) by ring.
  apply sqrt_square. lra.
Qed.

Lemma exact_hypot_0_r (u : R) : 0 < u -> Exact.hypot u 0 = u.
Proof.
  intro H. unfold Exact.hypot.
  replace (u * u + 0 * 0) with (u * u) by ring.
  apply sqrt_square. lra.
Qed.

Lemma exact_getScale_axes (sx sy : R) :
  0 < sx -> 0 < sy ->
  Matrix_getScale (new_Matrix sx 0 0 sy 0 0) = Rmin sx sy.
Proof.
  intros Hx Hy. unfold Matrix_getScale, transform.
  rewrite !Array_reduce_fold_left. unfold transform_step. cbn.
  replace (sx * 0 + 0 * 1 + 0 * 1) with 0 by ring.
  replace (0 * 0 + sy * 1 + 0 * 1) with sy by ring.
  replace (sx * 1 + 0 * 0 + 0 * 1) with sx by ring.
  replace (0 * 1 + sy * 0 + 0 * 1) with 0 by ring.
  rewrite (exact_hypot_0_l sy Hy), (exact_hypot_0_r sx Hx).
  replace (sy * sx - 0 * 0) with (sy * sx) by ring.
  assert (Hp : 0 < sy * sx) by now apply Rmult_lt_0_compat.
  rewrite (Rabs_pos_eq (sy * sx)) by lra.
  assert (Hmax : 0 < Rmax sy sx)
    by (unfold Rmax; destruct (Rle_dec sy sx); lra).
  rewrite (proj2 (ExactLaws.exact_ltb_true 0 (Rmax sy sx)) Hmax).
  unfold Rmax, Rmin.
  destruct (Rle_dec sy sx), (Rle_dec sx sy); field_simplify; lra.
Qed.

End ExactScale.

Section GetScaleAxes.

Local Open Scope float_scope.

Context {M : MathApprox float}.

Lemma getScale_vecA_axes (sx sy : float) :
  is_finite sx = true -> (0 <? sx) = true ->
  is_finite sy = true -> (0 <? sy) = true ->
  getScale_vecA (new_Matrix sx 0 0 sy 0 0) = new_Point 0 sy.
Proof.
  intros Fx Px Fy Py. unfold getScale_vecA, transform.
  rewrite Array_reduce_fold_left. cbn. unfold transform_step. cbn.
  rewrite !mul_1_r, (mul_0_r_positive_finite sx Fx Px).
  change (0 * 0) with 0. change (0 + 0) with 0.
  now rewrite (add_0_l_positive sy Py), (add_0_r_positive sy Py).
Qed.

Lemma getScale_vecB_axes (sx sy : float) :
  is_finite sx = true -> (0 <? sx) = true ->
  is_finite sy = true -> (0 <? sy) = true ->
  getScale_vecB (new_Matrix sx 0 0 sy 0 0) = new_Point sx 0.
Proof.
  intros Fx Px Fy Py. unfold getScale_vecB, transform.
  rewrite Array_reduce_fold_left. cbn. unfold transform_step. cbn.
  rewrite !mul_1_r, (mul_0_r_positive_finite sy Fy Py).
  change (0 * 0) with 0. change (0 + 0) with 0.
  now rewrite !(add_0_r_positive sx Px).
Qed.

Lemma getScale_axes_of_Z (sx sy : Z) :
  (1 <= sx)%Z -> (1 <= sy)%Z -> (sx * sy < 2 ^ 53)%Z ->
  Math_hypot 0 (of_Z sy) = of_Z sy -> Math_hypot (of_Z sx) 0 = of_Z sx ->
  Matrix_getScale (new_Matrix (of_Z sx) 0 0 (of_Z sy) 0 0)
  = of_Z (Z.min sx sy).
Proof.
  intros Hx Hy Hxy H1 H2.
  assert (Sx : safe_integer sx) by (unfold safe_integer; nia).
  assert (Sy : safe_integer sy) by (unfold safe_integer; nia).
  assert (Sp : safe_integer (sy * sx)) by (unfold safe_integer; lia).
  assert (Fx : is_finite (of_Z sx) = true) by now apply is_finite_of_Z.
  assert (Fy : is_finite (of_Z sy) = true) by now apply is_finite_of_Z.
  assert (Px : (0 <? of_Z sx) = true)
    by (rewrite ltb_0_of_Z by exact Sx; apply Z.ltb_lt; lia).
  assert (Py : (0 <? of_Z sy) = true)
    by (rewrite ltb_0_of_Z by exact Sy; apply Z.ltb_lt; lia).
  rewrite getScale_guard. unfold getScale_maxScale, getScale_crossProduct.
  rewrite (getScale_vecA_axes _ _ Fx Px Fy Py),
          (getScale_vecB_axes _ _ Fx Px Fy Py).
  cbn [x y Math_max mul sub binary64]. rewrite H1, H2.
  rewrite max_of_Z by assumption.
  assert (Sm : safe_integer (Z.max sy sx))
    by (unfold safe_integer in *; lia).
  rewrite ltb_0_of_Z by exact Sm.
  replace (0 <? Z.max sy sx)%Z with true by (symmetry; apply Z.ltb_lt; lia).
  change (0 * 0) with 0. rewrite sub_0_r.
  rewrite mul_of_Z by (assumption || lia).
  rewrite abs_positive
    by (rewrite ltb_0_of_Z by exact Sp; apply Z.ltb_lt; nia).
  replace (sy * sx)%Z with (Z.min sx sy * Z.max sy sx)%Z
    by (destruct (Z.le_ge_cases sx sy);
        [rewrite Z.min_l, Z.max_l by lia | rewrite Z.min_r, Z.max_r by lia];
        ring).
  apply div_of_Z; try lia.
  replace (Z.min sx sy * Z.max sy sx)%Z with (sy * sx)%Z; [exact Sp |].
  destruct (Z.le_ge_cases sx sy);
    [rewrite Z.min_l, Z.max_l by lia | rewrite Z.min_r, Z.max_r by lia];
    ring.
Qed.

End GetScaleAxes.

(** X19. For a scaling along the axes, [Matrix(sx, 0, 0, sy, 0, 0)],
    [getScale()] is the smaller of the two factors: exactly [min(sx, sy)]
    in binary64 for integers [sx, sy >= 1] with [sx*sy < 2^53], given that
    [Math.hypot] is exact on the two axis vectors (as the sample
    [Math.hypot] is); and [min(sx, sy)] for all positive [sx], [sy] in
    exact arithmetic. *)
Theorem getScale_axis_scaling :
  (forall (M : MathApprox float) (sx sy : Z),
     (1 <= sx)%Z -> (1 <= sy)%Z -> (sx * sy < 2 ^ 53)%Z ->
     Math_hypot 0%float (of_Z sy) = of_Z sy ->
     Math_hypot (of_Z sx) 0%float = of_Z sx ->
     Matrix_getScale (new_Matrix (of_Z sx) 0 0 (of_Z sy) 0 0)%float
     = of_Z (Z.min sx sy))
  /\ (forall sx sy : Z,
        (1 <= sx)%Z -> (1 <= sy)%Z -> (sx * sy < 2 ^ 53)%Z ->
        @Matrix_getScale _ _ sample_math
          (new_Matrix (of_Z sx) 0 0 (of_Z sy) 0 0)%float
        = of_Z (Z.min sx sy))
  /\ (forall sx sy : Rdefinitions.R,
        Rdefinitions.Rlt (Rdefinitions.IZR 0) sx ->
        Rdefinitions.Rlt (Rdefinitions.IZR 0) sy ->
        Matrix_getScale
          (new_Matrix sx (Rdefinitions.IZR 0) (Rdefinitions.IZR 0) sy
             (Rdefinitions.IZR 0) (Rdefinitions.IZR 0))
        = Rbasic_fun.Rmin sx sy).
Proof.
  split; [| split].
  - intros M sx sy. apply getScale_axes_of_Z.
  - intros sx sy Hx Hy Hxy.
    assert (Sx : safe_integer sx) by (unfold safe_integer; nia).
    assert (Sy : safe_integer sy) by (unfold safe_integer; nia).
    apply (@getScale_axes_of_Z sample_math); try assumption.
    + apply Sample_hypot_0_l; [now apply is_finite_of_Z |].
      rewrite ltb_0_of_Z by exact Sy. apply Z.ltb_lt. lia.
    + apply Sample_hypot_0_r; [now apply is_finite_of_Z |].
      rewrite ltb_0_of_Z by exact Sx. apply Z.ltb_lt. lia.
  - exact ExactScale.exact_getScale_axes.
Qed.

(** The scaling by [2] and [3]. *)
Lemma getScale_axis_scaling_witness :
  (1 <= 2)%Z /\ (1 <= 3)%Z /\ (2 * 3 < 2 ^ 53)%Z
  /\ @Matrix_getScale _ _ sample_math
       (new_Matrix (of_Z 2) 0 0 (of_Z 3) 0 0)%float = of_Z (Z.min 2 3).
Proof.
  assert (H1 : (1 <= 2)%Z) by lia.
  assert (H2 : (1 <= 3)%Z) by lia.
  assert (H3 : (2 * 3 < 2 ^ 53)%Z) by reflexivity.
  split; [exact H1 |]. split; [exact H2 |]. split; [exact H3 |].
  exact (proj1 (proj2 getScale_axis_scaling) 2%Z 3%Z H1 H2 H3).
Defined.

(** ** [areCollinear] on points with integer coordinates *)

Section CollinearIntegers.

Local Open Scope float_scope.

Lemma ltb_same_l (u u' w : float) :
  same_number u u' -> (u <? w) = (u' <? w).
Proof.
  intros [-> | [H1 H2]]; [reflexivity |].
  rewrite is_zero_spec in H1, H2. rewrite !ltb_spec.
  destruct (Prim2SF u) as [su | su | | su mu eu]; try discriminate.
  destruct (Prim2SF u') as [su' | su' | | su' mu' eu']; try discriminate.
  reflexivity.
Qed.

Lemma ltb_of_Z_1e_8 (z : Z) :
  safe_integer z -> (of_Z z <? 1e-8) = (z <=? 0)%Z.
Proof.
  intro Hz. rewrite ltb_spec, Prim2SF_of_Z by exact Hz. unfold SFltb.
  rewrite SFcompare_value;
    [| now apply SF_of_Z_finite_valid
     | now apply SF_finite_valid_Prim2SF].
  rewrite SF_value_of_Z by exact Hz.
  set (V := SF_value (Prim2SF 1e-8)).
  assert (HV : (0 < V < 2 ^ 1074)%Z) by (split; reflexivity).
  assert (HP : (0 < 2 ^ 1074)%Z) by reflexivity.
  revert HV HP. generalize V (2 ^ 1074)%Z. intros v P HV HP.
  destruct (Z.leb_spec z 0) as [H | H].
  - replace (z * P ?= v)%Z with Lt; [reflexivity |].
    symmetry. apply Z.compare_lt_iff. nia.
  - replace (z * P ?= v)%Z with Gt; [reflexivity |].
    symmetry. apply Z.compare_gt_iff. nia.
Qed.

Lemma collinear_with_integers (q0 q1 q : Z * Z) :
  small_point q0 -> small_point q1 -> small_point q ->
  collinear_with (x (integer_Point q0)) (y (integer_Point q0))
    (x (integer_Point q1)) (y (integer_Point q1)) (integer_Point q)
  = (signed_double_area_Z q0 q1 q <=? 0)%Z.
Proof.
  unfold small_point, small_integer. intros [H0 H0'] [H1 H1'] [H H'].
  rewrite collinear_with_area.
  unfold signed_double_area, signed_double_area_Z, integer_Point.
  cbn [x y mul add sub lt lit_1e_8 binary64].
  match goal with
  | |- (?u <? _) = _ => eassert (R : represents u _ _) by integer_value
  end.
  rewrite (ltb_same_l _ _ _ (proj1 R)).
  now rewrite (ltb_of_Z_1e_8 _ (represents_safe _ _ _ R)).
Qed.

Lemma signed_double_area_Z_first (q0 q1 : Z * Z) :
  signed_double_area_Z q0 q1 q0 = 0%Z.
Proof. unfold signed_double_area_Z. ring. Qed.

Lemma signed_double_area_Z_second (q0 q1 : Z * Z) :
  signed_double_area_Z q0 q1 q1 = 0%Z.
Proof. unfold signed_double_area_Z. ring. Qed.

Lemma signed_double_area_Z_swap (q0 q1 q : Z * Z) :
  signed_double_area_Z q1 q0 q = (- signed_double_area_Z q0 q1 q)%Z.
Proof. unfold signed_double_area_Z. ring. Qed.

Lemma areCollinear_integers (q0 q1 : Z * Z) (rest : list (Z * Z)) :
  Forall small_point (q0 :: q1 :: rest) ->
  areCollinear (map integer_Point (q0 :: q1 :: rest))
  = forallb (fun q => (signed_double_area_Z q0 q1 q <=? 0)%Z) rest.
Proof.
  intro Hall.
  pose proof (Forall_inv Hall) as S0.
  pose proof (Forall_inv (Forall_inv_tail Hall)) as S1.
  pose proof (Forall_inv_tail (Forall_inv_tail Hall)) as Srest.
  destruct rest as [| q2 rest]; [reflexivity |].
  unfold areCollinear.
  change (length (map integer_Point (q0 :: q1 :: q2 :: rest)) <? 3)%nat
    with false.
  cbn [map]. cbv iota zeta. rewrite Array_every_forallb.
  change (integer_Point q0 :: integer_Point q1
          :: integer_Point q2 :: map integer_Point rest)
    with (map integer_Point (q0 :: q1 :: q2 :: rest)).
  assert (E : forall l, Forall small_point l ->
            forallb (collinear_with (x (integer_Point q0)) (y (integer_Point q0))
                       (x (integer_Point q1)) (y (integer_Point q1)))
              (map integer_Point l)
            = forallb (fun q => (signed_double_area_Z q0 q1 q <=? 0)%Z) l).
  { induction l as [| q l IH]; intro Hl; [reflexivity |].
    cbn [map forallb].
    rewrite (collinear_with_integers q0 q1 q S0 S1 (Forall_inv Hl)).
    now rewrite (IH (Forall_inv_tail Hl)). }
  rewrite (E _ Hall). cbn [forallb].
  now rewrite signed_double_area_Z_first, signed_double_area_Z_second.
Qed.

End CollinearIntegers.

Module ExactCollinear.

Import Stdlib.Reals.Reals Stdlib.micromega.Lra.
Local Open Scope R_scope.

Lemma exact_areCollinear_three (p0 p1 p2 : Point R) :
  areCollinear [p0; p1; p2]
  = Exact.ltb (signed_double_area p0 p1 p2) (1 / 100000000).
Proof.
  unfold areCollinear. cbn [length Nat.ltb Nat.leb].
  rewrite Array_every_forallb. cbn [forallb].
  rewrite !collinear_with_area.
  replace (signed_double_area p0 p1 p0) with 0
    by (unfold signed_double_area; cbn; ring).
  replace (signed_double_area p0 p1 p1) with 0
    by (unfold signed_double_area; cbn; ring).
  cbn [lt lit_1e_8 exact].
  rewrite (proj2 (ExactLaws.exact_ltb_true 0 (1 / 100000000))) by lra.
  cbn [andb]. apply andb_true_r.
Qed.

Lemma exact_areCollinear_one_order (p0 p1 p2 : Point R) :
  areCollinear [p0; p1; p2] = true \/ areCollinear [p1; p0; p2] = true.
Proof.
  rewrite !exact_areCollinear_three.
  replace (signed_double_area p1 p0 p2) with (- signed_double_area p0 p1 p2)
    by (unfold signed_double_area; cbn; ring).
  destruct (Rlt_dec (signed_double_area p0 p1 p2) (1 / 100000000)) as [H | H].
  - left. now apply ExactLaws.exact_ltb_true.
  - right. apply ExactLaws.exact_ltb_true. lra.
Qed.

End ExactCollinear.

(** X20. On points with integer coordinates of magnitude at most [2^16],
    [areCollinear] of two or more points is true exactly when twice the
    signed area of the first two points with each further point is [<= 0]:
    a triangle is reported collinear whenever it turns one way.  Hence for
    any three such points at least one of the two orders of the first two
    is reported collinear, and so it is for all points in exact
    arithmetic. *)
Theorem areCollinear_on_integer_points :
  (forall (q0 q1 : Z * Z) (rest : list (Z * Z)),
     Forall small_point (q0 :: q1 :: rest) ->
     areCollinear (map integer_Point (q0 :: q1 :: rest))
     = forallb (fun q => (signed_double_area_Z q0 q1 q <=? 0)%Z) rest)
  /\ (forall q0 q1 q2 : Z * Z,
        small_point q0 -> small_point q1 -> small_point q2 ->
        areCollinear [integer_Point q0; integer_Point q1; integer_Point q2]
        = true
        \/ areCollinear [integer_Point q1; integer_Point q0; integer_Point q2]
           = true)
  /\ (forall p0 p1 p2 : Point Rdefinitions.R,
        areCollinear [p0; p1; p2] = true \/ areCollinear [p1; p0; p2] = true).
Proof.
  split; [exact areCollinear_integers | split].
  - intros q0 q1 q2 S0 S1 S2.
    pose proof (areCollinear_integers q0 q1 [q2]) as H01.
    pose proof (areCollinear_integers q1 q0 [q2]) as H10.
    cbn [map forallb] in H01, H10.
    rewrite H01, H10 by (repeat (constructor; try assumption)).
    rewrite (signed_double_area_Z_swap q0 q1 q2), !andb_true_r.
    destruct (Z.leb_spec (signed_double_area_Z q0 q1 q2) 0) as [H | H].
    + now left.
    + right. apply Z.leb_le. lia.
  - exact ExactCollinear.exact_areCollinear_one_order.
Qed.

Section CollinearWitness.

Local Open Scope Z_scope.

(** A triangle turning clockwise, which is reported collinear. *)
Lemma areCollinear_on_integer_points_witness :
  Forall small_point [(0, 0); (1, 1); (3, 2)]
  /\ areCollinear (map integer_Point [(0, 0); (1, 1); (3, 2)])
     = forallb (fun q => signed_double_area_Z (0, 0) (1, 1) q <=? 0) [(3, 2)]
  /\ signed_double_area_Z (0, 0) (1, 1) (3, 2) = -1.
Proof.
  assert (H : Forall small_point [(0, 0); (1, 1); (3, 2)])
    by (repeat constructor; unfold small_integer; simpl; lia).
  split; [exact H |]. split; [| reflexivity].
  exact (proj1 areCollinear_on_integer_points (0, 0) (1, 1) [(3, 2)] H).
Defined.

End CollinearWitness.

(** ** [areCollinear] and NaN coordinates *)

Section CollinearNaN.

Local Open Scope float_scope.

Lemma add_nan_l (u v : float) : is_nan u = true -> is_nan (u + v) = true.
Proof.
  rewrite !is_nan_spec, add_spec.
  destruct (Prim2SF u) as [su | su | | su mu eu]; try discriminate.
  now destruct (Prim2SF v).
Qed.

Lemma add_nan_r (u v : float) : is_nan v = true -> is_nan (u + v) = true.
Proof.
  rewrite !is_nan_spec, add_spec.
  destruct (Prim2SF v) as [sv | sv | | sv mv ev]; try discriminate.
  now destruct (Prim2SF u).
Qed.

Lemma sub_nan_l (u v : float) : is_nan u = true -> is_nan (u - v) = true.
Proof.
  rewrite !is_nan_spec, sub_spec.
  destruct (Prim2SF u) as [su | su | | su mu eu]; try discriminate.
  now destruct (Prim2SF v).
Qed.

Lemma sub_nan_r (u v : float) : is_nan v = true -> is_nan (u - v) = true.
Proof.
  rewrite !is_nan_spec, sub_spec.
  destruct (Prim2SF v) as [sv | sv | | sv mv ev]; try discriminate.
  now destruct (Prim2SF u).
Qed.

Lemma mul_nan_l (u v : float) : is_nan u = true -> is_nan (u * v) = true.
Proof.
  rewrite !is_nan_spec, mul_spec.
  destruct (Prim2SF u) as [su | su | | su mu eu]; try discriminate.
  now destruct (Prim2SF v).
Qed.

Lemma mul_nan_r (u v : float) : is_nan v = true -> is_nan (u * v) = true.
Proof.
  rewrite !is_nan_spec, mul_spec.
  destruct (Prim2SF v) as [sv | sv | | sv mv ev]; try discriminate.
  now destruct (Prim2SF u).
Qed.

Lemma ltb_nan_l (u w : float) : is_nan u = true -> (u <? w) = false.
Proof.
  rewrite is_nan_spec, ltb_spec.
  now destruct (Prim2SF u) as [su | su | | su mu eu].
Qed.

Lemma collinear_with_nan (a0 b0 m0 n0 : float) (p : Point float) :
  is_nan (x p) = true \/ is_nan (y p) = true ->
  collinear_with a0 b0 m0 n0 p = false.
Proof.
  intro H. unfold collinear_with. cbn [mul add sub lt lit_1e_8 binary64].
  apply ltb_nan_l. destruct H as [H | H].
  - now apply add_nan_r, mul_nan_l.
  - now apply add_nan_l, add_nan_l, mul_nan_r, sub_nan_r.
Qed.

(** X21. With three or more points, [areCollinear] is false as soon as any
    one of them has a NaN coordinate. *)
Theorem areCollinear_with_NaN (points : list (Point float)) (p : Point float) :
  (3 <= length points)%nat -> In p points ->
  is_nan (x p) = true \/ is_nan (y p) = true ->
  areCollinear points = false.
Proof.
  intros Hlen Hin Hnan.
  destruct points as [| p0 [| p1 [| p2 rest]]]; cbn [length] in Hlen; try lia.
  unfold areCollinear.
  change (length (p0 :: p1 :: p2 :: rest) <? 3)%nat with false.
  cbv iota zeta. rewrite Array_every_forallb.
  apply not_true_is_false. intro Hall.
  rewrite forallb_forall in Hall. specialize (Hall p Hin).
  now rewrite collinear_with_nan in Hall.
Qed.

(** Three points on a line, the last one with a NaN ordinate. *)
Lemma areCollinear_with_NaN_witness :
  let points := [new_Point 0 0; new_Point 1 1; new_Point 2 nan] in
  (3 <= length points)%nat /\ In (new_Point 2 nan) points
  /\ (is_nan (x (new_Point 2 nan)) = true \/ is_nan (y (new_Point 2 nan)) = true)
  /\ areCollinear points = false.
Proof.
  cbv zeta.
  assert (H1 : Nat.le 3 (length [new_Point 0 0; new_Point 1 1; new_Point 2 nan]))
    by (simpl; lia).
  assert (H2 : In (new_Point 2 nan)
                 [new_Point 0 0; new_Point 1 1; new_Point 2 nan])
    by (right; right; left; reflexivity).
  assert (H3 : is_nan (x (new_Point 2 nan)) = true
               \/ is_nan (y (new_Point 2 nan)) = true)
    by (right; reflexivity).
  split; [exact H1 |]. split; [exact H2 |]. split; [exact H3 |].
  exact (areCollinear_with_NaN _ _ H1 H2 H3).
Defined.

End CollinearNaN.
